(** * Image-Effects: the pixel-transform engine

    A shallow embedding of the effect algorithms of
    [components/ImageEffectsProcessor.tsx] and of the older revision kept
    under [.github/workflows/components/ImageEffectsProcessor.tsx].

    Conventions of the embedding.
    - An [ImageData] is a width, a height and the flat RGBA byte array of a
      [Uint8ClampedArray]; bytes and indices are [Z], the array is a
      [list Z] read with [rd] and written with [store]/[wr] (a write outside
      the array is dropped, as for a typed array).
    - A JavaScript [number] is an exact rational ([Q]); the rounding of
      intermediate double results is not represented, except for the
      posterize anchors, whose binary64 evaluation is given separately
      ([quantLevels_f64]) and shown to agree with the rational one.
      Where a double lands on a half before it is rounded to an integer,
      a byte of the source can so differ by one from the byte computed
      here ([noiseBody], [embossSums], [embossPixel], [vintageBody],
      [applyEffect_size]), and the lattice of [applyHalftoneEffect] can
      hold one more point; what is stated of these is a copy, an order,
      an equality between channels or a bound that includes the half, and
      holds on either side.
    - The 2D canvas context is a host object: every effect is the list of
      commands it issues on the context ([CanvasCmd]), with the pixel
      arrays it passes to [putImageData] computed exactly.
    - [Math.sin], [Math.cos] and [Math.random] belong to the host
      ([JSMath]). *)

From Stdlib Require Import ZArith QArith Qround Qabs Lqa Lia.
From Stdlib Require Import Floats.SpecFloat.
From stdpp Require Import base list strings.

Local Open Scope Z_scope.

(** ** JavaScript numbers and typed arrays *)

(** [Math.round]: the nearest integer, a tie going to +infinity. *)
Definition Math_round (x : Q) : Z := Qfloor (x + (1 # 2)).

Definition Math_floor (x : Q) : Z := Qfloor x.

Definition Math_ceil (x : Q) : Z := Qceiling x.

Definition Qltb (x y : Q) : bool := negb (Qle_bool y x).

(** Conversion of a number stored into a [Uint8ClampedArray]
    (ECMAScript ToUint8Clamp): clamp to [0,255], then round to the nearest
    integer, a tie going to the even one. *)
Definition toUint8Clamp (x : Q) : Z :=
  if Qle_bool x 0 then 0
  else if Qle_bool 255 x then 255
  else
    let f := Qfloor x in
    if Qltb (inject_Z f + (1 # 2)) x then f + 1
    else if Qltb x (inject_Z f + (1 # 2)) then f
    else if Z.even f then f else f + 1.

(** [data[i]] for an index inside the array; the arrays of an [ImageData]
    are never read outside their bounds by the effects below when
    [data.length = 4 * width * height]. Outside, the read is [0] here. *)
Definition rd (d : list Z) (i : Z) : Z :=
  if i <? 0 then 0 else default 0 (d !! Z.to_nat i).

(** [data[i] = v] for a byte [v]. *)
Definition wr (d : list Z) (i : Z) (v : Z) : list Z :=
  if i <? 0 then d else <[Z.to_nat i := v]> d.

(** [data[i] = x] for a number [x]. *)
Definition store (d : list Z) (i : Z) (x : Q) : list Z :=
  wr d i (toUint8Clamp x).

Record ImageData := mkImageData {
  width : Z;
  height : Z;
  data : list Z
}.

(** [ctx.createImageData(w, h)]: transparent black. *)
Definition createImageData (w h : Z) : ImageData :=
  mkImageData w h (replicate (Z.to_nat (w * h * 4)) 0).

Definition is_byte (v : Z) : Prop := 0 <= v <= 255.

(** What the browser guarantees of every [ImageData]. *)
Definition well_formed (img : ImageData) : Prop :=
  0 <= width img /\ 0 <= height img /\
  Z.of_nat (length (data img)) = width img * height img * 4 /\
  Forall is_byte (data img).

(** ** Counting loops *)

(** [for (let i = lo; i < hi; i++) body]. *)
Definition forRange {S : Type} (lo hi : Z) (body : Z -> S -> S) (s : S) : S :=
  foldl (fun s i => body i s) s (seqZ lo (hi - lo)).

(** [for (let i = lo; i < hi; i += stride) body] for a literal positive
    [stride]. *)
Definition forStride {S : Type} (lo hi stride : Z) (body : Z -> S -> S) (s : S) : S :=
  forRange 0 ((hi - lo + stride - 1) / stride) (fun k => body (lo + k * stride)) s.

(** [for (let i = start; i < limit; i += step) body] for a computed
    [step]: the loop runs forever when [step <= 0 < limit - start], so the
    embedding counts iterations down from [fuel] and answers [None] when
    they run out. *)
Fixpoint forLoop {S : Type} (fuel : nat) (i limit step : Z)
    (body : Z -> S -> option S) (s : S) : option S :=
  match fuel with
  | O => None
  | Datatypes.S fuel' =>
      if i <? limit then
        match body i s with
        | Some s' => forLoop fuel' (i + step) limit step body s'
        | None => None
        end
      else Some s
  end.

(** The same loop over a fractional counter. *)
Fixpoint forLoopQ {S : Type} (fuel : nat) (i limit step : Q)
    (body : Q -> S -> option S) (s : S) : option S :=
  match fuel with
  | O => None
  | Datatypes.S fuel' =>
      if Qltb i limit then
        match body i s with
        | Some s' => forLoopQ fuel' (i + step)%Q limit step body s'
        | None => None
        end
      else Some s
  end.

(** [Math.max] and [Math.min] on numbers. *)
Definition Math_max (x y : Q) : Q := if Qle_bool x y then y else x.

Definition Math_min (x y : Q) : Q := if Qle_bool x y then x else y.

(** [Math.PI]: the exact value of the double nearest to pi. *)
Definition Math_PI : Q := 884279719003555 # 281474976710656.

(** The host's numeric functions. [Math_random k] is the [k]-th draw made
    by the running effect. *)
Class JSMath := {
  Math_sin : Q -> Q;
  Math_cos : Q -> Q;
  Math_sqrt : Q -> Q;
  Math_random : nat -> Q
}.

(** ** Parameters of the effects *)

Inductive ShapeType := circle | diamond | rectangle.

Record PixelateParams := { pixelSize : Z }.

Record HalftoneParams := {
  shapeType : ShapeType;
  dotRadius : Q;
  angle : Q;
  colorMode : bool
}.

Record BlurParams := { radius : Q }.

Record NoiseParams := { amount : Q }.

Record PosterizeParams := { levels : Q }.

Record GlassRefractionParams := {
  intensity : Q;
  frequency : Q;
  amplitude : Q;
  direction : Q
}.

Record EmbossParams := { strength : Q }.

Record VintageParams := { sepia : Q; grain : Q; vignette : Q }.

(** [EffectParams] is the union of the eight parameter shapes. *)
Inductive EffectParams :=
| OfPixelate (p : PixelateParams)
| OfHalftone (p : HalftoneParams)
| OfBlur (p : BlurParams)
| OfNoise (p : NoiseParams)
| OfPosterize (p : PosterizeParams)
| OfGlassRefraction (p : GlassRefractionParams)
| OfEmboss (p : EmbossParams)
| OfVintage (p : VintageParams).

(** ** Commands issued on the canvas context *)

Inductive FillStyle :=
| White                                   (* '#ffffff' *)
| Black                                   (* '#000000' *)
| Rgb (r g b : Z)                         (* `rgb(r, g, b)` *)
| RadialBlack (cx cy r opacity : Q).      (* transparent to rgba(0,0,0,opacity) *)

Inductive DotPath :=
| Arc (r : Q)                             (* arc(0, 0, r, 0, 2 pi) *)
| Diamond (size : Q)                      (* the four vertices at distance size *)
| Rect (half : Q).                        (* fillRect(-half, -half, 2 half, 2 half) *)

Inductive CanvasCmd :=
| DrawImage (img : ImageData)             (* drawImage(image, 0, 0) *)
| DrawScaled (img : ImageData) (sw sh dw dh : Z)
    (* unsmoothed drawImage down to sw x sh, then back up to dw x dh *)
| DrawFiltered (blurPx opacity : Q) (img : ImageData)
    (* filter = blur(..px), globalAlpha = opacity, drawImage *)
| PutImageData (img : ImageData)          (* putImageData(img, 0, 0) *)
| FillRect (style : FillStyle) (x y w h : Q)
| FillDot (x y rotation : Q) (style : FillStyle) (crisp : bool) (path : DotPath).
    (* save, translate, rotate, fill the path, restore *)

(** ** Pixelate (components/ImageEffectsProcessor.tsx)

    The current revision scales the image down to a small canvas and back
    up, both with smoothing disabled; which source pixel each output pixel
    shows is the host's choice, so the effect is the command it issues.
    For [pixelSize < 1] the small canvas is degenerate and what the host
    does with it is not represented. *)

Definition applyPixelateEffect (image : ImageData) (params : PixelateParams)
    : list CanvasCmd :=
  let scale := inject_Z (pixelSize params) in
  let smallW := Math_ceil (inject_Z (width image) / scale) in
  let smallH := Math_ceil (inject_Z (height image) / scale) in
  [DrawScaled image smallW smallH (width image) (height image)].

(** ** Halftone *)

Definition halftoneSpacing (dotRadius : Q) : Q :=
  if Qle_bool dotRadius 2 then dotRadius * (18 # 10)
  else if Qle_bool dotRadius 5 then dotRadius * 2
  else dotRadius * (25 # 10).

Definition minDotThreshold (dotRadius : Q) : Q :=
  if Qle_bool dotRadius 2 then 1 # 10 else 3 # 10.

(** The dot size computed at one lattice point from the sampled colour. *)
Definition halftoneDotSize (params : HalftoneParams) (r g b : Z) : Q :=
  let brightness := (inject_Z (r + g + b) / 3)%Q in
  let normalizedBrightness :=
    (if colorMode params then brightness / 255 else 1 - brightness / 255)%Q in
  let dotSize := (normalizedBrightness * dotRadius params)%Q in
  if Qle_bool (dotRadius params) 2 then
    Math_max (dotSize * (12 # 10))
             (if Qltb (1 # 10) normalizedBrightness then 3 # 10 else 0)
  else if Qle_bool (dotRadius params) 3 then
    Math_max dotSize (if Qltb (1 # 10) normalizedBrightness then 4 # 10 else 0)
  else dotSize.

(** The body of the inner loop: sample, size the dot, draw it when it is
    above the threshold. *)
Definition halftoneCell (image : ImageData) (params : HalftoneParams)
    (x y : Q) (cmds : list CanvasCmd) : list CanvasCmd :=
  let sampleX := Math_floor (Math_max 0 (Math_min x (inject_Z (width image - 1)))) in
  let sampleY := Math_floor (Math_max 0 (Math_min y (inject_Z (height image - 1)))) in
  let pixelIndex := (sampleY * width image + sampleX) * 4 in
  let r := rd (data image) pixelIndex in
  let g := rd (data image) (pixelIndex + 1) in
  let b := rd (data image) (pixelIndex + 2) in
  let dotSize := halftoneDotSize params r g b in
  if Qltb (minDotThreshold (dotRadius params)) dotSize then
    let angleRad := (angle params * Math_PI / 180)%Q in
    let style := if colorMode params then Rgb r g b else Black in
    let crisp := Qle_bool (dotRadius params) 2 in
    let path :=
      match shapeType params with
      | circle => Arc dotSize
      | diamond => Diamond dotSize
      | rectangle =>
          Rect (Math_max dotSize
                  (if Qle_bool (dotRadius params) 2 then 1 # 2 else dotSize))
      end in
    cmds ++ [FillDot x y angleRad style crisp path]
  else cmds.

Definition applyHalftoneEffect (fuel : nat) (image : ImageData)
    (params : HalftoneParams) : option (list CanvasCmd) :=
  let w := inject_Z (width image) in
  let h := inject_Z (height image) in
  let spacing := halftoneSpacing (dotRadius params) in
  forLoopQ fuel (spacing / 2) h spacing
    (fun y cmds =>
       forLoopQ fuel (spacing / 2) w spacing
         (fun x cmds => Some (halftoneCell image params x y cmds)) cmds)
    [FillRect White 0 0 w h].

(** ** Blur *)

Definition applyBlurEffect (image : ImageData) (params : BlurParams)
    : list CanvasCmd :=
  [DrawFiltered (radius params) 1 image].

(** ** Noise *)

Definition noiseBody `{JSMath} (params : NoiseParams) (i : Z) (d : list Z)
    : list Z :=
  let noise := ((Math_random (Z.to_nat (i / 4)) - (1 # 2)) * amount params * 2)%Q in
  let d := store d i
             (Math_max 0 (Math_min 255 (inject_Z (rd d i) + noise))) in
  let d := store d (i + 1)
             (Math_max 0 (Math_min 255 (inject_Z (rd d (i + 1)) + noise))) in
  store d (i + 2)
        (Math_max 0 (Math_min 255 (inject_Z (rd d (i + 2)) + noise))).

Definition noiseData `{JSMath} (image : ImageData) (params : NoiseParams)
    : ImageData :=
  mkImageData (width image) (height image)
    (forStride 0 (Z.of_nat (length (data image))) 4 (noiseBody params)
       (data image)).

Definition applyNoiseEffect `{JSMath} (image : ImageData) (params : NoiseParams)
    : list CanvasCmd :=
  [DrawImage image; PutImageData (noiseData image params)].

(** ** Posterize *)

Definition posterizeLevels (params : PosterizeParams) : Z :=
  Z.max 2 (Math_floor (levels params)).

(** The array [quantLevels] built for [levels] anchors. *)
Definition quantLevels (levels : Z) : list Z :=
  (fun i => Math_round (inject_Z i / inject_Z (levels - 1) * 255)) <$> seqZ 0 levels.

(** One turn of the search loop of [quantize]: the pair is
    [(nearest, minDiff)]. *)
Definition quantizeStep (value : Z) (st : Z * Z) (q : Z) : Z * Z :=
  let diff := Z.abs (value - q) in
  if diff <? snd st then (q, diff) else st.

(** The closure [quantize], over the array it captures. *)
Definition quantize (quantLevels : list Z) (value : Z) : Z :=
  let nearest := default 0 (head quantLevels) in
  let minDiff := Z.abs (value - nearest) in
  fst (foldl (quantizeStep value) (nearest, minDiff) (tail quantLevels)).

Definition posterizeBody (anchors : list Z) (i : Z) (d : list Z) : list Z :=
  let d := store d i (inject_Z (quantize anchors (rd d i))) in
  let d := store d (i + 1) (inject_Z (quantize anchors (rd d (i + 1)))) in
  store d (i + 2) (inject_Z (quantize anchors (rd d (i + 2)))).

Definition posterizeData (image : ImageData) (params : PosterizeParams)
    : ImageData :=
  let anchors := quantLevels (posterizeLevels params) in
  mkImageData (width image) (height image)
    (forStride 0 (Z.of_nat (length (data image))) 4 (posterizeBody anchors)
       (data image)).

Definition applyPosterizeEffect (image : ImageData) (params : PosterizeParams)
    : list CanvasCmd :=
  [DrawImage image; PutImageData (posterizeData image params)].

(** ** Glass refraction *)

(** The wave field at the output pixel [(x, y)]: [combinedWave]. *)
Definition combinedWave `{JSMath} (image : ImageData)
    (params : GlassRefractionParams) (x y : Z) : Q :=
  let freqFactor := (frequency params * (1 # 10))%Q in
  let normalizedX := (inject_Z x / inject_Z (width image))%Q in
  let normalizedY := (inject_Z y / inject_Z (height image))%Q in
  let wave1 := (Math_sin (normalizedX * Math_PI * freqFactor)
                * Math_cos (normalizedY * Math_PI * freqFactor))%Q in
  let wave2 := (Math_sin (normalizedY * Math_PI * freqFactor * (13 # 10))
                * Math_cos (normalizedX * Math_PI * freqFactor * (7 # 10)))%Q in
  let wave3 := Math_sin ((normalizedX + normalizedY) * Math_PI * freqFactor * (8 # 10)) in
  ((wave1 + wave2 * (7 # 10) + wave3 * (5 # 10)) / (22 # 10))%Q.

(** [clampedX] and [clampedY]: the source pixel sampled for [(x, y)]. *)
Definition glassSource `{JSMath} (image : ImageData)
    (params : GlassRefractionParams) (x y : Z) : Z * Z :=
  let directionRad := (direction params * Math_PI / 180)%Q in
  let cosDir := Math_cos directionRad in
  let sinDir := Math_sin directionRad in
  let intensityFactor := (intensity params / 100)%Q in
  let ampFactor := (amplitude params * intensityFactor)%Q in
  let wave := combinedWave image params x y in
  let distortionX := (wave * ampFactor * cosDir)%Q in
  let distortionY := (wave * ampFactor * sinDir)%Q in
  let perpDistortionX := (wave * ampFactor * (3 # 10) * - sinDir)%Q in
  let perpDistortionY := (wave * ampFactor * (3 # 10) * cosDir)%Q in
  let sourceX := Math_round (inject_Z x + distortionX + perpDistortionX) in
  let sourceY := Math_round (inject_Z y + distortionY + perpDistortionY) in
  (Z.max 0 (Z.min (width image - 1) sourceX),
   Z.max 0 (Z.min (height image - 1) sourceY)).

(** [brightnessFactor] at the output pixel [(x, y)]. *)
Definition brightnessFactor `{JSMath} (image : ImageData)
    (params : GlassRefractionParams) (x y : Z) : Q :=
  let intensityFactor := (intensity params / 100)%Q in
  let brightnessVariation :=
    (Math_sin (combinedWave image params x y * Math_PI) * (1 # 10) * intensityFactor)%Q in
  (1 + brightnessVariation)%Q.

(** The body of the inner loop: the four bytes written at [outputIndex]. *)
Definition glassPixel `{JSMath} (image : ImageData)
    (params : GlassRefractionParams) (x y : Z) (out : list Z) : list Z :=
  let w := width image in
  let original := data image in
  let intensityFactor := (intensity params / 100)%Q in
  let ampFactor := (amplitude params * intensityFactor)%Q in
  let '(clampedX, clampedY) := glassSource image params x y in
  let sourceIndex := (clampedY * w + clampedX) * 4 in
  let outputIndex := (y * w + x) * 4 in
  let r := rd original sourceIndex in
  let g := rd original (sourceIndex + 1) in
  let b := rd original (sourceIndex + 2) in
  let a := rd original (sourceIndex + 3) in
  let aberrationOffset := Math_floor (ampFactor * (5 # 10)) in
  let shifted := Qltb (3 # 10) intensityFactor && (0 <? aberrationOffset) in
  let redX := Z.max 0 (Z.min (w - 1) (clampedX + aberrationOffset)) in
  let blueX := Z.max 0 (Z.min (w - 1) (clampedX - aberrationOffset)) in
  let r := if shifted then rd original ((clampedY * w + redX) * 4) else r in
  let b := if shifted then rd original ((clampedY * w + blueX) * 4 + 2) else b in
  let factor := brightnessFactor image params x y in
  let shade (c : Z) : Q :=
    inject_Z (Z.max 0 (Z.min 255 (Math_round (inject_Z c * factor)))) in
  let out := store out outputIndex (shade r) in
  let out := store out (outputIndex + 1) (shade g) in
  let out := store out (outputIndex + 2) (shade b) in
  store out (outputIndex + 3) (inject_Z a).

Definition glassData `{JSMath} (image : ImageData)
    (params : GlassRefractionParams) : ImageData :=
  let outputData := createImageData (width image) (height image) in
  mkImageData (width image) (height image)
    (forRange 0 (height image)
       (fun y out => forRange 0 (width image) (fun x out => glassPixel image params x y out) out)
       (data outputData)).

Definition applyGlassRefractionEffect `{JSMath} (image : ImageData)
    (params : GlassRefractionParams) : list CanvasCmd :=
  let outputData := glassData image params in
  let intensityFactor := (intensity params / 100)%Q in
  PutImageData outputData ::
  (if Qltb (5 # 10) intensityFactor
   then [DrawFiltered (intensityFactor * (5 # 10)) (15 # 100) outputData]
   else []).

(** ** Emboss *)

Definition embossKernel (strength : Q) (ky kx : Z) : Q :=
  match ky, kx with
  | -1, -1 => (-2 * strength)%Q
  | -1, 0 => (-1 * strength)%Q
  | -1, 1 => 0%Q
  | 0, -1 => (-1 * strength)%Q
  | 0, 0 => (1 * strength)%Q
  | 0, 1 => (1 * strength)%Q
  | 1, -1 => 0%Q
  | 1, 0 => (1 * strength)%Q
  | 1, 1 => (2 * strength)%Q
  | _, _ => 0%Q
  end.

(** The 3x3 sums [r], [g], [b] around the interior pixel [(x, y)]. *)
Definition embossSums (image : ImageData) (params : EmbossParams) (x y : Z)
    : Q * Q * Q :=
  forRange (-1) 2
    (fun ky acc =>
       forRange (-1) 2
         (fun kx '(r, g, b) =>
            let pixelY := y + ky in
            let pixelX := x + kx in
            let pixelIndex := (pixelY * width image + pixelX) * 4 in
            let kernelValue := embossKernel (strength params) ky kx in
            (r + inject_Z (rd (data image) pixelIndex) * kernelValue,
             g + inject_Z (rd (data image) (pixelIndex + 1)) * kernelValue,
             b + inject_Z (rd (data image) (pixelIndex + 2)) * kernelValue)%Q)
         acc)
    (0, 0, 0)%Q.

(** The body of the convolution loop at the interior pixel [(x, y)]. *)
Definition embossPixel (image : ImageData) (params : EmbossParams) (x y : Z)
    (out : list Z) : list Z :=
  let '(r, g, b) := embossSums image params x y in
  let offset := 128%Q in
  let r := Z.max 0 (Z.min 255 (Math_round (r + offset))) in
  let g := Z.max 0 (Z.min 255 (Math_round (g + offset))) in
  let b := Z.max 0 (Z.min 255 (Math_round (b + offset))) in
  let gray := Math_round (inject_Z (r + g + b) / 3) in
  let colorBlend := Math_min 1 (strength params * (3 # 10)) in
  let blend (c : Z) : Q :=
    inject_Z (Math_round (inject_Z gray * (1 - colorBlend) + inject_Z c * colorBlend)) in
  let outputIndex := (y * width image + x) * 4 in
  let out := store out outputIndex (blend r) in
  let out := store out (outputIndex + 1) (blend g) in
  let out := store out (outputIndex + 2) (blend b) in
  store out (outputIndex + 3) (inject_Z (rd (data image) (outputIndex + 3))).

(** The body of the edge loop at [(x, y)]. *)
Definition embossEdge (image : ImageData) (x y : Z) (out : list Z) : list Z :=
  if (x =? 0) || (x =? width image - 1) || (y =? 0) || (y =? height image - 1) then
    let index := (y * width image + x) * 4 in
    let out := store out index (inject_Z (rd (data image) index)) in
    let out := store out (index + 1) (inject_Z (rd (data image) (index + 1))) in
    let out := store out (index + 2) (inject_Z (rd (data image) (index + 2))) in
    store out (index + 3) (inject_Z (rd (data image) (index + 3)))
  else out.

(** The output array after the convolution loop only. *)
Definition embossInterior (image : ImageData) (params : EmbossParams) : list Z :=
  forRange 1 (height image - 1)
    (fun y out =>
       forRange 1 (width image - 1) (fun x out => embossPixel image params x y out) out)
    (data (createImageData (width image) (height image))).

Definition embossData (image : ImageData) (params : EmbossParams) : ImageData :=
  mkImageData (width image) (height image)
    (forRange 0 (height image)
       (fun y out => forRange 0 (width image) (fun x out => embossEdge image x y out) out)
       (embossInterior image params)).

Definition applyEmbossEffect (image : ImageData) (params : EmbossParams)
    : list CanvasCmd :=
  [PutImageData (embossData image params)].

(** ** Vintage *)

Definition vintageBody `{JSMath} (params : VintageParams) (i : Z) (d : list Z)
    : list Z :=
  let r := inject_Z (rd d i) in
  let g := inject_Z (rd d (i + 1)) in
  let b := inject_Z (rd d (i + 2)) in
  let tr := ((393 # 1000) * r + (769 # 1000) * g + (189 # 1000) * b)%Q in
  let tg := ((349 # 1000) * r + (686 # 1000) * g + (168 # 1000) * b)%Q in
  let tb := ((272 # 1000) * r + (534 # 1000) * g + (131 # 1000) * b)%Q in
  let d := store d i (Math_min 255 (r + (tr - r) * (sepia params / 100))) in
  let d := store d (i + 1) (Math_min 255 (g + (tg - g) * (sepia params / 100))) in
  let d := store d (i + 2) (Math_min 255 (b + (tb - b) * (sepia params / 100))) in
  let grain := ((Math_random (Z.to_nat (i / 4)) - (1 # 2)) * grain params)%Q in
  let d := store d i (Math_max 0 (Math_min 255 (inject_Z (rd d i) + grain))) in
  let d := store d (i + 1) (Math_max 0 (Math_min 255 (inject_Z (rd d (i + 1)) + grain))) in
  store d (i + 2) (Math_max 0 (Math_min 255 (inject_Z (rd d (i + 2)) + grain))).

Definition applyVintageEffect `{JSMath} (image : ImageData)
    (params : VintageParams) : list CanvasCmd :=
  let toned :=
    mkImageData (width image) (height image)
      (forStride 0 (Z.of_nat (length (data image))) 4 (vintageBody params)
         (data image)) in
  let centerX := (inject_Z (width image) / 2)%Q in
  let centerY := (inject_Z (height image) / 2)%Q in
  let maxDist := Math_sqrt (centerX * centerX + centerY * centerY) in
  [DrawImage image; PutImageData toned;
   FillRect (RadialBlack centerX centerY maxDist (vignette params / 100))
     0 0 (inject_Z (width image)) (inject_Z (height image))].

(** ** The dispatch *)

(** The failures that the contract of the engine names. No statement of the
    source raises any of them. *)
Inductive EngineError := InvalidDimensions | ParameterOutOfRange | UnsupportedEffect.

(** What a call leaves behind: the commands issued on the (cleared) canvas,
    a failure, a loop that has not finished within the fuel, or a call
    whose [params] is not the shape that [effect] names (the source casts
    with [params as ...]; TypeScript excludes such calls). *)
Inductive Outcome :=
| Completed (cmds : list CanvasCmd)
| Failed (e : EngineError)
| Unfinished
| IllTyped.

Definition knownEffects : list string :=
  ["pixelate"; "halftone"; "blur"; "noise"; "posterize"; "glass-refraction";
   "emboss"; "vintage"]%string.

(** The [switch] of the current revision. Its [catch] arm, which clears
    the canvas and redraws the image when an effect throws, is not
    represented: no effect throws as it is embedded here. The host can
    throw in one place, the canvas Pixelate with a tile size below 1, whose
    small canvas is empty; that case is outside what [applyPixelateEffect]
    represents. *)
Definition processEffectWithOptimizedImage `{JSMath} (fuel : nat)
    (image : ImageData) (effect : string) (params : EffectParams) : Outcome :=
  if String.eqb effect "pixelate" then
    match params with OfPixelate p => Completed (applyPixelateEffect image p) | _ => IllTyped end
  else if String.eqb effect "halftone" then
    match params with
    | OfHalftone p =>
        match applyHalftoneEffect fuel image p with
        | Some cmds => Completed cmds
        | None => Unfinished
        end
    | _ => IllTyped
    end
  else if String.eqb effect "blur" then
    match params with OfBlur p => Completed (applyBlurEffect image p) | _ => IllTyped end
  else if String.eqb effect "noise" then
    match params with OfNoise p => Completed (applyNoiseEffect image p) | _ => IllTyped end
  else if String.eqb effect "posterize" then
    match params with OfPosterize p => Completed (applyPosterizeEffect image p) | _ => IllTyped end
  else if String.eqb effect "glass-refraction" then
    match params with
    | OfGlassRefraction p => Completed (applyGlassRefractionEffect image p)
    | _ => IllTyped
    end
  else if String.eqb effect "emboss" then
    match params with OfEmboss p => Completed (applyEmbossEffect image p) | _ => IllTyped end
  else if String.eqb effect "vintage" then
    match params with OfVintage p => Completed (applyVintageEffect image p) | _ => IllTyped end
  else
    (* default: "Fallback: just draw the image without effects" *)
    Completed [DrawImage image].

(** The first revision in the same file: the same [switch] without a
    [default] arm. *)
Module Early.

Definition processEffectWithOptimizedImage `{JSMath} (fuel : nat)
    (image : ImageData) (effect : string) (params : EffectParams) : Outcome :=
  if existsb (String.eqb effect) knownEffects
  then processEffectWithOptimizedImage fuel image effect params
  else Completed [].

End Early.

(** ** Pixelate by tile averaging
    (.github/workflows/components/ImageEffectsProcessor.tsx) *)

Module Legacy.

(** The sums [r], [g], [b], [a] and [count] over the tile at [(x, y)]. *)
Definition tileSums (image : ImageData) (pixelSize x y : Z) : Z * Z * Z * Z * Z :=
  forRange y (Z.min (y + pixelSize) (height image))
    (fun py acc =>
       forRange x (Z.min (x + pixelSize) (width image))
         (fun px '(r, g, b, a, count) =>
            let index := (py * width image + px) * 4 in
            (r + rd (data image) index,
             g + rd (data image) (index + 1),
             b + rd (data image) (index + 2),
             a + rd (data image) (index + 3),
             count + 1))
         acc)
    (0, 0, 0, 0, 0).

(** The body of the tile loop: average, then fill the tile. *)
Definition pixelateTile (image : ImageData) (pixelSize x y : Z) (out : list Z)
    : list Z :=
  let '(r, g, b, a, count) := tileSums image pixelSize x y in
  let r := Math_round (inject_Z r / inject_Z count) in
  let g := Math_round (inject_Z g / inject_Z count) in
  let b := Math_round (inject_Z b / inject_Z count) in
  let a := Math_round (inject_Z a / inject_Z count) in
  forRange y (Z.min (y + pixelSize) (height image))
    (fun py out =>
       forRange x (Z.min (x + pixelSize) (width image))
         (fun px out =>
            let index := (py * width image + px) * 4 in
            let out := store out index (inject_Z r) in
            let out := store out (index + 1) (inject_Z g) in
            let out := store out (index + 2) (inject_Z b) in
            store out (index + 3) (inject_Z a))
         out)
    out.

Definition pixelateData (fuel : nat) (image : ImageData) (params : PixelateParams)
    : option ImageData :=
  let imageData := createImageData (width image) (height image) in
  mkImageData (width image) (height image) <$>
    forLoop fuel 0 (height image) (pixelSize params)
      (fun y out =>
         forLoop fuel 0 (width image) (pixelSize params)
           (fun x out => Some (pixelateTile image (pixelSize params) x y out))
           out)
      (data imageData).

Definition applyPixelateEffect (fuel : nat) (image : ImageData)
    (params : PixelateParams) : option (list CanvasCmd) :=
  (fun d => [PutImageData d]) <$> pixelateData fuel image params.

End Legacy.

(** ** Binary64 evaluation of the posterize anchors *)

Definition f64_of_Z (z : Z) : spec_float := binary_normalize 53 1024 z 0 false.

Definition Q_of_f64 (f : spec_float) : Q :=
  match f with
  | S754_finite s m e =>
      ((if s then -1 else 1) * inject_Z (Z.pos m) * Qpower 2 e)%Q
  | _ => 0%Q
  end.

(** [Math.round((i / (levels - 1)) * 255)] with the division and the
    product rounded to doubles as the source computes them. *)
Definition quantLevels_f64 (levels : Z) : list Z :=
  (fun i =>
     Math_round
       (Q_of_f64
          (SFmul 53 1024
             (SFdiv 53 1024 (f64_of_Z i) (f64_of_Z (levels - 1)))
             (f64_of_Z 255))))
  <$> seqZ 0 levels.

(** ** A host for evaluating the effects on concrete inputs

    Sine and cosine by their Taylor polynomials around 0 (14 terms),
    evaluated in fixed point with 48 fractional bits: the error is below
    1e-9 for arguments in [-4, 4]. The square root by Newton's iteration,
    and a constant sequence of random draws. *)

Definition fixOne : Z := 2 ^ 48.

Definition toFix (x : Q) : Z := Qfloor (x * inject_Z fixOne).

Definition ofFix (z : Z) : Q := Qred (inject_Z z / inject_Z fixOne).

Fixpoint taylor (n : nat) (x2 term : Z) (k : Z) : Z :=
  match n with
  | O => 0
  | S n' =>
      term + taylor n' x2 (- (term * x2 / fixOne) / ((k + 1) * (k + 2))) (k + 2)
  end.

Definition sinApprox (x : Q) : Q :=
  let xf := toFix x in ofFix (taylor 14 (xf * xf / fixOne) xf 1).

Definition cosApprox (x : Q) : Q :=
  let xf := toFix x in ofFix (taylor 14 (xf * xf / fixOne) fixOne 0).

Fixpoint newton (n : nat) (a x : Q) : Q :=
  match n with
  | O => x
  | S n' => newton n' a (Qred ((x + a / x) / 2))
  end.

Definition sqrtApprox (a : Q) : Q := newton 12 a (Qred ((a + 1) / 2)).

Definition sampleMath (draw : Q) : JSMath :=
  {| Math_sin := sinApprox; Math_cos := cosApprox; Math_sqrt := sqrtApprox;
     Math_random := fun _ => draw |}.

(** ** Shapes of the loop bodies, for the proofs *)

(** A body that rewrites the three colour bytes of the pixel at [i] in
    place, each from its own old value. *)
Definition pointwise3 (f : Z -> Z -> Q) (i : Z) (d : list Z) : list Z :=
  let d := store d i (f i (rd d i)) in
  let d := store d (i + 1) (f i (rd d (i + 1))) in
  store d (i + 2) (f i (rd d (i + 2))).

(** A body that writes the four bytes of the pixel [(x, y)] when [cond]
    holds there. *)
Definition plot (w : Z) (cond : Z -> Z -> bool) (px : Z -> Z -> Q * Q * Q * Q)
    (x y : Z) (out : list Z) : list Z :=
  if cond x y then
    let index := (y * w + x) * 4 in
    let '(r, g, b, a) := px x y in
    let out := store out index r in
    let out := store out (index + 1) g in
    let out := store out (index + 2) b in
    store out (index + 3) a
  else out.

Definition chan (c : Z) (p : Q * Q * Q * Q) : Q :=
  let '(r, g, b, a) := p in
  if c =? 0 then r else if c =? 1 then g else if c =? 2 then b else a.

Definition raster (w : Z) (cond : Z -> Z -> bool) (px : Z -> Z -> Q * Q * Q * Q)
    (x0 x1 y0 y1 : Z) (out : list Z) : list Z :=
  forRange y0 y1 (fun y out => forRange x0 x1 (fun x out => plot w cond px x y out) out) out.

Definition inRect (x0 x1 y0 y1 x y : Z) : bool :=
  (x0 <=? x) && (x <? x1) && (y0 <=? y) && (y <? y1).

Definition onBorder (image : ImageData) (x y : Z) : bool :=
  (x =? 0) || (x =? width image - 1) || (y =? 0) || (y =? height image - 1).

(** What [pointwise3] leaves at index [j] after the whole loop. *)
Definition pointwise3_result (f : Z -> Z -> Q) (d : list Z) (j : Z) : Z :=
  if j mod 4 =? 3 then rd d j else toUint8Clamp (f (4 * (j / 4)) (rd d j)).

(** The [noise] drawn for the pixel whose first byte is at index [i]. *)
Definition noiseAt `{JSMath} (params : NoiseParams) (i : Z) : Q :=
  ((Math_random (Z.to_nat (i / 4)) - (1 # 2)) * amount params * 2)%Q.

(** ** Sample inputs *)

(** One pixel. *)
Definition samplePixel : ImageData := mkImageData 1 1 [10; 255; 0; 77].

(** Two pixels in a row, the second one transparent. *)
Definition sampleRow : ImageData := mkImageData 2 1 [10; 20; 30; 255; 200; 50; 60; 0].

(** Two rows of two pixels. *)
Definition sampleSquare : ImageData :=
  mkImageData 2 2 [0; 1; 2; 3; 0; 1; 2; 3; 0; 1; 2; 3; 1; 2; 3; 5].

(** The four bytes that the edge loop of Emboss writes at [(x, y)]. *)
Definition edgePx (image : ImageData) (x y : Z) : Q * Q * Q * Q :=
  let index := (y * width image + x) * 4 in
  (inject_Z (rd (data image) index),
   inject_Z (rd (data image) (index + 1)),
   inject_Z (rd (data image) (index + 2)),
   inject_Z (rd (data image) (index + 3))).

(** The four bytes that the convolution loop of Emboss writes at [(x, y)]. *)
Definition embossPx (image : ImageData) (params : EmbossParams) (x y : Z)
    : Q * Q * Q * Q :=
  let '(r, g, b) := embossSums image params x y in
  let offset := 128%Q in
  let r := Z.max 0 (Z.min 255 (Math_round (r + offset))) in
  let g := Z.max 0 (Z.min 255 (Math_round (g + offset))) in
  let b := Z.max 0 (Z.min 255 (Math_round (b + offset))) in
  let gray := Math_round (inject_Z (r + g + b) / 3) in
  let colorBlend := Math_min 1 (strength params * (3 # 10)) in
  let blend (c : Z) : Q :=
    inject_Z (Math_round (inject_Z gray * (1 - colorBlend) + inject_Z c * colorBlend)) in
  (blend r, blend g, blend b,
   inject_Z (rd (data image) ((y * width image + x) * 4 + 3))).

(** The four bytes that the loop of GlassRefraction writes at [(x, y)]. *)
Definition glassPx `{JSMath} (image : ImageData) (params : GlassRefractionParams)
    (x y : Z) : Q * Q * Q * Q :=
  let w := width image in
  let original := data image in
  let intensityFactor := (intensity params / 100)%Q in
  let ampFactor := (amplitude params * intensityFactor)%Q in
  let '(clampedX, clampedY) := glassSource image params x y in
  let sourceIndex := (clampedY * w + clampedX) * 4 in
  let r := rd original sourceIndex in
  let g := rd original (sourceIndex + 1) in
  let b := rd original (sourceIndex + 2) in
  let a := rd original (sourceIndex + 3) in
  let aberrationOffset := Math_floor (ampFactor * (5 # 10)) in
  let shifted := Qltb (3 # 10) intensityFactor && (0 <? aberrationOffset) in
  let redX := Z.max 0 (Z.min (w - 1) (clampedX + aberrationOffset)) in
  let blueX := Z.max 0 (Z.min (w - 1) (clampedX - aberrationOffset)) in
  let r := if shifted then rd original ((clampedY * w + redX) * 4) else r in
  let b := if shifted then rd original ((clampedY * w + blueX) * 4 + 2) else b in
  let factor := brightnessFactor image params x y in
  let shade (c : Z) : Q :=
    inject_Z (Z.max 0 (Z.min 255 (Math_round (inject_Z c * factor)))) in
  (shade r, shade g, shade b, inject_Z a).

Definition sampleGlass : GlassRefractionParams :=
  {| intensity := 50; frequency := 10; amplitude := 50; direction := 180 |}.


(** Every pixel of the image is pure white: R = G = B = 255. *)
Definition all_white (image : ImageData) : Prop :=
  forall x y c, 0 <= x < width image -> 0 <= y < height image -> 0 <= c < 3 ->
    rd (data image) ((y * width image + x) * 4 + c) = 255.

Definition sampleWhite : ImageData :=
  mkImageData 2 2
    [255; 255; 255; 255; 255; 255; 255; 0; 255; 255; 255; 9; 255; 255; 255; 255].

Definition sampleHalftone : HalftoneParams :=
  {| shapeType := diamond; dotRadius := 3; angle := 45; colorMode := false |}.

(** The finest lattice of the slider: the spacing is 1.8, so that an image
    of two pixels by two holds the lattice point (0.9, 0.9). *)
Definition sampleHalftoneFine : HalftoneParams :=
  {| shapeType := circle; dotRadius := 1; angle := 45; colorMode := false |}.

(** On a 2x2 buffer: the sum of channel [c] over the four pixels, and its
    mean as [Math.round] leaves it. *)
Definition sum2x2 (d : list Z) (c : Z) : Z :=
  rd d c + rd d (4 + c) + rd d (8 + c) + rd d (12 + c).

Definition mean2x2 (d : list Z) (c : Z) : Z :=
  Math_round (inject_Z (sum2x2 d c) / inject_Z 4).

(** ** Further shapes and samples *)


(** The three colour bytes of every pixel of the image are equal. *)
Definition all_gray (image : ImageData) : Prop :=
  forall x y, 0 <= x < width image -> 0 <= y < height image ->
    rd (data image) ((y * width image + x) * 4 + 1) = rd (data image) ((y * width image + x) * 4) /\
    rd (data image) ((y * width image + x) * 4 + 2) = rd (data image) ((y * width image + x) * 4).

(** The three colour bytes of every pixel of the image are [v]. *)
Definition all_flat (image : ImageData) (v : Z) : Prop :=
  forall x y c, 0 <= x < width image -> 0 <= y < height image -> 0 <= c < 3 ->
    rd (data image) ((y * width image + x) * 4 + c) = v.

(** Three rows of three opaque pixels of the gray level 100. *)
Definition sampleFlat : ImageData :=
  mkImageData 3 3
    [100; 100; 100; 255; 100; 100; 100; 255; 100; 100; 100; 255;
     100; 100; 100; 255; 100; 100; 100; 255; 100; 100; 100; 255;
     100; 100; 100; 255; 100; 100; 100; 255; 100; 100; 100; 255].

(** A command that fills one halftone dot of the lattice of [image]: its
    centre lies inside the image, it is turned by the [angle] parameter,
    and in monochrome mode it is black. *)
Definition lattice_dot (image : ImageData) (params : HalftoneParams)
    (cmd : CanvasCmd) : Prop :=
  match cmd with
  | FillDot x y rotation style crisp path =>
      (0 <= x < inject_Z (width image))%Q /\
      (0 <= y < inject_Z (height image))%Q /\
      rotation = (angle params * Math_PI / 180)%Q /\
      (colorMode params = false -> style = Black)
  | _ => False
  end.

(** Two rows of two black pixels. *)
Definition sampleBlack : ImageData :=
  mkImageData 2 2 [0; 0; 0; 255; 0; 0; 0; 255; 0; 0; 0; 7; 0; 0; 0; 255].

Definition sampleHalftoneColor : HalftoneParams :=
  {| shapeType := circle; dotRadius := 2; angle := 0; colorMode := true |}.

(** The four bytes with which the averaging Pixelate fills the tile whose
    top-left pixel is [(x, y)]: the rounded means. ([pixelateImage] of
    [components/CanvasArea.tsx] runs the same loops as
    [Legacy.applyPixelateEffect].) *)
Definition tileMeans (image : ImageData) (pixelSize x y : Z) : Q * Q * Q * Q :=
  let '(r, g, b, a, count) := Legacy.tileSums image pixelSize x y in
  (inject_Z (Math_round (inject_Z r / inject_Z count)),
   inject_Z (Math_round (inject_Z g / inject_Z count)),
   inject_Z (Math_round (inject_Z b / inject_Z count)),
   inject_Z (Math_round (inject_Z a / inject_Z count))).

(** Channel [c] of the sums of a tile. *)
Definition tileSum (c : Z) (sums : Z * Z * Z * Z * Z) : Z :=
  let '(r, g, b, a, count) := sums in
  if c =? 0 then r else if c =? 1 then g else if c =? 2 then b else a.

Definition tileCount (sums : Z * Z * Z * Z * Z) : Z := snd sums.

(** One turn of the summing loop of the averaging Pixelate, at the pixel
    [(px, py)]. *)
Definition tileStep (image : ImageData) (py px : Z) (acc : Z * Z * Z * Z * Z)
    : Z * Z * Z * Z * Z :=
  let '(r, g, b, a, count) := acc in
  let index := (py * width image + px) * 4 in
  (r + rd (data image) index, g + rd (data image) (index + 1),
   b + rd (data image) (index + 2), a + rd (data image) (index + 3), count + 1).

(** The mean of a tile, said without the loops: the sum of [f] over the
    integers of [[lo, hi)], the sum of channel [c] over the pixels of a
    rectangle of the image, the tile of size [pixelSize] that holds a
    coordinate [u] (cut at the edge [n] of the image), and the rounded mean
    of channel [c] over the tile that holds the pixel [(x, y)]. *)
Definition sumZ (lo hi : Z) (f : Z -> Z) : Z :=
  foldr Z.add 0 (f <$> seqZ lo (hi - lo)).

Definition tileTotal (image : ImageData) (c x0 x1 y0 y1 : Z) : Z :=
  sumZ y0 y1 (fun py =>
    sumZ x0 x1 (fun px => rd (data image) ((py * width image + px) * 4 + c))).

Definition tileStart (pixelSize u : Z) : Z := u / pixelSize * pixelSize.

Definition tileEnd (pixelSize u n : Z) : Z := Z.min (tileStart pixelSize u + pixelSize) n.

Definition tileMean (image : ImageData) (pixelSize x y c : Z) : Z :=
  let x0 := tileStart pixelSize x in
  let x1 := tileEnd pixelSize x (width image) in
  let y0 := tileStart pixelSize y in
  let y1 := tileEnd pixelSize y (height image) in
  Math_round (inject_Z (tileTotal image c x0 x1 y0 y1)
              / inject_Z ((x1 - x0) * (y1 - y0))).

(** ** Vintage, pixel by pixel *)

(** The number that the sepia step stores in channel [c] of a pixel
    [(r, g, b)]. *)
Definition sepiaTone (params : VintageParams) (r g b : Z) (c : Z) : Q :=
  let r := inject_Z r in
  let g := inject_Z g in
  let b := inject_Z b in
  let tr := ((393 # 1000) * r + (769 # 1000) * g + (189 # 1000) * b)%Q in
  let tg := ((349 # 1000) * r + (686 # 1000) * g + (168 # 1000) * b)%Q in
  let tb := ((272 # 1000) * r + (534 # 1000) * g + (131 # 1000) * b)%Q in
  if c =? 0 then Math_min 255 (r + (tr - r) * (sepia params / 100))
  else if c =? 1 then Math_min 255 (g + (tg - g) * (sepia params / 100))
  else Math_min 255 (b + (tb - b) * (sepia params / 100)).

(** The [grain] drawn for the pixel whose first byte is at index [i]. *)
Definition grainAt `{JSMath} (params : VintageParams) (i : Z) : Q :=
  ((Math_random (Z.to_nat (i / 4)) - (1 # 2)) * grain params)%Q.

(** What the loop of [applyVintageEffect] leaves at index [j]. *)
Definition vintageResult `{JSMath} (params : VintageParams) (d : list Z) (j : Z) : Z :=
  if j mod 4 =? 3 then rd d j
  else
    let i := 4 * (j / 4) in
    let toned :=
      toUint8Clamp (sepiaTone params (rd d i) (rd d (i + 1)) (rd d (i + 2)) (j mod 4)) in
    toUint8Clamp (Math_max 0 (Math_min 255 (inject_Z toned + grainAt params i))).

(** The [imageData] that [applyVintageEffect] puts back. *)
Definition vintageData `{JSMath} (image : ImageData) (params : VintageParams)
    : ImageData :=
  mkImageData (width image) (height image)
    (forStride 0 (Z.of_nat (length (data image))) 4 (vintageBody params)
       (data image)).

(** ** Glass refraction, channel by channel *)

(** The column that channel [c] of the output pixel [(x, y)] is read from:
    [clampedX], or [redX] and [blueX] when the channels are shifted. *)
Definition glassTap `{JSMath} (image : ImageData) (params : GlassRefractionParams)
    (x y c : Z) : Z :=
  let w := width image in
  let intensityFactor := (intensity params / 100)%Q in
  let ampFactor := (amplitude params * intensityFactor)%Q in
  let clampedX := fst (glassSource image params x y) in
  let aberrationOffset := Math_floor (ampFactor * (5 # 10)) in
  let shifted := Qltb (3 # 10) intensityFactor && (0 <? aberrationOffset) in
  if shifted && (c =? 0) then Z.max 0 (Z.min (w - 1) (clampedX + aberrationOffset))
  else if shifted && (c =? 2) then Z.max 0 (Z.min (w - 1) (clampedX - aberrationOffset))
  else clampedX.

(** Every colour byte of the image is 0. *)
Definition all_black (image : ImageData) : Prop :=
  forall j, j mod 4 <> 3 -> rd (data image) j = 0.

(** ** The size of the canvas (applyEffect)

    The part of [applyEffect], in the current revision, that runs before
    anything is drawn: the guard on the dimensions of the image and the
    scaling to [MAX_DIMENSION].
    [None] is the early [return]; otherwise the pair is the [width] and
    [height] given to the canvas and to the image that the effect
    processes. *)
Definition MAX_DIMENSION : Z := 1200.

Definition applyEffect_size (originalWidth originalHeight : Z) : option (Z * Z) :=
  if (originalWidth <=? 0) || (originalHeight <=? 0) then None
  else
    let width := originalWidth in
    let height := originalHeight in
    if (MAX_DIMENSION <? width) || (MAX_DIMENSION <? height) then
      let scale := Math_min (inject_Z MAX_DIMENSION / inject_Z width)
                            (inject_Z MAX_DIMENSION / inject_Z height) in
      Some (Math_round (inject_Z width * scale), Math_round (inject_Z height * scale))
    else Some (width, height).


(** * Properties *)

(** ** Numbers *)

Lemma Qle_bool_true (x y : Q) : Qle_bool x y = true <-> (x <= y)%Q.
Proof. apply Qle_bool_iff. Qed.

Lemma Qle_bool_false (x y : Q) : Qle_bool x y = false <-> (y < x)%Q.
Proof.
  split; intros H.
  - apply Qnot_le_lt. intros Hle. apply Qle_bool_iff in Hle. congruence.
  - destruct (Qle_bool x y) eqn:E; [|done].
    apply Qle_bool_iff in E. lra.
Qed.

Lemma Qltb_true (x y : Q) : Qltb x y = true <-> (x < y)%Q.
Proof.
  unfold Qltb. rewrite negb_true_iff. apply Qle_bool_false.
Qed.

Lemma Qltb_false (x y : Q) : Qltb x y = false <-> (y <= x)%Q.
Proof.
  unfold Qltb. rewrite negb_false_iff. apply Qle_bool_true.
Qed.

Ltac qcases :=
  repeat match goal with
  | |- context [Qle_bool ?x ?y] =>
      lazymatch x with context [Qle_bool _ _] => fail | _ => idtac end;
      lazymatch y with context [Qle_bool _ _] => fail | _ => idtac end;
      let E := fresh "E" in
      destruct (Qle_bool x y) eqn:E;
      [apply Qle_bool_true in E | apply Qle_bool_false in E]
  | |- context [Qltb ?x ?y] =>
      let E := fresh "E" in
      destruct (Qltb x y) eqn:E;
      [apply Qltb_true in E | apply Qltb_false in E]
  end.

Ltac zcases :=
  repeat match goal with
  | |- context [Z.eqb ?a ?b] => destruct (Z.eqb_spec a b); try lia
  | |- context [Z.ltb ?a ?b] => destruct (Z.ltb_spec a b); try lia
  | |- context [Z.leb ?a ?b] => destruct (Z.leb_spec a b); try lia
  end.

Lemma inject_Z_succ (z : Z) : (inject_Z (z + 1) == inject_Z z + 1)%Q.
Proof. rewrite inject_Z_plus. reflexivity. Qed.

Lemma Qfloor_unique (q : Q) (z : Z) :
  (inject_Z z <= q)%Q -> (q < inject_Z z + 1)%Q -> Qfloor q = z.
Proof.
  intros Hlo Hhi.
  pose proof (Qfloor_le q) as H1. pose proof (Qlt_floor q) as H2.
  rewrite inject_Z_succ in H2.
  assert (Hz1 : (inject_Z (Qfloor q) < inject_Z (z + 1))%Q)
    by (rewrite inject_Z_succ; lra).
  assert (Hz2 : (inject_Z z < inject_Z (Qfloor q + 1))%Q)
    by (rewrite inject_Z_succ; lra).
  rewrite <- Zlt_Qlt in Hz1, Hz2. lia.
Qed.

Lemma Math_round_inject (z : Z) : Math_round (inject_Z z) = z.
Proof. apply Qfloor_unique; lra. Qed.

Lemma Math_round_comp (x y : Q) : (x == y)%Q -> Math_round x = Math_round y.
Proof. intros E. unfold Math_round. apply Qfloor_comp. rewrite E. reflexivity. Qed.

(** [Math.round(s / n)] on integers: the quotient rounded half up. *)
Lemma Math_round_div (s n : Z) :
  0 < n -> Math_round (inject_Z s / inject_Z n) = (2 * s + n) / (2 * n).
Proof.
  intros Hn. unfold Math_round.
  set (m := (2 * s + n) / (2 * n)).
  assert (Hq : (0 < inject_Z n)%Q) by (change 0%Q with (inject_Z 0); rewrite <- Zlt_Qlt; lia).
  pose proof (Z.div_mod (2 * s + n) (2 * n) ltac:(lia)) as Hdm.
  pose proof (Z.mod_pos_bound (2 * s + n) (2 * n) ltac:(lia)) as Hmb.
  fold m in Hdm.
  set (r := (2 * s + n) mod (2 * n)) in *.
  assert (E : (inject_Z s / inject_Z n + (1 # 2) ==
               inject_Z m + inject_Z r / (2 * inject_Z n))%Q).
  { assert (Es : (2 * inject_Z s + inject_Z n == 2 * inject_Z n * inject_Z m + inject_Z r)%Q).
    { change 2%Q with (inject_Z 2).
      rewrite <- !inject_Z_mult, <- !inject_Z_plus. rewrite Hdm. reflexivity. }
    field_simplify_eq; [|lra]. lra. }
  apply Qfloor_unique; rewrite E.
  - assert (0 <= inject_Z r / (2 * inject_Z n))%Q; [|lra].
    apply Qle_shift_div_l; [lra|].
    change 0%Q with (inject_Z 0) at 1. rewrite Qmult_0_l. change 0%Q with (inject_Z 0).
    rewrite <- Zle_Qle. lia.
  - assert (inject_Z r / (2 * inject_Z n) < 1)%Q; [|lra].
    apply Qlt_shift_div_r; [lra|].
    change 2%Q with (inject_Z 2). rewrite <- inject_Z_mult.
    rewrite Qmult_1_l. rewrite <- Zlt_Qlt. lia.
Qed.

Lemma toUint8Clamp_byte (x : Q) : is_byte (toUint8Clamp x).
Proof.
  unfold toUint8Clamp, is_byte.
  destruct (Qle_bool x 0) eqn:E0; [lia|].
  destruct (Qle_bool 255 x) eqn:E1; [lia|].
  apply Qle_bool_false in E0, E1.
  pose proof (Qfloor_le x) as H1. pose proof (Qlt_floor x) as H2.
  assert (Hlo : 0 <= Qfloor x).
  { assert (inject_Z (-1) < inject_Z (Qfloor x))%Q.
    { rewrite inject_Z_succ in H2. change (inject_Z (-1)) with (-1)%Q. lra. }
    rewrite <- Zlt_Qlt in H. lia. }
  assert (Hhi : Qfloor x <= 254).
  { assert (inject_Z (Qfloor x) < inject_Z 255)%Q.
    { change (inject_Z 255) with 255%Q. lra. }
    rewrite <- Zlt_Qlt in H. lia. }
  repeat match goal with |- context [if ?b then _ else _] => destruct b end; lia.
Qed.

Lemma toUint8Clamp_inject (z : Z) : is_byte z -> toUint8Clamp (inject_Z z) = z.
Proof.
  unfold is_byte, toUint8Clamp. intros Hz.
  destruct (Qle_bool (inject_Z z) 0) eqn:E0.
  { apply Qle_bool_true in E0. change 0%Q with (inject_Z 0) in E0.
    rewrite <- Zle_Qle in E0. lia. }
  destruct (Qle_bool 255 (inject_Z z)) eqn:E1.
  { apply Qle_bool_true in E1. change 255%Q with (inject_Z 255) in E1.
    rewrite <- Zle_Qle in E1. lia. }
  rewrite Qfloor_Z.
  destruct (Qltb (inject_Z z + (1 # 2)) (inject_Z z)) eqn:E2.
  { apply Qltb_true in E2. lra. }
  destruct (Qltb (inject_Z z) (inject_Z z + (1 # 2))) eqn:E3; [done|].
  apply Qltb_false in E3. lra.
Qed.

(** A stored number lands between the integers that bound it. *)
Lemma toUint8Clamp_between (x : Q) (a b : Z) :
  is_byte a -> is_byte b -> (inject_Z a <= x <= inject_Z b)%Q ->
  a <= toUint8Clamp x <= b.
Proof.
  unfold is_byte. intros Ha Hb [Hax Hxb].
  assert (H0 : (0 <= inject_Z a)%Q)
    by (change 0%Q with (inject_Z 0); rewrite <- Zle_Qle; lia).
  assert (H255 : (inject_Z b <= 255)%Q)
    by (change 255%Q with (inject_Z 255); rewrite <- Zle_Qle; lia).
  unfold toUint8Clamp.
  destruct (Qle_bool x 0) eqn:E0.
  { apply Qle_bool_true in E0.
    assert (inject_Z a <= inject_Z 0)%Q by (change (inject_Z 0) with 0%Q; lra).
    rewrite <- Zle_Qle in H. lia. }
  destruct (Qle_bool 255 x) eqn:E1.
  { apply Qle_bool_true in E1.
    assert (inject_Z 255 <= inject_Z b)%Q by (change (inject_Z 255) with 255%Q; lra).
    rewrite <- Zle_Qle in H. lia. }
  pose proof (Qfloor_le x) as H1. pose proof (Qlt_floor x) as H2.
  rewrite inject_Z_succ in H2.
  assert (Hfa : a <= Qfloor x).
  { assert (inject_Z a < inject_Z (Qfloor x + 1))%Q by (rewrite inject_Z_succ; lra).
    rewrite <- Zlt_Qlt in H. lia. }
  assert (Hfb : Qfloor x <= b).
  { assert (inject_Z (Qfloor x) <= inject_Z b)%Q by lra.
    rewrite <- Zle_Qle in H. done. }
  destruct (Qltb (inject_Z (Qfloor x) + (1 # 2)) x) eqn:E2.
  { apply Qltb_true in E2.
    assert (inject_Z (Qfloor x) < inject_Z b)%Q by lra.
    rewrite <- Zlt_Qlt in H. lia. }
  destruct (Qltb x (inject_Z (Qfloor x) + (1 # 2))) eqn:E3; [lia|].
  apply Qltb_false in E2, E3.
  destruct (Z.even (Qfloor x)); [lia|].
  assert (inject_Z (Qfloor x) < inject_Z b)%Q by lra.
  rewrite <- Zlt_Qlt in H. lia.
Qed.

(** A stored number moves by at most one half, once inside [0,255]. *)
Lemma toUint8Clamp_near (x : Q) :
  (0 <= x <= 255)%Q -> (Qabs (inject_Z (toUint8Clamp x) - x) <= 1 # 2)%Q.
Proof.
  intros [Hlo Hhi]. unfold toUint8Clamp.
  destruct (Qle_bool x 0) eqn:E0.
  { apply Qle_bool_true in E0. apply Qabs_case; intros; change (inject_Z 0) with 0%Q; lra. }
  destruct (Qle_bool 255 x) eqn:E1.
  { apply Qle_bool_true in E1. apply Qabs_case; intros; change (inject_Z 255) with 255%Q; lra. }
  pose proof (Qfloor_le x) as H1. pose proof (Qlt_floor x) as H2.
  rewrite inject_Z_succ in H2.
  destruct (Qltb (inject_Z (Qfloor x) + (1 # 2)) x) eqn:E2.
  { apply Qltb_true in E2. rewrite inject_Z_succ. apply Qabs_case; intros; lra. }
  destruct (Qltb x (inject_Z (Qfloor x) + (1 # 2))) eqn:E3.
  { apply Qltb_true in E3. apply Qabs_case; intros; lra. }
  apply Qltb_false in E2, E3.
  destruct (Z.even (Qfloor x)); [|rewrite inject_Z_succ]; apply Qabs_case; intros; lra.
Qed.

(** ** Arrays *)

Lemma length_wr (d : list Z) (i v : Z) : length (wr d i v) = length d.
Proof. unfold wr. destruct (i <? 0); [done|]. apply length_insert. Qed.

Lemma length_store (d : list Z) (i : Z) (x : Q) : length (store d i x) = length d.
Proof. apply length_wr. Qed.

Lemma rd_outside (d : list Z) (j : Z) :
  ~ 0 <= j < Z.of_nat (length d) -> rd d j = 0.
Proof.
  intros Hj. unfold rd. destruct (Z.ltb_spec j 0); [done|].
  rewrite lookup_ge_None_2 by lia. done.
Qed.

Lemma rd_wr_full (d : list Z) (i j v : Z) :
  rd (wr d i v) j =
  if (i =? j) && (0 <=? j) && (j <? Z.of_nat (length d)) then v else rd d j.
Proof.
  destruct (Z.leb_spec 0 j); destruct (Z.ltb_spec j (Z.of_nat (length d)));
    rewrite ?andb_false_r; simpl;
    try (rewrite !rd_outside by (rewrite ?length_wr; lia); done).
  rewrite andb_true_r.
  unfold rd, wr.
  destruct (Z.ltb_spec j 0); [lia|].
  destruct (Z.eqb_spec i j) as [->|Hne].
  - destruct (Z.ltb_spec j 0); [lia|].
    rewrite list_lookup_insert_eq by lia. done.
  - destruct (Z.ltb_spec i 0); [done|].
    rewrite list_lookup_insert_ne by lia. done.
Qed.

Lemma rd_store_full (d : list Z) (i j : Z) (x : Q) :
  rd (store d i x) j =
  if (i =? j) && (0 <=? j) && (j <? Z.of_nat (length d)) then toUint8Clamp x
  else rd d j.
Proof. apply rd_wr_full. Qed.

Lemma rd_wr (d : list Z) (i j v : Z) :
  0 <= j < Z.of_nat (length d) ->
  rd (wr d i v) j = if i =? j then v else rd d j.
Proof. intros Hj. rewrite rd_wr_full. zcases; done. Qed.

Lemma rd_store (d : list Z) (i j : Z) (x : Q) :
  0 <= j < Z.of_nat (length d) ->
  rd (store d i x) j = if i =? j then toUint8Clamp x else rd d j.
Proof. apply rd_wr. Qed.

Lemma rd_byte (d : list Z) (j : Z) : Forall is_byte d -> is_byte (rd d j).
Proof.
  intros Hd. unfold rd. destruct (j <? 0); [unfold is_byte; lia|].
  destruct (d !! Z.to_nat j) as [v|] eqn:E; simpl; [|unfold is_byte; lia].
  eapply Forall_lookup_1; eauto.
Qed.

Lemma rd_replicate (n : nat) (j : Z) : rd (replicate n 0) j = 0.
Proof.
  unfold rd. destruct (j <? 0); [done|].
  destruct (replicate n 0 !! Z.to_nat j) as [v|] eqn:E; [|done].
  apply lookup_replicate in E as [-> _]. done.
Qed.

(** Two arrays of the same length with the same reads are the same. *)
Lemma rd_ext (d1 d2 : list Z) :
  length d1 = length d2 ->
  (forall j, 0 <= j < Z.of_nat (length d1) -> rd d1 j = rd d2 j) ->
  d1 = d2.
Proof.
  intros Hlen Hrd. apply list_eq_same_length with (length d1); [done|done|].
  intros i x y Hi Hx Hy.
  specialize (Hrd (Z.of_nat i) ltac:(lia)).
  unfold rd in Hrd. destruct (Z.ltb_spec (Z.of_nat i) 0); [lia|].
  rewrite Nat2Z.id, Hx, Hy in Hrd. done.
Qed.

(** ** Loops *)

Section Loops.
Context {S : Type}.
Implicit Types (body : Z -> S -> S) (s : S).

Lemma forRange_nil lo hi body s : hi <= lo -> forRange lo hi body s = s.
Proof. intros H. unfold forRange. rewrite seqZ_nil by lia. done. Qed.

Lemma forRange_cons lo hi body s :
  lo < hi -> forRange lo hi body s = forRange (lo + 1) hi body (body lo s).
Proof.
  intros H. unfold forRange. rewrite seqZ_cons by lia. simpl.
  do 2 f_equal; lia.
Qed.

Lemma forRange_snoc lo hi body s :
  lo <= hi -> forRange lo (hi + 1) body s = body hi (forRange lo hi body s).
Proof.
  intros H. unfold forRange.
  replace (hi + 1 - lo) with ((hi - lo) + 1) by lia.
  rewrite seqZ_app by lia. rewrite foldl_app.
  rewrite (seqZ_cons _ 1) by lia. rewrite (seqZ_nil _ (Z.pred 1)) by lia. simpl.
  f_equal. lia.
Qed.

(** The loop rule: an invariant indexed by the counter. *)
Lemma forRange_ind (I : Z -> S -> Prop) lo hi body s :
  lo <= hi ->
  I lo s ->
  (forall i s, lo <= i < hi -> I i s -> I (i + 1) (body i s)) ->
  I hi (forRange lo hi body s).
Proof.
  intros Hle H0 Hstep.
  assert (Hgen : forall n : nat, lo + Z.of_nat n <= hi ->
                 I (lo + Z.of_nat n) (forRange lo (lo + Z.of_nat n) body s)).
  { induction n as [|n IH]; intros Hn.
    - rewrite Z.add_0_r. rewrite forRange_nil by lia. done.
    - replace (lo + Z.of_nat (Datatypes.S n)) with ((lo + Z.of_nat n) + 1) by lia.
      rewrite forRange_snoc by lia. apply Hstep; [lia|]. apply IH. lia. }
  specialize (Hgen (Z.to_nat (hi - lo))).
  replace (lo + Z.of_nat (Z.to_nat (hi - lo))) with hi in Hgen by lia.
  apply Hgen. lia.
Qed.

Lemma forRange_ext lo hi body1 body2 s :
  (forall i s, lo <= i < hi -> body1 i s = body2 i s) ->
  forRange lo hi body1 s = forRange lo hi body2 s.
Proof.
  intros Hext. destruct (Z.le_gt_cases lo hi) as [Hle|Hgt].
  - apply (forRange_ind (fun i t => t = forRange lo i body2 s)); [done| |].
    + rewrite forRange_nil by lia. done.
    + intros i t Hi ->. rewrite forRange_snoc by lia. apply Hext. done.
  - rewrite !forRange_nil by lia. done.
Qed.

(** A terminating [forLoop] with unit step is a [forRange]. *)
Lemma forLoop_finish fuel i limit step (body : Z -> S -> option S) s :
  limit <= i -> forLoop (Datatypes.S fuel) i limit step body s = Some s.
Proof. intros H. simpl. destruct (Z.ltb_spec i limit); [lia|done]. Qed.

Lemma forLoop_step fuel i limit step (body : Z -> S -> option S) s s' :
  i < limit -> body i s = Some s' ->
  forLoop (Datatypes.S fuel) i limit step body s =
  forLoop fuel (i + step) limit step body s'.
Proof.
  intros H Hb. simpl. destruct (Z.ltb_spec i limit); [|lia]. rewrite Hb. done.
Qed.
End Loops.

(** ** Loops over the pixels of an array *)

Lemma length_pointwise3 f i d : length (pointwise3 f i d) = length d.
Proof. unfold pointwise3. rewrite !length_store. done. Qed.

Lemma rd_pointwise3 f k d j :
  0 <= k -> 0 <= j < Z.of_nat (length d) ->
  rd (pointwise3 f (0 + k * 4) d) j =
  if (4 * k <=? j) && (j <? 4 * (k + 1)) then pointwise3_result f d j else rd d j.
Proof.
  intros Hk Hj. unfold pointwise3, pointwise3_result.
  rewrite !rd_store_full, !length_store.
  assert (Hdm : j = 4 * (j / 4) + j mod 4 /\ 0 <= j mod 4 < 4).
  { split; [apply Z.div_mod; lia | apply Z.mod_pos_bound; lia]. }
  destruct Hdm as [Hd Hm].
  zcases; simpl; try done; try (exfalso; lia);
    subst j; repeat f_equal; lia.
Qed.

(** The in-place pixel loop rewrites every colour byte from its own old
    value and leaves every fourth byte alone. *)
Lemma forStride_pointwise3 (f : Z -> Z -> Q) (d : list Z) :
  let out := forStride 0 (Z.of_nat (length d)) 4 (pointwise3 f) d in
  length out = length d /\
  forall j, 0 <= j < Z.of_nat (length d) -> rd out j = pointwise3_result f d j.
Proof.
  set (len := Z.of_nat (length d)).
  unfold forStride.
  set (n := (len - 0 + 4 - 1) / 4).
  assert (Hn : 0 <= n) by (apply Z.div_pos; lia).
  assert (Hcover : len <= 4 * n).
  { pose proof (Z.div_mod (len - 0 + 4 - 1) 4 ltac:(lia)).
    pose proof (Z.mod_pos_bound (len - 0 + 4 - 1) 4 ltac:(lia)). lia. }
  pose (I := fun (k : Z) (s : list Z) =>
    length s = length d /\
    forall j, 0 <= j < len ->
      rd s j = if j <? 4 * k then pointwise3_result f d j else rd d j).
  assert (HI : I n (forRange 0 n (fun k => pointwise3 f (0 + k * 4)) d)).
  { apply forRange_ind; [done| |].
    - split; [done|]. intros j Hj. destruct (Z.ltb_spec j (4 * 0)); [lia|done].
    - intros k s Hk [Hlen Hrd]. split.
      + rewrite length_pointwise3. done.
      + intros j Hj. rewrite rd_pointwise3 by (rewrite ?Hlen; lia).
        rewrite (Hrd j Hj).
        destruct (Z.leb_spec (4 * k) j); destruct (Z.ltb_spec j (4 * (k + 1)));
          destruct (Z.ltb_spec j (4 * k)); simpl; try lia; try done.
        unfold pointwise3_result.
        destruct (j mod 4 =? 3) eqn:E.
        * rewrite (Hrd j Hj). destruct (Z.ltb_spec j (4 * k)); [lia|done].
        * rewrite (Hrd j Hj). destruct (Z.ltb_spec j (4 * k)); [lia|done]. }
  destruct HI as [Hlen Hrd]. split; [done|].
  intros j Hj. rewrite (Hrd j Hj). destruct (Z.ltb_spec j (4 * n)); [done|lia].
Qed.

(** ** Posterize *)

Lemma Math_round_between (x : Q) (a b : Z) :
  (inject_Z a <= x <= inject_Z b)%Q -> a <= Math_round x <= b.
Proof.
  intros [Hlo Hhi]. unfold Math_round.
  pose proof (Qfloor_le (x + (1 # 2))) as H1.
  pose proof (Qlt_floor (x + (1 # 2))) as H2.
  rewrite inject_Z_succ in H2.
  split.
  - assert (inject_Z a < inject_Z (Qfloor (x + (1 # 2)) + 1))%Q
      by (rewrite inject_Z_succ; lra).
    rewrite <- Zlt_Qlt in H. lia.
  - assert (inject_Z (Qfloor (x + (1 # 2))) < inject_Z (b + 1))%Q
      by (rewrite inject_Z_succ; lra).
    rewrite <- Zlt_Qlt in H. lia.
Qed.

Lemma Math_round_mono (x y : Q) : (x <= y)%Q -> Math_round x <= Math_round y.
Proof. intros H. unfold Math_round. apply Qfloor_resp_le. lra. Qed.

Lemma posterizeLevels_ge (params : PosterizeParams) : 2 <= posterizeLevels params.
Proof. unfold posterizeLevels. lia. Qed.

Lemma length_quantLevels (n : Z) : length (quantLevels n) = Z.to_nat n.
Proof. unfold quantLevels. rewrite length_fmap, length_seqZ. done. Qed.

Lemma lookup_quantLevels (n i : Z) :
  0 <= i < n ->
  quantLevels n !! Z.to_nat i =
  Some (Math_round (inject_Z i / inject_Z (n - 1) * 255)).
Proof.
  intros Hi. unfold quantLevels. rewrite list_lookup_fmap.
  rewrite lookup_seqZ_lt by lia. simpl. do 3 f_equal. rewrite Z2Nat.id by lia. done.
Qed.

Lemma anchor_fraction (n i : Z) :
  2 <= n -> 0 <= i < n -> (0 <= inject_Z i / inject_Z (n - 1) <= 1)%Q.
Proof.
  intros Hn Hi.
  assert (Hd : (0 < inject_Z (n - 1))%Q)
    by (change 0%Q with (inject_Z 0); rewrite <- Zlt_Qlt; lia).
  split.
  - apply Qle_shift_div_l; [done|]. rewrite Qmult_0_l.
    change 0%Q with (inject_Z 0). rewrite <- Zle_Qle. lia.
  - apply Qle_shift_div_r; [done|]. rewrite Qmult_1_l. rewrite <- Zle_Qle. lia.
Qed.

Lemma quantLevels_bytes (n : Z) : 2 <= n -> Forall is_byte (quantLevels n).
Proof.
  intros Hn. unfold quantLevels. rewrite Forall_fmap. apply Forall_seqZ.
  intros i Hi. simpl. unfold is_byte.
  pose proof (anchor_fraction n i Hn ltac:(lia)) as [H0 H1].
  apply Math_round_between. change (inject_Z 0) with 0%Q.
  change (inject_Z 255) with 255%Q. lra.
Qed.

Lemma quantLevels_ascending (n i j : Z) (a b : Z) :
  2 <= n -> 0 <= i -> i <= j -> j < n ->
  quantLevels n !! Z.to_nat i = Some a -> quantLevels n !! Z.to_nat j = Some b ->
  a <= b.
Proof.
  intros Hn Hi Hij Hj Ha Hb.
  rewrite lookup_quantLevels in Ha, Hb by lia.
  injection Ha as <-. injection Hb as <-.
  apply Math_round_mono.
  assert (Hd : (0 < inject_Z (n - 1))%Q)
    by (change 0%Q with (inject_Z 0); rewrite <- Zlt_Qlt; lia).
  assert (Hle : (inject_Z i <= inject_Z j)%Q) by (rewrite <- Zle_Qle; done).
  assert (Hq : (inject_Z i / inject_Z (n - 1) <= inject_Z j / inject_Z (n - 1))%Q).
  { apply Qle_shift_div_l; [done|].
    unfold Qdiv. rewrite <- Qmult_assoc, (Qmult_comm (/ _)), Qmult_inv_r by lra. lra. }
  lra.
Qed.

(** The anchors computed in binary64, as the source computes them, are the
    anchors of the rational formula. *)
Lemma quantLevels_f64_agree (n : Z) :
  2 <= n <= 256 -> quantLevels_f64 n = quantLevels n.
Proof.
  intros Hn.
  assert (H : Forall (fun n => quantLevels_f64 n = quantLevels n) (seqZ 2 255)).
  { apply (bool_decide_unpack _). vm_compute. exact I. }
  rewrite Forall_seqZ in H. apply H. lia.
Qed.

Section Quantize.
Variable value : Z.

Lemma quantize_fold_snd (l : list Z) (st : Z * Z) :
  snd st = Z.abs (value - fst st) ->
  snd (foldl (quantizeStep value) st l) =
  Z.abs (value - fst (foldl (quantizeStep value) st l)).
Proof.
  revert st. induction l as [|q l IH]; intros st Hst; simpl; [done|].
  apply IH. unfold quantizeStep. destruct (Z.ltb_spec (Z.abs (value - q)) (snd st)); done.
Qed.

Lemma quantize_snoc (a0 : Z) (l : list Z) (x : Z) :
  quantize (a0 :: l ++ [x]) value =
  if Z.abs (value - x) <? Z.abs (value - quantize (a0 :: l) value)
  then x else quantize (a0 :: l) value.
Proof.
  unfold quantize. simpl. rewrite foldl_app. simpl.
  set (st := foldl (quantizeStep value) (a0, Z.abs (value - a0)) l).
  assert (Hst : snd st = Z.abs (value - fst st))
    by (apply quantize_fold_snd; done).
  unfold quantizeStep. rewrite Hst.
  destruct (Z.ltb_spec (Z.abs (value - x)) (Z.abs (value - fst st))); done.
Qed.

(** [quantize] returns the first of the anchors nearest to [value]. *)
Lemma quantize_first_nearest (a0 : Z) (l : list Z) :
  exists k : nat,
    (a0 :: l) !! k = Some (quantize (a0 :: l) value) /\
    (forall (j : nat) (a : Z), (a0 :: l) !! j = Some a ->
       Z.abs (value - quantize (a0 :: l) value) <= Z.abs (value - a)) /\
    (forall (j : nat) (a : Z), (j < k)%nat -> (a0 :: l) !! j = Some a ->
       Z.abs (value - quantize (a0 :: l) value) < Z.abs (value - a)).
Proof.
  induction l as [|x l IH] using rev_ind.
  - exists 0%nat. unfold quantize. simpl. split; [done|]. split.
    + intros [|j] a Ha; simpl in Ha; [|done]. injection Ha as <-. lia.
    + intros j a Hj. lia.
  - destruct IH as (k & Hk & Hmin & Hfirst).
    rewrite quantize_snoc.
    change (a0 :: l ++ [x]) with ((a0 :: l) ++ [x]).
    pose proof (lookup_lt_Some _ _ _ Hk) as Hklen.
    destruct (Z.ltb_spec (Z.abs (value - x)) (Z.abs (value - quantize (a0 :: l) value)))
      as [Hlt|Hge].
    + exists (length (a0 :: l)). split; [|split].
      * rewrite lookup_app_r by lia. rewrite Nat.sub_diag. done.
      * intros j a Ha. apply lookup_app_Some in Ha as [Ha|[_ Ha]].
        -- specialize (Hmin j a Ha). lia.
        -- destruct (j - length (a0 :: l))%nat; simpl in Ha; [|done].
           injection Ha as <-. lia.
      * intros j a Hj Ha. rewrite lookup_app_l in Ha by done.
        specialize (Hmin j a Ha). lia.
    + exists k. split; [|split].
      * rewrite lookup_app_l by done. done.
      * intros j a Ha. apply lookup_app_Some in Ha as [Ha|[_ Ha]].
        -- apply (Hmin j a Ha).
        -- destruct (j - length (a0 :: l))%nat; simpl in Ha; [|done].
           injection Ha as <-. lia.
      * intros j a Hj Ha. rewrite lookup_app_l in Ha by lia.
        apply (Hfirst j a Hj Ha).
Qed.

Lemma quantize_elem (anchors : list Z) :
  anchors <> [] -> quantize anchors value ∈ anchors.
Proof.
  destruct anchors as [|a0 l]; [done|]. intros _.
  destruct (quantize_first_nearest a0 l) as (k & Hk & _).
  apply list_elem_of_lookup. eauto.
Qed.

Lemma quantize_nearest (anchors : list Z) (a : Z) :
  a ∈ anchors -> Z.abs (value - quantize anchors value) <= Z.abs (value - a).
Proof.
  destruct anchors as [|a0 l]; [intros H; inversion H|].
  intros Ha. apply list_elem_of_lookup in Ha as [j Hj].
  destruct (quantize_first_nearest a0 l) as (k & _ & Hmin & _).
  apply (Hmin j a Hj).
Qed.
End Quantize.

Lemma quantize_anchor (anchors : list Z) (a : Z) :
  a ∈ anchors -> quantize anchors a = a.
Proof.
  intros Ha. pose proof (quantize_nearest a anchors a Ha) as H.
  lia.
Qed.

Lemma quantize_idempotent (anchors : list Z) (x : Z) :
  quantize anchors (quantize anchors x) = quantize anchors x.
Proof.
  destruct anchors as [|a0 l]; [done|].
  apply quantize_anchor. apply quantize_elem. done.
Qed.

Lemma quantLevels_nonempty (n : Z) : 2 <= n -> quantLevels n <> [].
Proof.
  intros Hn E. apply (f_equal length) in E.
  rewrite length_quantLevels in E. simpl in E. lia.
Qed.

Lemma quantize_byte (n v : Z) : 2 <= n -> is_byte (quantize (quantLevels n) v).
Proof.
  intros Hn. pose proof (quantLevels_bytes n Hn) as Hb.
  rewrite Forall_forall in Hb. apply Hb. apply quantize_elem.
  apply quantLevels_nonempty. done.
Qed.

(** What the posterize loop leaves in the array. *)
Lemma posterizeData_rd (image : ImageData) (params : PosterizeParams) (j : Z) :
  0 <= j < Z.of_nat (length (data image)) ->
  rd (data (posterizeData image params)) j =
  if j mod 4 =? 3 then rd (data image) j
  else quantize (quantLevels (posterizeLevels params)) (rd (data image) j).
Proof.
  intros Hj. unfold posterizeData. simpl.
  change (posterizeBody (quantLevels (posterizeLevels params)))
    with (pointwise3 (fun _ v => inject_Z (quantize (quantLevels (posterizeLevels params)) v))).
  destruct (forStride_pointwise3
              (fun _ v => inject_Z (quantize (quantLevels (posterizeLevels params)) v))
              (data image)) as [_ Hrd].
  rewrite (Hrd j Hj). unfold pointwise3_result.
  destruct (j mod 4 =? 3); [done|].
  apply toUint8Clamp_inject. apply quantize_byte. apply posterizeLevels_ge.
Qed.

Lemma posterizeData_length (image : ImageData) (params : PosterizeParams) :
  length (data (posterizeData image params)) = length (data image).
Proof.
  unfold posterizeData. simpl.
  change (posterizeBody (quantLevels (posterizeLevels params)))
    with (pointwise3 (fun _ v => inject_Z (quantize (quantLevels (posterizeLevels params)) v))).
  apply forStride_pointwise3.
Qed.

Lemma posterizeLevels_integer (m : Z) :
  2 <= m -> posterizeLevels {| levels := inject_Z m |} = m.
Proof.
  intros Hm. unfold posterizeLevels, Math_floor. cbn [levels]. rewrite Qfloor_Z. lia.
Qed.

(** C4. Posterize builds the anchors [round(255 i / (levels - 1))] for
    [0 <= i < levels], in ascending order, where [levels] is the parameter
    floored and raised to 2 (an integer parameter of at least 2 is kept as
    it is); the binary64 evaluation of the source gives the same anchors up
    to 256 levels. [quantize] returns an anchor that is nearest to the
    sample and, among the nearest, the first of the array. Every R, G and B
    byte of the output is [quantize] of the input byte and every alpha byte
    is the input's. For two levels the anchors are 0 and 255 and the
    sample 128 maps to 255. *)
Theorem posterize_maps_to_nearest_anchor (image : ImageData) (params : PosterizeParams) :
  (forall m, 2 <= m -> posterizeLevels {| levels := inject_Z m |} = m) /\
  length (quantLevels (posterizeLevels params)) = Z.to_nat (posterizeLevels params) /\
  (forall i, 0 <= i < posterizeLevels params ->
     quantLevels (posterizeLevels params) !! Z.to_nat i =
     Some (Math_round (255 * inject_Z i / inject_Z (posterizeLevels params - 1)))) /\
  (forall i j a b, 0 <= i -> i <= j -> j < posterizeLevels params ->
     quantLevels (posterizeLevels params) !! Z.to_nat i = Some a ->
     quantLevels (posterizeLevels params) !! Z.to_nat j = Some b -> a <= b) /\
  (posterizeLevels params <= 256 ->
     quantLevels_f64 (posterizeLevels params) = quantLevels (posterizeLevels params)) /\
  (forall v, exists k : nat,
     quantLevels (posterizeLevels params) !! k =
       Some (quantize (quantLevels (posterizeLevels params)) v) /\
     (forall (j : nat) (a : Z), quantLevels (posterizeLevels params) !! j = Some a ->
        Z.abs (v - quantize (quantLevels (posterizeLevels params)) v) <= Z.abs (v - a)) /\
     (forall (j : nat) (a : Z), (j < k)%nat ->
        quantLevels (posterizeLevels params) !! j = Some a ->
        Z.abs (v - quantize (quantLevels (posterizeLevels params)) v) < Z.abs (v - a))) /\
  (forall j, 0 <= j < Z.of_nat (length (data image)) ->
     rd (data (posterizeData image params)) j =
     if j mod 4 =? 3 then rd (data image) j
     else quantize (quantLevels (posterizeLevels params)) (rd (data image) j)) /\
  quantLevels 2 = [0; 255] /\
  quantize (quantLevels 2) 128 = 255.
Proof.
  pose proof (posterizeLevels_ge params) as Hn.
  split; [exact posterizeLevels_integer|].
  split; [apply length_quantLevels|].
  split.
  { intros i Hi. rewrite lookup_quantLevels by done. f_equal.
    apply Math_round_comp. unfold Qdiv. ring. }
  split.
  { intros i j a b Hi Hij Hj. apply quantLevels_ascending; done. }
  split.
  { intros Hle. apply quantLevels_f64_agree. lia. }
  split.
  { intros v.
    destruct (quantLevels (posterizeLevels params)) as [|a0 l] eqn:E.
    - exfalso. revert E. apply quantLevels_nonempty. done.
    - apply quantize_first_nearest. }
  split.
  { intros j Hj. apply posterizeData_rd. done. }
  split; reflexivity.
Qed.

(** C5. [quantize] is idempotent, on [0,255] (and on every integer), and
    every R, G and B byte of a posterized buffer is one of the anchors. *)
Theorem posterize_quantize_idempotent (image : ImageData) (params : PosterizeParams) :
  (forall x, 0 <= x <= 255 ->
     quantize (quantLevels (posterizeLevels params))
       (quantize (quantLevels (posterizeLevels params)) x) =
     quantize (quantLevels (posterizeLevels params)) x) /\
  (forall j, 0 <= j < Z.of_nat (length (data image)) -> j mod 4 <> 3 ->
     exists k : nat,
       quantLevels (posterizeLevels params) !! k =
       Some (rd (data (posterizeData image params)) j)).
Proof.
  split.
  - intros x _. apply quantize_idempotent.
  - intros j Hj Hc. rewrite posterizeData_rd by done.
    destruct (Z.eqb_spec (j mod 4) 3); [done|].
    apply list_elem_of_lookup. apply quantize_elem.
    apply quantLevels_nonempty. apply posterizeLevels_ge.
Qed.

(** ** Noise *)


Lemma Math_clamp_between (x lo hi : Q) :
  (0 <= hi)%Q -> (lo <= 255)%Q -> (lo <= x <= hi)%Q ->
  (lo <= Math_max 0 (Math_min 255 x) <= hi)%Q.
Proof. intros H0 H255 Hx. unfold Math_max, Math_min. qcases; lra. Qed.


Lemma noiseData_rd `{JSMath} (image : ImageData) (params : NoiseParams) (j : Z) :
  0 <= j < Z.of_nat (length (data image)) ->
  rd (data (noiseData image params)) j =
  if j mod 4 =? 3 then rd (data image) j
  else toUint8Clamp
         (Math_max 0 (Math_min 255
            (inject_Z (rd (data image) j) + noiseAt params (4 * (j / 4))))).
Proof.
  intros Hj. unfold noiseData. simpl.
  change (noiseBody params)
    with (pointwise3 (fun i v => Math_max 0 (Math_min 255 (inject_Z v + noiseAt params i)))).
  destruct (forStride_pointwise3
              (fun i v => Math_max 0 (Math_min 255 (inject_Z v + noiseAt params i)))
              (data image)) as [_ Hrd].
  rewrite (Hrd j Hj). done.
Qed.






(** ** Loops over the pixels of a rectangle *)

Lemma pixel_inj (w x y x' y' : Z) :
  0 <= x < w -> 0 <= x' < w -> y * w + x = y' * w + x' -> x = x' /\ y = y'.
Proof.
  intros Hx Hx' E. assert (y = y') by nia. subst. lia.
Qed.

Lemma length_plot w cond px x y s : length (plot w cond px x y s) = length s.
Proof.
  unfold plot. destruct (cond x y); [|done].
  destruct (px x y) as [[[r g] b] a]. rewrite !length_store. done.
Qed.

Lemma rd_plot w cond px x y s x' y' c :
  0 <= x < w -> 0 <= x' < w -> 0 <= c < 4 ->
  0 <= (y' * w + x') * 4 + c < Z.of_nat (length s) ->
  rd (plot w cond px x y s) ((y' * w + x') * 4 + c) =
  if cond x y && (x =? x') && (y =? y') then toUint8Clamp (chan c (px x y))
  else rd s ((y' * w + x') * 4 + c).
Proof.
  intros Hx Hx' Hc Hin. unfold plot, chan.
  destruct (cond x y); [|done]. simpl.
  destruct (px x y) as [[[r g] b] a].
  rewrite !rd_store_full, !length_store.
  destruct (Z.eqb_spec x x') as [->|Hxx].
  - destruct (Z.eqb_spec y y') as [->|Hyy]; simpl.
    + zcases; simpl; try done; exfalso; lia.
    + assert (y * w + x' <> y' * w + x')
        by (intros E; apply pixel_inj in E; lia).
      zcases; simpl; try done; exfalso; lia.
  - simpl.
    assert (y * w + x <> y' * w + x')
      by (intros E; apply pixel_inj in E; lia).
    zcases; simpl; try done; exfalso; lia.
Qed.

(** One row of the rectangle. *)
Lemma rd_raster_row w cond px x0 x1 yy s x y c :
  0 <= x0 -> x1 <= w -> 0 <= x < w -> 0 <= c < 4 ->
  0 <= (y * w + x) * 4 + c < Z.of_nat (length s) ->
  rd (forRange x0 x1 (fun x out => plot w cond px x yy out) s) ((y * w + x) * 4 + c) =
  if (yy =? y) && (x0 <=? x) && (x <? x1) && cond x y
  then toUint8Clamp (chan c (px x y))
  else rd s ((y * w + x) * 4 + c).
Proof.
  intros Hx0 Hx1 Hx Hc Hin.
  destruct (Z.le_gt_cases x0 x1) as [Hle|Hgt].
  2:{ rewrite forRange_nil by lia. zcases; simpl; done. }
  pose (I := fun (i : Z) (t : list Z) =>
    length t = length s /\
    rd t ((y * w + x) * 4 + c) =
      if (yy =? y) && (x0 <=? x) && (x <? i) && cond x y
      then toUint8Clamp (chan c (px x y))
      else rd s ((y * w + x) * 4 + c)).
  assert (HI : I x1 (forRange x0 x1 (fun x out => plot w cond px x yy out) s)).
  { apply forRange_ind; [done| |].
    - split; [done|]. zcases; simpl; done.
    - intros i t Hi [Hlen Hrd]. split; [rewrite length_plot; done|].
      rewrite rd_plot by (rewrite ?Hlen; lia). rewrite Hrd.
      destruct (cond i yy) eqn:Ec; simpl.
      + destruct (Z.eqb_spec i x) as [->|Hix]; simpl.
        * destruct (Z.eqb_spec yy y) as [->|Hyy]; simpl.
          -- rewrite Ec. zcases; simpl; done.
          -- zcases; simpl; done.
        * destruct (cond x y); zcases; simpl; done.
      + destruct (Z.eqb_spec i x) as [->|Hix]; simpl.
        * destruct (Z.eqb_spec yy y) as [->|Hyy]; simpl.
          -- rewrite Ec. zcases; simpl; rewrite ?andb_false_r; done.
          -- zcases; simpl; done.
        * destruct (cond x y); zcases; simpl; done. }
  apply HI.
Qed.

Lemma length_raster_row w cond px x0 x1 yy s :
  length (forRange x0 x1 (fun x out => plot w cond px x yy out) s) = length s.
Proof.
  destruct (Z.le_gt_cases x0 x1) as [Hle|Hgt].
  2:{ rewrite forRange_nil by lia. done. }
  apply (forRange_ind (fun _ t => length t = length s)); [done|done|].
  intros i t _ Ht. rewrite length_plot. done.
Qed.

Lemma length_raster w cond px x0 x1 y0 y1 s :
  length (raster w cond px x0 x1 y0 y1 s) = length s.
Proof.
  unfold raster.
  destruct (Z.le_gt_cases y0 y1) as [Hle|Hgt].
  2:{ rewrite forRange_nil by lia. done. }
  apply (forRange_ind (fun _ t => length t = length s)); [done|done|].
  intros i t _ Ht. rewrite length_raster_row. done.
Qed.

(** The nested loop writes the pixels of the rectangle where [cond] holds
    and nothing else. *)
Lemma rd_raster w cond px x0 x1 y0 y1 s x y c :
  0 <= x0 -> x1 <= w -> 0 <= x < w -> 0 <= c < 4 ->
  0 <= (y * w + x) * 4 + c < Z.of_nat (length s) ->
  rd (raster w cond px x0 x1 y0 y1 s) ((y * w + x) * 4 + c) =
  if inRect x0 x1 y0 y1 x y && cond x y
  then toUint8Clamp (chan c (px x y))
  else rd s ((y * w + x) * 4 + c).
Proof.
  intros Hx0 Hx1 Hx Hc Hin. unfold raster, inRect.
  destruct (Z.le_gt_cases y0 y1) as [Hle|Hgt].
  2:{ rewrite forRange_nil by lia. zcases; simpl; rewrite ?andb_false_r; done. }
  pose (I := fun (i : Z) (t : list Z) =>
    length t = length s /\
    rd t ((y * w + x) * 4 + c) =
      if (x0 <=? x) && (x <? x1) && (y0 <=? y) && (y <? i) && cond x y
      then toUint8Clamp (chan c (px x y))
      else rd s ((y * w + x) * 4 + c)).
  assert (HI : I y1 (forRange y0 y1
             (fun y out => forRange x0 x1 (fun x out => plot w cond px x y out) out) s)).
  { apply forRange_ind; [done| |].
    - split; [done|]. zcases; simpl; rewrite ?andb_false_r; done.
    - intros i t Hi [Hlen Hrd]. split; [rewrite length_raster_row; done|].
      rewrite rd_raster_row by (rewrite ?Hlen; lia). rewrite Hrd.
      destruct (cond x y); zcases; simpl; done. }
  apply HI.
Qed.

(** ** Emboss *)

Lemma pixel_index_range (w h x y c : Z) :
  0 <= x < w -> 0 <= y < h -> 0 <= c < 4 ->
  0 <= (y * w + x) * 4 + c < w * h * 4.
Proof. intros Hx Hy Hc. nia. Qed.

Lemma length_createImageData (w h : Z) :
  0 <= w -> 0 <= h ->
  Z.of_nat (length (data (createImageData w h))) = w * h * 4.
Proof.
  intros Hw Hh. unfold createImageData. simpl. rewrite length_replicate. nia.
Qed.

Lemma embossEdge_plot (image : ImageData) (x y : Z) (out : list Z) :
  embossEdge image x y out = plot (width image) (onBorder image) (edgePx image) x y out.
Proof. reflexivity. Qed.

Lemma embossPixel_plot (image : ImageData) (params : EmbossParams) (x y : Z) (out : list Z) :
  embossPixel image params x y out =
  plot (width image) (fun _ _ => true) (embossPx image params) x y out.
Proof.
  unfold embossPixel, plot, embossPx.
  destruct (embossSums image params x y) as [[r g] b]. reflexivity.
Qed.

Lemma embossInterior_raster (image : ImageData) (params : EmbossParams) :
  embossInterior image params =
  raster (width image) (fun _ _ => true) (embossPx image params)
    1 (width image - 1) 1 (height image - 1)
    (data (createImageData (width image) (height image))).
Proof.
  unfold embossInterior, raster.
  apply forRange_ext. intros y s _. apply forRange_ext. intros x t _.
  apply embossPixel_plot.
Qed.

Lemma embossData_raster (image : ImageData) (params : EmbossParams) :
  data (embossData image params) =
  raster (width image) (onBorder image) (edgePx image)
    0 (width image) 0 (height image) (embossInterior image params).
Proof. reflexivity. Qed.

Lemma length_embossInterior (image : ImageData) (params : EmbossParams) :
  well_formed image ->
  Z.of_nat (length (embossInterior image params)) = width image * height image * 4.
Proof.
  intros (Hw & Hh & _). rewrite embossInterior_raster, length_raster.
  apply length_createImageData; done.
Qed.

Lemma chan_edgePx (image : ImageData) (x y c : Z) :
  0 <= c < 4 ->
  chan c (edgePx image x y) = inject_Z (rd (data image) ((y * width image + x) * 4 + c)).
Proof.
  intros Hc. unfold chan, edgePx.
  assert (c = 0 \/ c = 1 \/ c = 2 \/ c = 3) as [-> | [-> | [-> | ->]]] by lia;
    simpl; rewrite ?Z.add_0_r; done.
Qed.

(** C7. For a buffer of width and height at least 1 and every strength,
    each of the four bytes of every pixel of the outermost ring of the
    Emboss output is the byte of the input, and the convolution loop has
    written nothing there: after it those bytes still hold the zero of the
    fresh output array. *)
Theorem emboss_border_unchanged (image : ImageData) (params : EmbossParams)
    (x y c : Z) :
  well_formed image ->
  1 <= width image -> 1 <= height image ->
  0 <= x < width image -> 0 <= y < height image -> 0 <= c < 4 ->
  (x = 0 \/ x = width image - 1 \/ y = 0 \/ y = height image - 1) ->
  rd (data (embossData image params)) ((y * width image + x) * 4 + c) =
    rd (data image) ((y * width image + x) * 4 + c) /\
  rd (embossInterior image params) ((y * width image + x) * 4 + c) = 0.
Proof.
  intros Hwf Hw Hh Hx Hy Hc Hborder.
  pose proof (pixel_index_range _ _ _ _ _ Hx Hy Hc) as Hidx.
  pose proof (length_embossInterior image params Hwf) as Hlen.
  destruct Hwf as (_ & _ & Hlen0 & Hbytes).
  assert (Hon : onBorder image x y = true).
  { unfold onBorder. rewrite !orb_true_iff, !Z.eqb_eq. tauto. }
  split.
  - rewrite embossData_raster.
    rewrite rd_raster by lia.
    rewrite Hon, chan_edgePx by done. unfold inRect.
    destruct (Z.leb_spec 0 x); [|lia]. destruct (Z.ltb_spec x (width image)); [|lia].
    destruct (Z.leb_spec 0 y); [|lia]. destruct (Z.ltb_spec y (height image)); [|lia].
    simpl. apply toUint8Clamp_inject. apply rd_byte. done.
  - rewrite embossInterior_raster.
    rewrite rd_raster
      by (rewrite ?length_createImageData; lia).
    assert (Hout : inRect 1 (width image - 1) 1 (height image - 1) x y = false).
    { unfold inRect. zcases; simpl; rewrite ?andb_false_r; done. }
    rewrite Hout. simpl. apply rd_replicate.
Qed.

Lemma emboss_border_unchanged_witness :
  well_formed sampleSquare /\
  rd (data (embossData sampleSquare {| strength := 1 |})) 14 = 3.
Proof.
  assert (Hwf : well_formed sampleSquare).
  { unfold well_formed. simpl. repeat split; try lia.
    repeat constructor; unfold is_byte; lia. }
  split; [exact Hwf|].
  exact (proj1 (emboss_border_unchanged sampleSquare {| strength := 1 |} 1 1 2
           Hwf ltac:(simpl; lia) ltac:(simpl; lia) ltac:(simpl; lia)
           ltac:(simpl; lia) ltac:(lia) (or_intror (or_introl eq_refl)))).
Defined.

(** ** Glass refraction *)




Section Glass.
Context `{JSMath}.
Variables (image : ImageData) (params : GlassRefractionParams).

Lemma glassPixel_plot (x y : Z) (out : list Z) :
  glassPixel image params x y out =
  plot (width image) (fun _ _ => true) (glassPx image params) x y out.
Proof.
  unfold glassPixel, plot, glassPx.
  destruct (glassSource image params x y) as [cx cy]. reflexivity.
Qed.

Lemma glassData_raster :
  data (glassData image params) =
  raster (width image) (fun _ _ => true) (glassPx image params)
    0 (width image) 0 (height image)
    (data (createImageData (width image) (height image))).
Proof.
  unfold glassData, raster. simpl.
  apply forRange_ext. intros y s _. apply forRange_ext. intros x t _.
  apply glassPixel_plot.
Qed.


Lemma glassData_rd (x y c : Z) :
  well_formed image ->
  0 <= x < width image -> 0 <= y < height image -> 0 <= c < 4 ->
  rd (data (glassData image params)) ((y * width image + x) * 4 + c) =
  toUint8Clamp (chan c (glassPx image params x y)).
Proof.
  intros (Hw & Hh & _) Hx Hy Hc.
  pose proof (pixel_index_range _ _ _ _ _ Hx Hy Hc) as Hidx.
  rewrite glassData_raster.
  rewrite rd_raster by (rewrite ?length_createImageData; lia).
  unfold inRect.
  destruct (Z.leb_spec 0 x); [|lia]. destruct (Z.ltb_spec x (width image)); [|lia].
  destruct (Z.leb_spec 0 y); [|lia]. destruct (Z.ltb_spec y (height image)); [|lia].
  done.
Qed.

Lemma glassSource_range (x y : Z) :
  0 < width image -> 0 < height image ->
  0 <= fst (glassSource image params x y) < width image /\
  0 <= snd (glassSource image params x y) < height image.
Proof. intros Hw Hh. unfold glassSource. simpl. lia. Qed.



End Glass.

Lemma index_decompose (w h j : Z) :
  0 <= w -> 0 <= h -> 0 <= j < w * h * 4 ->
  exists x y c, 0 <= x < w /\ 0 <= y < h /\ 0 <= c < 4 /\ j = (y * w + x) * 4 + c.
Proof.
  intros Hw0 Hh0 Hj.
  assert (Hw : 0 < w) by nia.
  exists ((j / 4) mod w), ((j / 4) / w), (j mod 4).
  pose proof (Z.div_mod j 4 ltac:(lia)) as H4.
  pose proof (Z.mod_pos_bound j 4 ltac:(lia)) as Hc.
  pose proof (Z.div_mod (j / 4) w ltac:(lia)) as Hdw.
  pose proof (Z.mod_pos_bound (j / 4) w ltac:(lia)) as Hx.
  assert (Hq : 0 <= j / 4 < w * h) by (split; [apply Z.div_pos; lia | apply Z.div_lt_upper_bound; lia]).
  assert (Hy : 0 <= j / 4 / w < h).
  { split; [apply Z.div_pos; lia | apply Z.div_lt_upper_bound; nia]. }
  repeat split; try lia.
Qed.

Lemma chan_alpha (r g b a : Q) : chan 3 (r, g, b, a) = a.
Proof. reflexivity. Qed.

(** C8 (as amended). The alpha byte of the output pixel [(x, y)] is the
    alpha byte of the input at the displaced and clamped position that the
    pixel samples, [glassSource], a position inside the image; so it is the
    input's alpha at [(x, y)] itself wherever the displacement rounds to
    nothing (and wherever else the sampled pixel has that alpha). *)
Theorem glass_alpha_from_sampled_pixel `{JSMath} (image : ImageData)
    (params : GlassRefractionParams) (x y : Z) :
  well_formed image ->
  0 <= x < width image -> 0 <= y < height image ->
  (0 <= fst (glassSource image params x y) < width image /\
   0 <= snd (glassSource image params x y) < height image) /\
  rd (data (glassData image params)) ((y * width image + x) * 4 + 3) =
    rd (data image)
       ((snd (glassSource image params x y) * width image
         + fst (glassSource image params x y)) * 4 + 3) /\
  (glassSource image params x y = (x, y) ->
   rd (data (glassData image params)) ((y * width image + x) * 4 + 3) =
     rd (data image) ((y * width image + x) * 4 + 3)).
Proof.
  intros Hwf Hx Hy.
  assert (Halpha :
    rd (data (glassData image params)) ((y * width image + x) * 4 + 3) =
    rd (data image)
       ((snd (glassSource image params x y) * width image
         + fst (glassSource image params x y)) * 4 + 3)).
  { rewrite glassData_rd by (done || lia).
    unfold glassPx. destruct (glassSource image params x y) as [cx cy].
    cbv zeta. rewrite chan_alpha. simpl fst. simpl snd.
    apply toUint8Clamp_inject. apply rd_byte. apply Hwf. }
  split; [apply glassSource_range; lia|].
  split; [exact Halpha|].
  intros E. rewrite Halpha, E. done.
Qed.

Lemma glass_alpha_from_sampled_pixel_witness :
  well_formed sampleRow /\
  rd (data (@glassData (sampleMath (1 # 2)) sampleRow sampleGlass)) 7 =
  rd (data sampleRow)
     ((snd (@glassSource (sampleMath (1 # 2)) sampleRow sampleGlass 1 0) * 2
       + fst (@glassSource (sampleMath (1 # 2)) sampleRow sampleGlass 1 0)) * 4 + 3).
Proof.
  assert (Hwf : well_formed sampleRow).
  { unfold well_formed. simpl. repeat split; try lia.
    repeat constructor; unfold is_byte; lia. }
  split; [exact Hwf|].
  exact (proj1 (proj2 (@glass_alpha_from_sampled_pixel (sampleMath (1 # 2))
           sampleRow sampleGlass 1 0 Hwf ltac:(simpl; lia) ltac:(simpl; lia)))).
Defined.

(** C8, the claim as stated fails: at intensity 50, amplitude 50,
    frequency 10 and direction 180 the second pixel of a two-pixel row has
    the wave value 0.6707, hence the displacement (-16.8, -5.0); it samples
    the first pixel and takes its alpha 255, while the input's alpha at its
    own position is 0. *)
Lemma glass_alpha_follows_displacement :
  @glassSource (sampleMath (1 # 2)) sampleRow sampleGlass 1 0 = (0, 0) /\
  rd (data (@glassData (sampleMath (1 # 2)) sampleRow sampleGlass)) ((0 * 2 + 1) * 4 + 3) = 255 /\
  rd (data sampleRow) ((0 * 2 + 1) * 4 + 3) = 0.
Proof. vm_compute. repeat split; reflexivity. Qed.

Lemma inject_Z_byte (v : Z) : is_byte v -> (0 <= inject_Z v <= 255)%Q.
Proof.
  unfold is_byte. intros Hv.
  change 0%Q with (inject_Z 0). change 255%Q with (inject_Z 255).
  rewrite <- !Zle_Qle. lia.
Qed.

Lemma Math_round_bounds (q : Q) :
  (q - (1 # 2) < inject_Z (Math_round q) <= q + (1 # 2))%Q.
Proof.
  unfold Math_round.
  pose proof (Qfloor_le (q + (1 # 2))) as H1. pose proof (Qlt_floor (q + (1 # 2))) as H2.
  rewrite inject_Z_succ in H2. split; lra.
Qed.

(** A byte scaled by a factor between 0.9 and 1.1, rounded and clamped,
    moves by at most a tenth of itself and the half unit of the rounding. *)
Lemma shade_within_tenth (v : Z) (factor : Q) :
  is_byte v -> ((9 # 10) <= factor <= (11 # 10))%Q ->
  10 * Z.abs (Z.max 0 (Z.min 255 (Math_round (inject_Z v * factor))) - v) <= v + 5.
Proof.
  intros Hv Hf. pose proof (inject_Z_byte v Hv) as HvQ.
  pose proof (Math_round_bounds (inject_Z v * factor)) as [Hlo Hhi].
  set (m := Math_round (inject_Z v * factor)) in *.
  assert (Hp1 : (0 <= inject_Z v * (factor - (9 # 10)))%Q)
    by (apply Qmult_le_0_compat; lra).
  assert (Hp2 : (0 <= inject_Z v * ((11 # 10) - factor))%Q)
    by (apply Qmult_le_0_compat; lra).
  assert (H1 : (inject_Z (10 * m) <= inject_Z (11 * v + 5))%Q).
  { rewrite inject_Z_plus, !inject_Z_mult.
    change (inject_Z 10) with 10%Q. change (inject_Z 11) with 11%Q.
    change (inject_Z 5) with 5%Q. lra. }
  assert (H2 : (inject_Z (9 * v) < inject_Z (10 * m + 5))%Q).
  { rewrite inject_Z_plus, !inject_Z_mult.
    change (inject_Z 10) with 10%Q. change (inject_Z 9) with 9%Q.
    change (inject_Z 5) with 5%Q. lra. }
  rewrite <- Zle_Qle in H1. rewrite <- Zlt_Qlt in H2.
  unfold is_byte in Hv. lia.
Qed.



Lemma shade_byte (v : Z) (factor : Q) :
  toUint8Clamp (inject_Z (Z.max 0 (Z.min 255 (Math_round (inject_Z v * factor))))) =
  Z.max 0 (Z.min 255 (Math_round (inject_Z v * factor))).
Proof.
  pose proof (toUint8Clamp_inject
                (Z.max 0 (Z.min 255 (Math_round (inject_Z v * factor))))) as H.
  apply H. unfold is_byte. lia.
Qed.




(** ** Halftone *)

Section LoopsQ.
Context {S : Type}.

(** A loop whose body changes nothing ends, with the state it started
    from, as soon as the fuel covers its iterations. *)
Lemma forLoopQ_idle (body : Q -> S -> option S) (s : S) (limit step : Q) :
  (0 < step)%Q ->
  forall (fuel : nat) (start : Q),
    (forall i, (start <= i)%Q -> (i < limit)%Q -> body i s = Some s) ->
    (limit <= start + inject_Z (Z.of_nat fuel - 1) * step)%Q ->
    (1 <= fuel)%nat ->
    forLoopQ fuel start limit step body s = Some s.
Proof.
  intros Hstep. induction fuel as [|fuel IH]; intros start Hbody Hfuel Hpos; [lia|].
  simpl. destruct (Qltb start limit) eqn:E; [|done].
  apply Qltb_true in E.
  rewrite Hbody by lra.
  assert (Hf : (1 <= fuel)%nat).
  { destruct fuel; [|lia]. exfalso.
    change (inject_Z (Z.of_nat 1 - 1)) with 0%Q in Hfuel. lra. }
  apply IH; [|  |done].
  - intros i Hi Hlt. apply Hbody; lra.
  - replace (Z.of_nat (Datatypes.S fuel) - 1) with ((Z.of_nat fuel - 1) + 1) in Hfuel by lia.
    rewrite inject_Z_plus in Hfuel. change (inject_Z 1) with 1%Q in Hfuel. lra.
Qed.
End LoopsQ.

Lemma halftoneSpacing_ge (r : Q) : (1 <= r)%Q -> (1 <= halftoneSpacing r)%Q.
Proof. intros Hr. unfold halftoneSpacing. qcases; lra. Qed.

Lemma minDotThreshold_pos (r : Q) : (0 < minDotThreshold r)%Q.
Proof. unfold minDotThreshold. qcases; lra. Qed.

(** A white sample has darkness 0 and dot size 0. *)
Lemma halftoneDotSize_white (params : HalftoneParams) :
  colorMode params = false -> (halftoneDotSize params 255 255 255 == 0)%Q.
Proof.
  intros Hcm. unfold halftoneDotSize. rewrite Hcm. cbv zeta.
  set (nb := (1 - inject_Z (255 + 255 + 255) / 3 / 255)%Q).
  assert (Hnb : (nb == 0)%Q) by reflexivity.
  assert (Hlt : Qltb (1 # 10) nb = false) by reflexivity.
  rewrite Hlt.
  assert (Hsize : (nb * dotRadius params == 0)%Q) by (rewrite Hnb; ring).
  unfold Math_max. qcases; rewrite ?Hsize; lra.
Qed.

Lemma sample_coordinate (x : Q) (n : Z) :
  1 <= n ->
  0 <= Math_floor (Math_max 0 (Math_min x (inject_Z (n - 1)))) < n.
Proof.
  intros Hn. unfold Math_floor.
  set (v := Math_max 0 (Math_min x (inject_Z (n - 1)))).
  assert (Hn1 : (0 <= inject_Z (n - 1))%Q)
    by (change 0%Q with (inject_Z 0); rewrite <- Zle_Qle; lia).
  assert (Hv : (0 <= v <= inject_Z (n - 1))%Q).
  { unfold v, Math_max, Math_min. qcases; lra. }
  pose proof (Qfloor_le v) as H1. pose proof (Qlt_floor v) as H2.
  rewrite inject_Z_succ in H2.
  split.
  - assert (inject_Z (-1) < inject_Z (Qfloor v))%Q
      by (change (inject_Z (-1)) with (-1)%Q; lra).
    rewrite <- Zlt_Qlt in H. lia.
  - assert (inject_Z (Qfloor v) <= inject_Z (n - 1))%Q by lra.
    rewrite <- Zle_Qle in H. lia.
Qed.

Lemma halftoneCell_white (image : ImageData) (params : HalftoneParams)
    (x y : Q) (cmds : list CanvasCmd) :
  all_white image -> colorMode params = false ->
  1 <= width image -> 1 <= height image ->
  halftoneCell image params x y cmds = cmds.
Proof.
  intros Hwhite Hcm Hw Hh. unfold halftoneCell. cbv zeta.
  pose proof (sample_coordinate x (width image) Hw) as Hsx.
  pose proof (sample_coordinate y (height image) Hh) as Hsy.
  set (sx := Math_floor (Math_max 0 (Math_min x (inject_Z (width image - 1))))) in *.
  set (sy := Math_floor (Math_max 0 (Math_min y (inject_Z (height image - 1))))) in *.
  pose proof (Hwhite sx sy 0 Hsx Hsy ltac:(lia)) as Hr.
  pose proof (Hwhite sx sy 1 Hsx Hsy ltac:(lia)) as Hg.
  pose proof (Hwhite sx sy 2 Hsx Hsy ltac:(lia)) as Hb.
  rewrite Z.add_0_r in Hr. rewrite Hr, Hg, Hb.
  assert (Hoff : Qltb (minDotThreshold (dotRadius params))
                   (halftoneDotSize params 255 255 255) = false).
  { apply Qltb_false. rewrite halftoneDotSize_white by done.
    pose proof (minDotThreshold_pos (dotRadius params)). lra. }
  rewrite Hoff. done.
Qed.

(** C10. On an image whose pixels are all pure white, with
    [colorMode = false] and a dot radius of at least 1 (every angle and
    shape): a white sample has darkness 0 and dot size 0, below the draw
    threshold; the lattice loops end once the fuel exceeds the width and
    the height, and the only command issued is the white background fill. *)
Theorem halftone_white_image_stays_white (image : ImageData)
    (params : HalftoneParams) (fuel : nat) :
  well_formed image -> all_white image ->
  colorMode params = false -> (1 <= dotRadius params)%Q ->
  width image < Z.of_nat fuel -> height image < Z.of_nat fuel ->
  (halftoneDotSize params 255 255 255 == 0)%Q /\
  Qltb (minDotThreshold (dotRadius params)) (halftoneDotSize params 255 255 255) = false /\
  applyHalftoneEffect fuel image params =
    Some [FillRect White 0 0 (inject_Z (width image)) (inject_Z (height image))].
Proof.
  intros (Hw & Hh & _) Hwhite Hcm Hr Hfw Hfh.
  pose proof (halftoneSpacing_ge _ Hr) as Hsp.
  split; [apply halftoneDotSize_white; done|].
  split.
  { apply Qltb_false. rewrite halftoneDotSize_white by done.
    pose proof (minDotThreshold_pos (dotRadius params)). lra. }
  assert (Hfuel : forall n : Z, 0 <= n -> n < Z.of_nat fuel ->
    (inject_Z n <= halftoneSpacing (dotRadius params) / 2
                   + inject_Z (Z.of_nat fuel - 1) * halftoneSpacing (dotRadius params))%Q).
  { intros n Hn Hlt.
    assert (Hle : (inject_Z n <= inject_Z (Z.of_nat fuel - 1))%Q)
      by (rewrite <- Zle_Qle; lia).
    assert (H0 : (0 <= inject_Z (Z.of_nat fuel - 1))%Q)
      by (change 0%Q with (inject_Z 0); rewrite <- Zle_Qle; lia).
    set (f := inject_Z (Z.of_nat fuel - 1)) in *.
    set (s := halftoneSpacing (dotRadius params)) in *.
    assert (f * 1 <= f * s)%Q by nra.
    assert (0 <= s / 2)%Q by (apply Qle_shift_div_l; lra). lra. }
  assert (Hhalf : (0 <= halftoneSpacing (dotRadius params) / 2)%Q)
    by (apply Qle_shift_div_l; lra).
  unfold applyHalftoneEffect. cbv zeta.
  apply forLoopQ_idle; [lra| |apply Hfuel; lia|lia].
  intros y Hy0 Hy1.
  assert (Hh1 : 1 <= height image).
  { assert (inject_Z 0 < inject_Z (height image))%Q
      by (change (inject_Z 0) with 0%Q; lra).
    rewrite <- Zlt_Qlt in H. lia. }
  apply forLoopQ_idle; [lra| |apply Hfuel; lia|lia].
  intros x Hx0 Hx1.
  assert (Hw1 : 1 <= width image).
  { assert (inject_Z 0 < inject_Z (width image))%Q
      by (change (inject_Z 0) with 0%Q; lra).
    rewrite <- Zlt_Qlt in H. lia. }
  rewrite halftoneCell_white by done. done.
Qed.

(** The lattice of spacing 1.8 has the point (0.9, 0.9) inside an image of
    two pixels by two, so the body of the loops runs: on the white image it
    draws nothing, on the black image of the same size it draws a dot. *)
Lemma halftone_white_image_stays_white_witness :
  well_formed sampleWhite /\ all_white sampleWhite /\
  applyHalftoneEffect 3 sampleWhite sampleHalftoneFine = Some [FillRect White 0 0 2 2] /\
  applyHalftoneEffect 3 sampleBlack sampleHalftoneFine <> Some [FillRect White 0 0 2 2].
Proof.
  assert (Hwf : well_formed sampleWhite).
  { unfold well_formed. simpl. repeat split; try lia.
    repeat constructor; unfold is_byte; lia. }
  assert (Hwhite : all_white sampleWhite).
  { intros x y c Hx Hy Hc. simpl in Hx, Hy.
    assert (x = 0 \/ x = 1) as [-> | ->] by lia;
    assert (y = 0 \/ y = 1) as [-> | ->] by lia;
    assert (c = 0 \/ c = 1 \/ c = 2) as [-> | [-> | ->]] by lia; reflexivity. }
  split; [exact Hwf|]. split; [exact Hwhite|]. split.
  - exact (proj2 (proj2 (halftone_white_image_stays_white sampleWhite sampleHalftoneFine 3
             Hwf Hwhite eq_refl ltac:(simpl; lra) ltac:(simpl; lia) ltac:(simpl; lia)))).
  - vm_compute. discriminate.
Defined.

(** ** Pixelate by tile averaging *)

Lemma tileSums_2x2 (d : list Z) :
  Legacy.tileSums (mkImageData 2 2 d) 2 0 0 =
  (sum2x2 d 0, sum2x2 d 1, sum2x2 d 2, sum2x2 d 3, 4).
Proof.
  unfold Legacy.tileSums. cbn [width height data].
  change (Z.min (0 + 2) 2) with 2.
  rewrite (forRange_cons 0 2) by lia.
  rewrite (forRange_cons (0 + 1) 2) by lia.
  rewrite (forRange_nil (0 + 1 + 1) 2) by lia.
  rewrite !(forRange_cons 0 2) by lia.
  rewrite !(forRange_cons (0 + 1) 2) by lia.
  rewrite !(forRange_nil (0 + 1 + 1) 2) by lia.
  reflexivity.
Qed.

Lemma mean2x2_div (d : list Z) (c : Z) : mean2x2 d c = (sum2x2 d c + 2) / 4.
Proof.
  unfold mean2x2. rewrite Math_round_div by lia.
  replace (2 * sum2x2 d c + 4) with ((sum2x2 d c + 2) * 2) by lia.
  change (2 * 4) with (4 * 2). rewrite Z.div_mul_cancel_r by lia. done.
Qed.

Lemma mean2x2_byte (d : list Z) (c : Z) : Forall is_byte d -> is_byte (mean2x2 d c).
Proof.
  intros Hd. rewrite mean2x2_div. unfold sum2x2.
  pose proof (rd_byte d c Hd). pose proof (rd_byte d (4 + c) Hd).
  pose proof (rd_byte d (8 + c) Hd). pose proof (rd_byte d (12 + c) Hd).
  unfold is_byte in *.
  Z.to_euclidean_division_equations. lia.
Qed.

Lemma pixelateTile_2x2 (d : list Z) :
  Forall is_byte d ->
  Legacy.pixelateTile (mkImageData 2 2 d) 2 0 0 (replicate 16 0) =
  [mean2x2 d 0; mean2x2 d 1; mean2x2 d 2; mean2x2 d 3;
   mean2x2 d 0; mean2x2 d 1; mean2x2 d 2; mean2x2 d 3;
   mean2x2 d 0; mean2x2 d 1; mean2x2 d 2; mean2x2 d 3;
   mean2x2 d 0; mean2x2 d 1; mean2x2 d 2; mean2x2 d 3].
Proof.
  intros Hd. unfold Legacy.pixelateTile. rewrite tileSums_2x2.
  fold (mean2x2 d 0). fold (mean2x2 d 1). fold (mean2x2 d 2). fold (mean2x2 d 3).
  cbn [width height data].
  change (Z.min (0 + 2) 2) with 2.
  rewrite (forRange_cons 0 2) by lia.
  rewrite (forRange_cons (0 + 1) 2) by lia.
  rewrite (forRange_nil (0 + 1 + 1) 2) by lia.
  rewrite !(forRange_cons 0 2) by lia.
  rewrite !(forRange_cons (0 + 1) 2) by lia.
  rewrite !(forRange_nil (0 + 1 + 1) 2) by lia.
  unfold store.
  rewrite !toUint8Clamp_inject by (apply mean2x2_byte; done).
  reflexivity.
Qed.

Lemma forLoop_once {S : Type} (fuel : nat) (limit step : Z)
    (body : Z -> S -> option S) (s s' : S) :
  (2 <= fuel)%nat -> 0 < limit <= step -> body 0 s = Some s' ->
  forLoop fuel 0 limit step body s = Some s'.
Proof.
  intros Hfuel Hlim Hbody.
  destruct fuel as [|[|fuel]]; [lia|lia|].
  rewrite (forLoop_step _ _ _ _ _ _ s') by (lia || done).
  apply forLoop_finish. lia.
Qed.

(** C3 (as amended). For every 2x2 buffer, Pixelate by tile averaging with
    [pixelSize = 2] ends (two units of fuel are enough) and puts a buffer
    whose four pixels are equal, each channel being the mean of the four
    input values rounded to the nearest integer, a half going up, that is
    [(sum + 2) / 4] rounded down; it is the exact mean when the sum of the
    four values is a multiple of 4. *)
Theorem pixelate_2x2_rounded_mean (d : list Z) (fuel : nat) :
  well_formed (mkImageData 2 2 d) -> (2 <= fuel)%nat ->
  Legacy.applyPixelateEffect fuel (mkImageData 2 2 d) {| pixelSize := 2 |} =
    Some [PutImageData (mkImageData 2 2
      [mean2x2 d 0; mean2x2 d 1; mean2x2 d 2; mean2x2 d 3;
       mean2x2 d 0; mean2x2 d 1; mean2x2 d 2; mean2x2 d 3;
       mean2x2 d 0; mean2x2 d 1; mean2x2 d 2; mean2x2 d 3;
       mean2x2 d 0; mean2x2 d 1; mean2x2 d 2; mean2x2 d 3])] /\
  (forall c, mean2x2 d c = Math_round (inject_Z (sum2x2 d c) / 4)) /\
  (forall c, mean2x2 d c = (sum2x2 d c + 2) / 4) /\
  (forall c, sum2x2 d c mod 4 = 0 ->
     (inject_Z (mean2x2 d c) == inject_Z (sum2x2 d c) / 4)%Q).
Proof.
  intros (_ & _ & _ & Hd) Hfuel. simpl in Hd.
  split; [|split; [|split]].
  - unfold Legacy.applyPixelateEffect, Legacy.pixelateData.
    cbn [width height data pixelSize createImageData].
    change (Z.to_nat (2 * 2 * 4)) with 16%nat.
    rewrite (forLoop_once fuel 2 2 _ _ (Legacy.pixelateTile (mkImageData 2 2 d) 2 0 0 (replicate 16 0)))
      by (lia || (apply forLoop_once; (lia || done))).
    rewrite pixelateTile_2x2 by done. reflexivity.
  - intros c. reflexivity.
  - apply mean2x2_div.
  - intros c Hc. rewrite mean2x2_div.
    assert (E : sum2x2 d c = 4 * ((sum2x2 d c + 2) / 4))
      by (Z.to_euclidean_division_equations; lia).
    rewrite E at 2. rewrite inject_Z_mult. change (inject_Z 4) with 4%Q.
    field.
Qed.

Lemma pixelate_2x2_rounded_mean_witness :
  well_formed sampleSquare /\
  Legacy.applyPixelateEffect 2 sampleSquare {| pixelSize := 2 |} =
    Some [PutImageData (mkImageData 2 2
            [0; 1; 2; 4; 0; 1; 2; 4; 0; 1; 2; 4; 0; 1; 2; 4])].
Proof.
  assert (Hwf : well_formed sampleSquare).
  { unfold well_formed. simpl. repeat split; try lia.
    repeat constructor; unfold is_byte; lia. }
  split; [exact Hwf|].
  exact (proj1 (pixelate_2x2_rounded_mean (data sampleSquare) 2 Hwf ltac:(lia))).
Defined.

(** C3, the claim as stated fails: the four red values 0, 0, 0, 1 have the
    mean 1/4 and every output pixel gets the red value 0 (and the four
    alpha values 3, 3, 3, 5, of mean 7/2, give 4). *)
Lemma pixelate_2x2_mean_not_exact :
  Legacy.applyPixelateEffect 2 sampleSquare {| pixelSize := 2 |} =
    Some [PutImageData (mkImageData 2 2
            [0; 1; 2; 4; 0; 1; 2; 4; 0; 1; 2; 4; 0; 1; 2; 4])] /\
  sum2x2 (data sampleSquare) 0 = 1 /\
  ~ (inject_Z 0 == inject_Z (sum2x2 (data sampleSquare) 0) / 4)%Q.
Proof.
  split; [vm_compute; reflexivity|]. split; [reflexivity|].
  vm_compute. discriminate.
Qed.

Lemma forLoop_stuck {S : Type} (fuel : nat) (limit : Z)
    (body : Z -> S -> option S) (s : S) :
  0 < limit -> forLoop fuel 0 limit 0 body s = None.
Proof.
  intros Hlim. revert s. induction fuel as [|fuel IH]; intros s; [done|].
  simpl. destruct (Z.ltb_spec 0 limit); [|lia].
  destruct (body 0 s); [apply IH|done].
Qed.

(** With [pixelSize = 0] the tile loops of the averaging Pixelate never
    advance: no amount of fuel lets the effect end on a buffer that has a
    row. *)
Lemma pixelate_zero_size_never_ends (fuel : nat) (image : ImageData) :
  0 < height image ->
  Legacy.applyPixelateEffect fuel image {| pixelSize := 0 |} = None.
Proof.
  intros Hh. unfold Legacy.applyPixelateEffect, Legacy.pixelateData.
  cbn [pixelSize]. rewrite forLoop_stuck by done. done.
Qed.

(** ** The dispatch *)

Lemma eqb_unknown (effect name : string) :
  ~ In effect knownEffects -> In name knownEffects -> String.eqb effect name = false.
Proof.
  intros Hun Hk. apply String.eqb_neq. intros ->. done.
Qed.

(** C1 (as amended). For an effect kind that is none of the eight known
    ones the dispatch raises no error. The current revision takes its
    [default] arm and draws the input image unchanged; the first revision,
    whose [switch] has no [default], issues no command and leaves the
    cleared canvas. *)
Theorem unknown_effect_is_drawn_unchanged `{JSMath} (fuel : nat)
    (image : ImageData) (effect : string) (params : EffectParams) :
  ~ In effect knownEffects ->
  processEffectWithOptimizedImage fuel image effect params = Completed [DrawImage image] /\
  Early.processEffectWithOptimizedImage fuel image effect params = Completed [].
Proof.
  intros Hun.
  assert (Hall : forall name, In name knownEffects -> String.eqb effect name = false)
    by (intros name; apply eqb_unknown; done).
  split.
  - unfold processEffectWithOptimizedImage.
    rewrite !Hall by (simpl; tauto). done.
  - unfold Early.processEffectWithOptimizedImage.
    assert (E : existsb (String.eqb effect) knownEffects = false).
    { unfold knownEffects. simpl. rewrite !Hall by (simpl; tauto). done. }
    rewrite E. done.
Qed.

Lemma unknown_effect_is_drawn_unchanged_witness :
  ~ In "sparkle"%string knownEffects /\
  @processEffectWithOptimizedImage (sampleMath (1 # 2)) 1 samplePixel "sparkle"
    (OfBlur {| radius := 1 |}) = Completed [DrawImage samplePixel].
Proof.
  assert (Hun : ~ In "sparkle"%string knownEffects).
  { simpl. intros [E|[E|[E|[E|[E|[E|[E|[E|[]]]]]]]]]; discriminate E. }
  split; [exact Hun|].
  exact (proj1 (@unknown_effect_is_drawn_unchanged (sampleMath (1 # 2)) 1 samplePixel
           "sparkle" (OfBlur {| radius := 1 |}) Hun)).
Defined.

(** C1, the claim as stated fails: the unknown kind "sparkle" does not
    fail with [UnsupportedEffect]; the input image is drawn as it is. *)
Lemma unknown_effect_passes_through :
  ~ In "sparkle"%string knownEffects /\
  @processEffectWithOptimizedImage (sampleMath (1 # 2)) 1 samplePixel "sparkle"
    (OfBlur {| radius := 1 |}) = Completed [DrawImage samplePixel] /\
  @processEffectWithOptimizedImage (sampleMath (1 # 2)) 1 samplePixel "sparkle"
    (OfBlur {| radius := 1 |}) <> Failed UnsupportedEffect.
Proof.
  split; [|split].
  - simpl. intros [E|[E|[E|[E|[E|[E|[E|[E|[]]]]]]]]]; discriminate E.
  - reflexivity.
  - discriminate.
Qed.

Lemma dispatch_never_fails `{JSMath} (fuel : nat) (image : ImageData)
    (effect : string) (params : EffectParams) (e : EngineError) :
  processEffectWithOptimizedImage fuel image effect params <> Failed e.
Proof.
  unfold processEffectWithOptimizedImage.
  repeat match goal with
  | |- context [String.eqb ?a ?b] => destruct (String.eqb a b)
  end; try discriminate; destruct params; try discriminate.
  destruct (applyHalftoneEffect fuel image p); discriminate.
Qed.

Lemma posterizeLevels_below (p : PosterizeParams) :
  (levels p < 2)%Q -> posterizeLevels p = 2.
Proof.
  intros Hl. unfold posterizeLevels, Math_floor.
  pose proof (Qfloor_le (levels p)) as Hf.
  assert (inject_Z (Qfloor (levels p)) < inject_Z 2)%Q
    by (change (inject_Z 2) with 2%Q; lra).
  rewrite <- Zlt_Qlt in H. lia.
Qed.

(** C2 (as amended). No parameter value makes the dispatch fail: it never
    answers with an error. For Posterize a [levels] value below 2 is not
    rejected: it is floored and raised to 2, and the effect runs as with
    [levels = 2], on the anchors 0 and 255. *)
Theorem out_of_range_levels_run_as_two `{JSMath} (fuel : nat) (image : ImageData) :
  (forall effect params e,
     processEffectWithOptimizedImage fuel image effect params <> Failed e) /\
  (forall p : PosterizeParams, (levels p < 2)%Q ->
     posterizeLevels p = 2 /\
     quantLevels (posterizeLevels p) = [0; 255] /\
     processEffectWithOptimizedImage fuel image "posterize" (OfPosterize p) =
       Completed [DrawImage image; PutImageData (posterizeData image {| levels := 2 |})]).
Proof.
  split; [intros effect params e; apply dispatch_never_fails|].
  intros p Hp. pose proof (posterizeLevels_below p Hp) as E.
  split; [exact E|]. split; [rewrite E; reflexivity|].
  unfold processEffectWithOptimizedImage. simpl String.eqb.
  unfold applyPosterizeEffect, posterizeData. rewrite E. reflexivity.
Qed.

(** C2, the claim as stated fails: Posterize with [levels = 1] does not
    fail with [ParameterOutOfRange]; the algorithm runs and maps the
    pixel (10, 255, 0) to (0, 255, 0). *)
Lemma posterize_one_level_is_not_rejected :
  (levels {| levels := 1 |} < 2)%Q /\
  @processEffectWithOptimizedImage (sampleMath (1 # 2)) 1 samplePixel "posterize"
    (OfPosterize {| levels := 1 |}) =
    Completed [DrawImage samplePixel; PutImageData (mkImageData 1 1 [0; 255; 0; 77])] /\
  @processEffectWithOptimizedImage (sampleMath (1 # 2)) 1 samplePixel "posterize"
    (OfPosterize {| levels := 1 |}) <> Failed ParameterOutOfRange.
Proof.
  split; [reflexivity|]. split; [vm_compute; reflexivity|].
  vm_compute. discriminate.
Qed.


(** ** Further properties of Posterize *)

(** [quantize] never reverses the order of two samples, whatever the
    array of anchors. *)
Lemma quantize_monotone (anchors : list Z) (v v' : Z) :
  v <= v' -> quantize anchors v <= quantize anchors v'.
Proof.
  intros Hv. destruct anchors as [|a0 l]; [done|].
  assert (Hne : a0 :: l <> []) by done.
  pose proof (quantize_elem v (a0 :: l) Hne) as Hq.
  pose proof (quantize_elem v' (a0 :: l) Hne) as Hq'.
  pose proof (quantize_nearest v (a0 :: l) _ Hq') as H1.
  pose proof (quantize_nearest v' (a0 :: l) _ Hq) as H2.
  destruct (Z.le_gt_cases (quantize (a0 :: l) v) (quantize (a0 :: l) v')) as [|Hgt];
    [done|].
  assert (v = v') by lia. subst v'. lia.
Qed.

(** X1. Posterize keeps the order of any two colour samples of the image: a
    sample that is not above another is not above it afterwards. *)
Theorem posterize_keeps_order (image : ImageData) (params : PosterizeParams)
    (j k : Z) :
  0 <= j < Z.of_nat (length (data image)) ->
  0 <= k < Z.of_nat (length (data image)) ->
  j mod 4 <> 3 -> k mod 4 <> 3 ->
  rd (data image) j <= rd (data image) k ->
  rd (data (posterizeData image params)) j <= rd (data (posterizeData image params)) k.
Proof.
  intros Hj Hk Hcj Hck Hle. rewrite !posterizeData_rd by done.
  destruct (Z.eqb_spec (j mod 4) 3); [done|].
  destruct (Z.eqb_spec (k mod 4) 3); [done|].
  apply quantize_monotone. done.
Qed.

Lemma quantLevels_first (n : Z) : 2 <= n -> 0 ∈ quantLevels n.
Proof.
  intros Hn. apply list_elem_of_lookup. exists (Z.to_nat 0).
  rewrite lookup_quantLevels by lia. f_equal.
  rewrite (Math_round_comp _ (inject_Z 0)); [apply Math_round_inject|].
  unfold Qdiv. change (inject_Z 0) with 0%Q. ring.
Qed.

Lemma quantLevels_last (n : Z) : 2 <= n -> 255 ∈ quantLevels n.
Proof.
  intros Hn. apply list_elem_of_lookup. exists (Z.to_nat (n - 1)).
  rewrite lookup_quantLevels by lia. f_equal.
  rewrite (Math_round_comp _ (inject_Z 255)); [apply Math_round_inject|].
  change (inject_Z 255) with 255%Q.
  assert (Hd : (0 < inject_Z (n - 1))%Q)
    by (change 0%Q with (inject_Z 0); rewrite <- Zlt_Qlt; lia).
  field. lra.
Qed.

(** X2. Pure black and pure white samples pass through Posterize unchanged,
    whatever the number of levels. *)
Theorem posterize_keeps_black_and_white (image : ImageData)
    (params : PosterizeParams) (j : Z) :
  0 <= j < Z.of_nat (length (data image)) ->
  (rd (data image) j = 0 -> rd (data (posterizeData image params)) j = 0) /\
  (rd (data image) j = 255 -> rd (data (posterizeData image params)) j = 255).
Proof.
  intros Hj. pose proof (posterizeLevels_ge params) as Hn.
  rewrite posterizeData_rd by done.
  destruct (j mod 4 =? 3); [done|].
  split; intros ->; apply quantize_anchor;
    [apply quantLevels_first | apply quantLevels_last]; done.
Qed.

Lemma quantLevels_anchor_div (n i : Z) :
  2 <= n -> 0 <= i < n ->
  quantLevels n !! Z.to_nat i = Some ((510 * i + (n - 1)) / (2 * (n - 1))).
Proof.
  intros Hn Hi. rewrite lookup_quantLevels by done. f_equal.
  rewrite (Math_round_comp _ (inject_Z (255 * i) / inject_Z (n - 1))).
  - rewrite Math_round_div by lia. f_equal. lia.
  - rewrite inject_Z_mult. change (inject_Z 255) with 255%Q. unfold Qdiv. ring.
Qed.

Lemma Zabs_scale (m x y : Z) :
  0 < m -> Z.abs x <= Z.abs y -> Z.abs (m * x) <= Z.abs (m * y).
Proof. intros Hm H. rewrite !Z.abs_mul. nia. Qed.

(** X3. The quantization error: a sample in [0,255] moves by at most half the
    anchor spacing [255 / (levels - 1)] plus the half unit by which an
    anchor is rounded. *)
Theorem posterize_error_bound (params : PosterizeParams) (v : Z) :
  0 <= v <= 255 ->
  2 * (posterizeLevels params - 1)
    * Z.abs (v - quantize (quantLevels (posterizeLevels params)) v)
  <= 255 + (posterizeLevels params - 1).
Proof.
  intros Hv. pose proof (posterizeLevels_ge params) as Hn.
  set (n := posterizeLevels params) in *.
  set (m := n - 1).
  assert (Hm : 1 <= m) by (unfold m; lia).
  set (q := quantize (quantLevels n) v).
  destruct (Z.eq_dec v 255) as [->|Hv255].
  { unfold q. rewrite quantize_anchor by (apply quantLevels_last; done).
    rewrite Z.sub_diag. simpl. lia. }
  set (i := v * m / 255).
  assert (Hi : 255 * i <= v * m < 255 * i + 255).
  { unfold i. pose proof (Z.div_mod (v * m) 255 ltac:(lia)).
    pose proof (Z.mod_pos_bound (v * m) 255 ltac:(lia)). lia. }
  assert (Hirange : 0 <= i < m) by nia.
  set (a := (510 * i + m) / (2 * m)).
  set (b := (510 * (i + 1) + m) / (2 * m)).
  assert (Ha : 2 * m * a <= 510 * i + m < 2 * m * a + 2 * m).
  { unfold a. pose proof (Z.div_mod (510 * i + m) (2 * m) ltac:(lia)).
    pose proof (Z.mod_pos_bound (510 * i + m) (2 * m) ltac:(lia)). lia. }
  assert (Hb : 2 * m * b <= 510 * (i + 1) + m < 2 * m * b + 2 * m).
  { unfold b. pose proof (Z.div_mod (510 * (i + 1) + m) (2 * m) ltac:(lia)).
    pose proof (Z.mod_pos_bound (510 * (i + 1) + m) (2 * m) ltac:(lia)). lia. }
  assert (Hain : a ∈ quantLevels n).
  { apply list_elem_of_lookup. exists (Z.to_nat i).
    rewrite quantLevels_anchor_div by (unfold m in *; lia). done. }
  assert (Hbin : b ∈ quantLevels n).
  { apply list_elem_of_lookup. exists (Z.to_nat (i + 1)).
    rewrite quantLevels_anchor_div by (unfold m in *; lia). done. }
  pose proof (Zabs_scale (2 * m) _ _ ltac:(lia) (quantize_nearest v _ _ Hain)) as Hqa.
  pose proof (Zabs_scale (2 * m) _ _ ltac:(lia) (quantize_nearest v _ _ Hbin)) as Hqb.
  fold q in Hqa, Hqb.
  rewrite Z.abs_mul in Hqa, Hqb. rewrite (Z.abs_eq (2 * m)) in Hqa, Hqb by lia.
  assert (Hmin : Z.abs (2 * m * (v - a)) <= 255 + m \/ Z.abs (2 * m * (v - b)) <= 255 + m).
  { replace (2 * m * (v - a)) with (2 * (v * m) - 2 * m * a) by ring.
    replace (2 * m * (v - b)) with (2 * (v * m) - 2 * m * b) by ring.
    lia. }
  lia.
Qed.

Lemma posterize_error_bound_witness :
  0 <= 100 <= 255 /\
  2 * (4 - 1) * Z.abs (100 - quantize (quantLevels 4) 100) <= 255 + (4 - 1).
Proof.
  split; [lia|].
  exact (posterize_error_bound {| levels := 4 |} 100 ltac:(lia)).
Defined.

Lemma posterize_keeps_order_witness :
  rd (data samplePixel) 2 <= rd (data samplePixel) 0 /\
  rd (data (posterizeData samplePixel {| levels := 4 |})) 2
  <= rd (data (posterizeData samplePixel {| levels := 4 |})) 0.
Proof.
  assert (H : rd (data samplePixel) 2 <= rd (data samplePixel) 0) by (vm_compute; discriminate).
  split; [exact H|].
  exact (posterize_keeps_order samplePixel {| levels := 4 |} 2 0
           ltac:(simpl; lia) ltac:(simpl; lia) ltac:(vm_compute; discriminate)
           ltac:(vm_compute; discriminate) H).
Defined.

Lemma posterize_keeps_black_and_white_witness :
  0 <= 1 < Z.of_nat (length (data samplePixel)) /\
  (rd (data samplePixel) 1 = 255 ->
   rd (data (posterizeData samplePixel {| levels := 5 |})) 1 = 255).
Proof.
  assert (H : 0 <= 1 < Z.of_nat (length (data samplePixel))) by (simpl; lia).
  split; [exact H|].
  exact (proj2 (posterize_keeps_black_and_white samplePixel {| levels := 5 |} 1 H)).
Defined.

(** ** Further properties of Emboss *)

(** What the two loops of Emboss leave at a pixel of the image. *)
Lemma embossData_rd (image : ImageData) (params : EmbossParams) (x y c : Z) :
  well_formed image ->
  0 <= x < width image -> 0 <= y < height image -> 0 <= c < 4 ->
  rd (data (embossData image params)) ((y * width image + x) * 4 + c) =
  if onBorder image x y then rd (data image) ((y * width image + x) * 4 + c)
  else toUint8Clamp (chan c (embossPx image params x y)).
Proof.
  intros Hwf Hx Hy Hc.
  pose proof (pixel_index_range _ _ _ _ _ Hx Hy Hc) as Hidx.
  pose proof (length_embossInterior image params Hwf) as Hlen.
  destruct Hwf as (Hw & Hh & Hlen0 & Hbytes).
  rewrite embossData_raster. rewrite rd_raster by lia.
  rewrite chan_edgePx by done.
  assert (Hin : inRect 0 (width image) 0 (height image) x y = true).
  { unfold inRect. zcases; done. }
  rewrite Hin. simpl andb.
  destruct (onBorder image x y) eqn:Hb.
  - apply toUint8Clamp_inject. apply rd_byte. done.
  - rewrite embossInterior_raster.
    rewrite rd_raster by (rewrite ?length_createImageData; lia).
    assert (Hint : inRect 1 (width image - 1) 1 (height image - 1) x y = true).
    { unfold onBorder in Hb. rewrite !orb_false_iff, !Z.eqb_neq in Hb.
      unfold inRect. zcases; done. }
    rewrite Hint. done.
Qed.

Lemma length_embossData (image : ImageData) (params : EmbossParams) :
  well_formed image ->
  length (data (embossData image params)) = length (data image).
Proof.
  intros Hwf. pose proof (length_embossInterior image params Hwf) as Hlen.
  destruct Hwf as (Hw & Hh & Hlen0 & Hbytes).
  rewrite embossData_raster, length_raster. lia.
Qed.

(** X4. Emboss keeps the alpha byte of every pixel, on the border and inside,
    and the size of the buffer. *)
Theorem emboss_keeps_alpha (image : ImageData) (params : EmbossParams) (x y : Z) :
  well_formed image ->
  0 <= x < width image -> 0 <= y < height image ->
  rd (data (embossData image params)) ((y * width image + x) * 4 + 3) =
    rd (data image) ((y * width image + x) * 4 + 3) /\
  length (data (embossData image params)) = length (data image) /\
  width (embossData image params) = width image /\
  height (embossData image params) = height image.
Proof.
  intros Hwf Hx Hy. split; [|split; [apply length_embossData; done|done]].
  rewrite embossData_rd by (done || lia).
  destruct (onBorder image x y); [done|].
  unfold embossPx. destruct (embossSums image params x y) as [[r g] b].
  cbv zeta. rewrite chan_alpha.
  apply toUint8Clamp_inject. apply rd_byte. apply Hwf.
Qed.

Lemma emboss_keeps_alpha_witness :
  well_formed sampleSquare /\
  rd (data (embossData sampleSquare {| strength := 2 |})) ((1 * 2 + 1) * 4 + 3) = 5.
Proof.
  assert (Hwf : well_formed sampleSquare).
  { unfold well_formed. simpl. repeat split; try lia.
    repeat constructor; unfold is_byte; lia. }
  split; [exact Hwf|].
  exact (proj1 (emboss_keeps_alpha sampleSquare {| strength := 2 |} 1 1 Hwf
                  ltac:(simpl; lia) ltac:(simpl; lia))).
Defined.

(** X5. An image with at most two columns or at most two rows has no interior:
    Emboss gives it back unchanged. *)
Theorem emboss_thin_image_unchanged (image : ImageData) (params : EmbossParams) :
  well_formed image ->
  width image <= 2 \/ height image <= 2 ->
  embossData image params = image.
Proof.
  intros Hwf Hthin.
  assert (Hd : data (embossData image params) = data image).
  { apply rd_ext; [apply length_embossData; done|].
    intros j Hj. rewrite length_embossData in Hj by done.
    pose proof Hwf as (Hw & Hh & Hlen & _). rewrite Hlen in Hj.
    destruct (index_decompose _ _ j Hw Hh Hj) as (x & y & c & Hx & Hy & Hc & ->).
    rewrite embossData_rd by done.
    assert (Hb : onBorder image x y = true).
    { unfold onBorder. rewrite !orb_true_iff, !Z.eqb_eq. lia. }
    rewrite Hb. done. }
  destruct image as [w h d]. unfold embossData in *. simpl in *. rewrite Hd. done.
Qed.

Lemma emboss_thin_image_unchanged_witness :
  well_formed sampleRow /\ embossData sampleRow {| strength := 3 |} = sampleRow.
Proof.
  assert (Hwf : well_formed sampleRow).
  { unfold well_formed. simpl. repeat split; try lia.
    repeat constructor; unfold is_byte; lia. }
  assert (Hthin : width sampleRow <= 2 \/ height sampleRow <= 2)
    by (left; simpl; lia).
  split; [exact Hwf|].
  exact (emboss_thin_image_unchanged sampleRow {| strength := 3 |} Hwf Hthin).
Defined.

Lemma forRange_kernel {S : Type} (body : Z -> S -> S) (s : S) :
  forRange (-1) 2 body s = body 1 (body 0 (body (-1) s)).
Proof.
  rewrite (forRange_cons (-1) 2) by lia. change (-1 + 1) with 0.
  rewrite (forRange_cons 0 2) by lia. change (0 + 1) with 1.
  rewrite (forRange_cons 1 2) by lia. change (1 + 1) with 2.
  rewrite forRange_nil by lia. done.
Qed.

Lemma embossSums_gray (image : ImageData) (params : EmbossParams) (x y : Z) :
  all_gray image ->
  1 <= x < width image - 1 -> 1 <= y < height image - 1 ->
  exists r : Q, embossSums image params x y = (r, r, r).
Proof.
  intros Hgray Hx Hy. unfold embossSums.
  rewrite !forRange_kernel.
  assert (Hn : forall kx ky, -1 <= kx <= 1 -> -1 <= ky <= 1 ->
    rd (data image) (((y + ky) * width image + (x + kx)) * 4 + 1) =
      rd (data image) (((y + ky) * width image + (x + kx)) * 4) /\
    rd (data image) (((y + ky) * width image + (x + kx)) * 4 + 2) =
      rd (data image) (((y + ky) * width image + (x + kx)) * 4)).
  { intros kx ky Hkx Hky. apply Hgray; lia. }
  cbv beta zeta.
  repeat match goal with
  | |- context [rd (data image) (((y + ?ky) * width image + (x + ?kx)) * 4 + 1)] =>
      rewrite (proj1 (Hn kx ky ltac:(lia) ltac:(lia)))
  | |- context [rd (data image) (((y + ?ky) * width image + (x + ?kx)) * 4 + 2)] =>
      rewrite (proj2 (Hn kx ky ltac:(lia) ltac:(lia)))
  end.
  eexists. reflexivity.
Qed.



(** X6. Emboss turns an image whose pixels are all gray (R = G = B) into an
    image whose pixels are all gray. *)
Theorem emboss_gray_stays_gray (image : ImageData) (params : EmbossParams) :
  well_formed image -> all_gray image -> all_gray (embossData image params).
Proof.
  intros Hwf Hgray x y Hx Hy.
  change (width (embossData image params)) with (width image) in *.
  change (height (embossData image params)) with (height image) in *.
  pose proof (embossData_rd image params x y 0 Hwf Hx Hy ltac:(lia)) as H0.
  pose proof (embossData_rd image params x y 1 Hwf Hx Hy ltac:(lia)) as H1.
  pose proof (embossData_rd image params x y 2 Hwf Hx Hy ltac:(lia)) as H2.
  rewrite Z.add_0_r in H0. rewrite H0, H1, H2.
  destruct (onBorder image x y) eqn:Hb.
  - apply Hgray; done.
  - assert (Hint : 1 <= x < width image - 1 /\ 1 <= y < height image - 1).
    { unfold onBorder in Hb. rewrite !orb_false_iff, !Z.eqb_neq in Hb. lia. }
    destruct (embossSums_gray image params x y Hgray (proj1 Hint) (proj2 Hint)) as [r Hr].
    unfold embossPx. rewrite Hr. done.
Qed.




Lemma sampleFlat_well_formed : well_formed sampleFlat.
Proof.
  unfold well_formed. simpl. repeat split; try lia.
  repeat constructor; unfold is_byte; lia.
Defined.


Lemma sampleFlat_all_gray : all_gray sampleFlat.
Proof.
  intros x y Hx Hy. simpl in Hx, Hy.
  assert (x = 0 \/ x = 1 \/ x = 2) as [-> | [-> | ->]] by lia;
  assert (y = 0 \/ y = 1 \/ y = 2) as [-> | [-> | ->]] by lia; split; reflexivity.
Defined.

Lemma emboss_gray_stays_gray_witness :
  well_formed sampleFlat /\ all_gray sampleFlat /\
  all_gray (embossData sampleFlat {| strength := 1 |}).
Proof.
  split; [exact sampleFlat_well_formed|]. split; [exact sampleFlat_all_gray|].
  exact (emboss_gray_stays_gray sampleFlat {| strength := 1 |}
           sampleFlat_well_formed sampleFlat_all_gray).
Defined.


(** ** Further properties of Halftone *)

Section MoreLoopsQ.
Context {S : Type}.

(** A loop whose counter starts below the limit and never increases does
    not end. *)
Lemma forLoopQ_stuck (body : Q -> S -> option S) (limit step : Q) :
  (step <= 0)%Q ->
  forall (fuel : nat) (start : Q) (s : S),
    (start < limit)%Q -> forLoopQ fuel start limit step body s = None.
Proof.
  intros Hstep. induction fuel as [|fuel IH]; intros start s Hlt; [done|].
  simpl. assert (E : Qltb start limit = true) by (apply Qltb_true; done).
  rewrite E. destruct (body start s); [|done].
  apply IH. lra.
Qed.

(** The loop rule for a loop that advances: it ends within the fuel and
    keeps an invariant of the state. *)
Lemma forLoopQ_inv (I : S -> Prop) (body : Q -> S -> option S) (limit step : Q) :
  (0 < step)%Q ->
  forall (fuel : nat) (start : Q) (s : S),
    I s ->
    (forall i s, (start <= i)%Q -> (i < limit)%Q -> I s ->
       exists s', body i s = Some s' /\ I s') ->
    (limit <= start + inject_Z (Z.of_nat fuel - 1) * step)%Q ->
    (1 <= fuel)%nat ->
    exists s', forLoopQ fuel start limit step body s = Some s' /\ I s'.
Proof.
  intros Hstep. induction fuel as [|fuel IH]; intros start s Hs Hbody Hfuel Hpos; [lia|].
  simpl. destruct (Qltb start limit) eqn:E; [|eauto].
  apply Qltb_true in E.
  destruct (Hbody start s ltac:(lra) E Hs) as (s' & -> & Hs').
  assert (Hf : (1 <= fuel)%nat).
  { destruct fuel; [|lia]. exfalso.
    change (inject_Z (Z.of_nat 1 - 1)) with 0%Q in Hfuel. lra. }
  apply IH; [done| |  |done].
  - intros i t Hi Hlt Ht. apply Hbody; [lra|done|done].
  - replace (Z.of_nat (Datatypes.S fuel) - 1) with ((Z.of_nat fuel - 1) + 1) in Hfuel by lia.
    rewrite inject_Z_plus in Hfuel. change (inject_Z 1) with 1%Q in Hfuel. lra.
Qed.
End MoreLoopsQ.

Lemma halftoneSpacing_nonpositive (r : Q) : (r <= 0)%Q -> (halftoneSpacing r <= 0)%Q.
Proof. intros Hr. unfold halftoneSpacing. qcases; lra. Qed.

Lemma halftoneSpacing_positive (r : Q) : (0 < r)%Q -> (0 < halftoneSpacing r)%Q.
Proof. intros Hr. unfold halftoneSpacing. qcases; lra. Qed.

(** X8. With a dot radius of zero or less the lattice does not advance:
    Halftone never ends on an image that has a row. *)
Theorem halftone_nonpositive_radius_never_ends (fuel : nat) (image : ImageData)
    (params : HalftoneParams) :
  (dotRadius params <= 0)%Q -> 1 <= height image ->
  applyHalftoneEffect fuel image params = None.
Proof.
  intros Hr Hh. unfold applyHalftoneEffect. cbv zeta.
  pose proof (halftoneSpacing_nonpositive _ Hr) as Hsp.
  apply forLoopQ_stuck; [done|].
  assert (halftoneSpacing (dotRadius params) / 2 <= 0)%Q.
  { apply Qle_shift_div_r; lra. }
  assert (inject_Z 1 <= inject_Z (height image))%Q by (rewrite <- Zle_Qle; done).
  change (inject_Z 1) with 1%Q in *. lra.
Qed.

Lemma halftone_nonpositive_radius_never_ends_witness :
  (dotRadius {| shapeType := circle; dotRadius := 0; angle := 0; colorMode := true |} <= 0)%Q /\
  applyHalftoneEffect 1000 sampleWhite
    {| shapeType := circle; dotRadius := 0; angle := 0; colorMode := true |} = None.
Proof.
  assert (H : (dotRadius {| shapeType := circle; dotRadius := 0; angle := 0;
                            colorMode := true |} <= 0)%Q) by (simpl; lra).
  split; [exact H|].
  exact (halftone_nonpositive_radius_never_ends 1000 sampleWhite _ H ltac:(simpl; lia)).
Defined.

Lemma halftoneCell_dots (image : ImageData) (params : HalftoneParams)
    (x y : Q) (cmds : list CanvasCmd) :
  (0 <= x < inject_Z (width image))%Q -> (0 <= y < inject_Z (height image))%Q ->
  Forall (lattice_dot image params) cmds ->
  Forall (lattice_dot image params) (halftoneCell image params x y cmds).
Proof.
  intros Hx Hy Hcmds. unfold halftoneCell. cbv zeta.
  match goal with |- context [Qltb ?a ?b] => destruct (Qltb a b) end; [|done].
  apply Forall_app. split; [done|].
  apply Forall_singleton. simpl. repeat split; try tauto.
  intros ->. done.
Qed.

Lemma halftoneCell_cons (image : ImageData) (params : HalftoneParams)
    (x y : Q) (c : CanvasCmd) (cmds : list CanvasCmd) :
  halftoneCell image params x y (c :: cmds) = c :: halftoneCell image params x y cmds.
Proof.
  unfold halftoneCell. cbv zeta.
  match goal with |- context [Qltb ?a ?b] => destruct (Qltb a b) end; done.
Qed.

(** X9. With a dot radius of at least 1 Halftone ends, once the fuel exceeds
    the width and the height, and what it issues is the white fill of the
    whole canvas followed by dots only: each centred inside the image,
    turned by the angle parameter and, in monochrome mode, black. How many
    dots there are is left open. *)
Theorem halftone_draws_dots_on_white (fuel : nat) (image : ImageData)
    (params : HalftoneParams) :
  well_formed image -> (1 <= dotRadius params)%Q ->
  width image < Z.of_nat fuel -> height image < Z.of_nat fuel ->
  exists dots,
    applyHalftoneEffect fuel image params =
      Some (FillRect White 0 0 (inject_Z (width image)) (inject_Z (height image)) :: dots) /\
    Forall (lattice_dot image params) dots.
Proof.
  intros (Hw & Hh & _) Hr Hfw Hfh.
  pose proof (halftoneSpacing_ge _ Hr) as Hsp.
  assert (Hhalf : (0 < halftoneSpacing (dotRadius params) / 2)%Q)
    by (apply Qlt_shift_div_l; lra).
  assert (Hfuel : forall n : Z, 0 <= n -> n < Z.of_nat fuel ->
    (inject_Z n <= halftoneSpacing (dotRadius params) / 2
                   + inject_Z (Z.of_nat fuel - 1) * halftoneSpacing (dotRadius params))%Q).
  { intros n Hn Hlt.
    assert (Hle : (inject_Z n <= inject_Z (Z.of_nat fuel - 1))%Q)
      by (rewrite <- Zle_Qle; lia).
    assert (H0 : (0 <= inject_Z (Z.of_nat fuel - 1))%Q)
      by (change 0%Q with (inject_Z 0); rewrite <- Zle_Qle; lia).
    set (f := inject_Z (Z.of_nat fuel - 1)) in *.
    set (s := halftoneSpacing (dotRadius params)) in *.
    assert (f * 1 <= f * s)%Q by nra. lra. }
  set (fill := FillRect White 0 0 (inject_Z (width image)) (inject_Z (height image))).
  pose (I := fun cmds : list CanvasCmd =>
    exists dots, cmds = fill :: dots /\ Forall (lattice_dot image params) dots).
  assert (Hres : exists cmds, applyHalftoneEffect fuel image params = Some cmds /\ I cmds).
  { unfold applyHalftoneEffect. cbv zeta.
    apply forLoopQ_inv; [lra| | |apply Hfuel; lia|lia].
    - exists []. split; [done|constructor].
    - intros y cmds Hy0 Hy1 Hcmds.
      apply forLoopQ_inv; [lra|done| |apply Hfuel; lia|lia].
      intros x cmds' Hx0 Hx1 (dots & -> & Hdots).
      eexists. split; [reflexivity|].
      exists (halftoneCell image params x y dots).
      split; [apply halftoneCell_cons|].
      apply halftoneCell_dots; [lra|lra|done]. }
  destruct Hres as (cmds & E & dots & -> & Hdots). eauto.
Qed.

(** On the black image of two pixels by two, with the spacing 1.8, the one
    lattice point (0.9, 0.9) gets a dot. *)
Lemma halftone_draws_dots_on_white_witness :
  well_formed sampleBlack /\ (1 <= dotRadius sampleHalftoneFine)%Q /\
  exists dots,
    applyHalftoneEffect 3 sampleBlack sampleHalftoneFine =
      Some (FillRect White 0 0 (inject_Z (width sampleBlack))
              (inject_Z (height sampleBlack)) :: dots) /\
    Forall (lattice_dot sampleBlack sampleHalftoneFine) dots /\
    length dots = 1%nat.
Proof.
  assert (Hwf : well_formed sampleBlack).
  { unfold well_formed. simpl. repeat split; try lia.
    repeat constructor; unfold is_byte; lia. }
  assert (Hr : (1 <= dotRadius sampleHalftoneFine)%Q) by (simpl; lra).
  split; [exact Hwf|]. split; [exact Hr|].
  destruct (halftone_draws_dots_on_white 3 sampleBlack sampleHalftoneFine Hwf Hr
              ltac:(simpl; lia) ltac:(simpl; lia)) as (dots & E & Hdots).
  exists dots. split; [exact E|]. split; [exact Hdots|].
  assert (Hlen : (fun cmds => length (tail cmds)) <$>
                   applyHalftoneEffect 3 sampleBlack sampleHalftoneFine = Some 1%nat)
    by (vm_compute; reflexivity).
  rewrite E in Hlen. simpl in Hlen. injection Hlen as Hlen. exact Hlen.
Defined.

(** A black sample has dot size 0 in colour mode. *)
Lemma halftoneDotSize_black (params : HalftoneParams) :
  colorMode params = true -> (halftoneDotSize params 0 0 0 == 0)%Q.
Proof.
  intros Hcm. unfold halftoneDotSize. rewrite Hcm. cbv zeta.
  set (nb := (inject_Z (0 + 0 + 0) / 3 / 255)%Q).
  assert (Hnb : (nb == 0)%Q) by reflexivity.
  assert (Hlt : Qltb (1 # 10) nb = false) by reflexivity.
  rewrite Hlt.
  assert (Hsize : (nb * dotRadius params == 0)%Q) by (rewrite Hnb; ring).
  unfold Math_max. qcases; rewrite ?Hsize; lra.
Qed.

Lemma halftoneCell_black (image : ImageData) (params : HalftoneParams)
    (x y : Q) (cmds : list CanvasCmd) :
  all_flat image 0 -> colorMode params = true ->
  1 <= width image -> 1 <= height image ->
  halftoneCell image params x y cmds = cmds.
Proof.
  intros Hblack Hcm Hw Hh. unfold halftoneCell. cbv zeta.
  pose proof (sample_coordinate x (width image) Hw) as Hsx.
  pose proof (sample_coordinate y (height image) Hh) as Hsy.
  set (sx := Math_floor (Math_max 0 (Math_min x (inject_Z (width image - 1))))) in *.
  set (sy := Math_floor (Math_max 0 (Math_min y (inject_Z (height image - 1))))) in *.
  pose proof (Hblack sx sy 0 Hsx Hsy ltac:(lia)) as Hr.
  pose proof (Hblack sx sy 1 Hsx Hsy ltac:(lia)) as Hg.
  pose proof (Hblack sx sy 2 Hsx Hsy ltac:(lia)) as Hb.
  rewrite Z.add_0_r in Hr. rewrite Hr, Hg, Hb.
  assert (Hoff : Qltb (minDotThreshold (dotRadius params))
                   (halftoneDotSize params 0 0 0) = false).
  { apply Qltb_false. rewrite halftoneDotSize_black by done.
    pose proof (minDotThreshold_pos (dotRadius params)). lra. }
  rewrite Hoff. done.
Qed.

(** X10. In colour mode the dots grow with brightness: an image whose pixels
    are all black gets no dot at all, only the white background. *)
Theorem halftone_color_mode_black_is_blank (image : ImageData)
    (params : HalftoneParams) (fuel : nat) :
  well_formed image -> all_flat image 0 ->
  colorMode params = true -> (1 <= dotRadius params)%Q ->
  width image < Z.of_nat fuel -> height image < Z.of_nat fuel ->
  applyHalftoneEffect fuel image params =
    Some [FillRect White 0 0 (inject_Z (width image)) (inject_Z (height image))].
Proof.
  intros (Hw & Hh & _) Hblack Hcm Hr Hfw Hfh.
  pose proof (halftoneSpacing_ge _ Hr) as Hsp.
  assert (Hfuel : forall n : Z, 0 <= n -> n < Z.of_nat fuel ->
    (inject_Z n <= halftoneSpacing (dotRadius params) / 2
                   + inject_Z (Z.of_nat fuel - 1) * halftoneSpacing (dotRadius params))%Q).
  { intros n Hn Hlt.
    assert (Hle : (inject_Z n <= inject_Z (Z.of_nat fuel - 1))%Q)
      by (rewrite <- Zle_Qle; lia).
    assert (H0 : (0 <= inject_Z (Z.of_nat fuel - 1))%Q)
      by (change 0%Q with (inject_Z 0); rewrite <- Zle_Qle; lia).
    set (f := inject_Z (Z.of_nat fuel - 1)) in *.
    set (s := halftoneSpacing (dotRadius params)) in *.
    assert (f * 1 <= f * s)%Q by nra.
    assert (0 <= s / 2)%Q by (apply Qle_shift_div_l; lra). lra. }
  assert (Hhalf : (0 <= halftoneSpacing (dotRadius params) / 2)%Q)
    by (apply Qle_shift_div_l; lra).
  unfold applyHalftoneEffect. cbv zeta.
  apply forLoopQ_idle; [lra| |apply Hfuel; lia|lia].
  intros y Hy0 Hy1.
  assert (Hh1 : 1 <= height image).
  { assert (inject_Z 0 < inject_Z (height image))%Q
      by (change (inject_Z 0) with 0%Q; lra).
    rewrite <- Zlt_Qlt in H. lia. }
  apply forLoopQ_idle; [lra| |apply Hfuel; lia|lia].
  intros x Hx0 Hx1.
  assert (Hw1 : 1 <= width image).
  { assert (inject_Z 0 < inject_Z (width image))%Q
      by (change (inject_Z 0) with 0%Q; lra).
    rewrite <- Zlt_Qlt in H. lia. }
  rewrite halftoneCell_black by done. done.
Qed.

Lemma halftone_color_mode_black_is_blank_witness :
  well_formed sampleBlack /\ all_flat sampleBlack 0 /\
  applyHalftoneEffect 3 sampleBlack sampleHalftoneColor = Some [FillRect White 0 0 2 2].
Proof.
  assert (Hwf : well_formed sampleBlack).
  { unfold well_formed. simpl. repeat split; try lia.
    repeat constructor; unfold is_byte; lia. }
  assert (Hblack : all_flat sampleBlack 0).
  { intros x y c Hx Hy Hc. simpl in Hx, Hy.
    assert (x = 0 \/ x = 1) as [-> | ->] by lia;
    assert (y = 0 \/ y = 1) as [-> | ->] by lia;
    assert (c = 0 \/ c = 1 \/ c = 2) as [-> | [-> | ->]] by lia; reflexivity. }
  split; [exact Hwf|]. split; [exact Hblack|].
  exact (halftone_color_mode_black_is_blank sampleBlack sampleHalftoneColor 3
           Hwf Hblack eq_refl ltac:(simpl; lra) ltac:(simpl; lia) ltac:(simpl; lia)).
Defined.

Lemma brightness_fraction (r g b : Z) :
  is_byte r -> is_byte g -> is_byte b ->
  (0 <= inject_Z (r + g + b) / 3 / 255 <= 1)%Q.
Proof.
  unfold is_byte. intros Hr Hg Hb.
  assert (E : (inject_Z (r + g + b) / 3 / 255 == inject_Z (r + g + b) * (1 # 765))%Q)
    by field.
  assert (H0 : (inject_Z 0 <= inject_Z (r + g + b))%Q) by (rewrite <- Zle_Qle; lia).
  assert (H1 : (inject_Z (r + g + b) <= inject_Z 765)%Q) by (rewrite <- Zle_Qle; lia).
  change (inject_Z 0) with 0%Q in H0. change (inject_Z 765) with 765%Q in H1.
  rewrite E. lra.
Qed.

(** X11. For a dot radius above 2 the size of a dot is between 0 and the dot
    radius, and twice the dot radius is at most the lattice spacing: two
    neighbouring round dots never overlap. *)
Theorem halftone_dots_fit_lattice (params : HalftoneParams) (r g b : Z) :
  is_byte r -> is_byte g -> is_byte b -> (2 < dotRadius params)%Q ->
  (0 <= halftoneDotSize params r g b <= dotRadius params)%Q /\
  (2 * dotRadius params <= halftoneSpacing (dotRadius params))%Q.
Proof.
  intros Hr Hg Hb Hrad.
  pose proof (brightness_fraction r g b Hr Hg Hb) as Hfrac.
  split.
  - unfold halftoneDotSize. cbv zeta.
    set (f := (inject_Z (r + g + b) / 3 / 255)%Q) in *.
    set (rad := dotRadius params) in *.
    destruct (colorMode params); unfold Math_max; qcases; nra.
  - unfold halftoneSpacing. qcases; lra.
Qed.

Lemma halftone_dots_fit_lattice_witness :
  (2 < dotRadius sampleHalftone)%Q /\
  (2 * dotRadius sampleHalftone <= halftoneSpacing (dotRadius sampleHalftone))%Q.
Proof.
  assert (H : (2 < dotRadius sampleHalftone)%Q) by (simpl; lra).
  split; [exact H|].
  exact (proj2 (halftone_dots_fit_lattice sampleHalftone 10 20 30
           ltac:(unfold is_byte; lia) ltac:(unfold is_byte; lia)
           ltac:(unfold is_byte; lia) H)).
Defined.

(** ** Pixelate by tile averaging, in general *)

Section MoreLoops.
Context {S : Type}.

(** A loop whose counter starts below the limit and never increases does
    not end. *)
Lemma forLoop_never (body : Z -> S -> option S) (limit step : Z) :
  step <= 0 ->
  forall (fuel : nat) (start : Z) (s : S),
    start < limit -> forLoop fuel start limit step body s = None.
Proof.
  intros Hstep. induction fuel as [|fuel IH]; intros start s Hlt; [done|].
  simpl. destruct (Z.ltb_spec start limit); [|lia].
  destruct (body start s); [|done]. apply IH. lia.
Qed.

(** The loop rule for a loop that advances: it ends within the fuel, with
    the counter at or past the limit, and keeps an invariant. *)
Lemma forLoop_inv (I : Z -> S -> Prop) (body : Z -> S -> option S) (limit step : Z) :
  0 < step ->
  forall (fuel : nat) (start : Z) (s : S),
    I start s ->
    (forall i s, start <= i -> i < limit -> I i s ->
       exists s', body i s = Some s' /\ I (i + step) s') ->
    limit <= start + (Z.of_nat fuel - 1) * step ->
    (1 <= fuel)%nat ->
    exists i' s', forLoop fuel start limit step body s = Some s' /\
                  I i' s' /\ limit <= i' /\ start <= i'.
Proof.
  intros Hstep. induction fuel as [|fuel IH]; intros start s Hs Hbody Hfuel Hpos; [lia|].
  simpl. destruct (Z.ltb_spec start limit) as [Hlt|Hge].
  - destruct (Hbody start s ltac:(lia) Hlt Hs) as (s' & -> & Hs').
    assert (Hf : (1 <= fuel)%nat) by (destruct fuel; [nia|lia]).
    assert (Hbody' : forall i t, start + step <= i -> i < limit -> I i t ->
              exists t', body i t = Some t' /\ I (i + step) t').
    { intros i t Hi Hl Ht. apply Hbody; [lia|done|done]. }
    assert (Hfuel' : limit <= start + step + (Z.of_nat fuel - 1) * step) by nia.
    destruct (IH (start + step) s' Hs' Hbody' Hfuel' Hf) as (i' & s'' & E & Hi & Hl & Hst).
    exists i', s''. repeat split; (done || lia).
  - exists start, s. repeat split; (done || lia).
Qed.
End MoreLoops.

Lemma pixelateTile_raster (image : ImageData) (p x y : Z) (out : list Z) :
  Legacy.pixelateTile image p x y out =
  raster (width image) (fun _ _ => true) (fun _ _ => tileMeans image p x y)
    x (Z.min (x + p) (width image)) y (Z.min (y + p) (height image)) out.
Proof.
  unfold Legacy.pixelateTile, raster, tileMeans.
  destruct (Legacy.tileSums image p x y) as [[[[r g] b] a] count].
  reflexivity.
Qed.

(** X12. With a tile size of zero or less the tile loops do not advance: the
    averaging Pixelate never ends on an image that has a row. *)
Theorem pixelate_nonpositive_size_never_ends (fuel : nat) (image : ImageData)
    (params : PixelateParams) :
  pixelSize params <= 0 -> 1 <= height image ->
  Legacy.applyPixelateEffect fuel image params = None.
Proof.
  intros Hp Hh. unfold Legacy.applyPixelateEffect, Legacy.pixelateData.
  rewrite forLoop_never by lia. done.
Qed.

Lemma pixelate_nonpositive_size_never_ends_witness :
  pixelSize {| pixelSize := -3 |} <= 0 /\
  Legacy.applyPixelateEffect 500 sampleSquare {| pixelSize := -3 |} = None.
Proof.
  assert (H : pixelSize {| pixelSize := -3 |} <= 0) by (simpl; lia).
  split; [exact H|].
  exact (pixelate_nonpositive_size_never_ends 500 sampleSquare _ H ltac:(simpl; lia)).
Defined.

Lemma tile_origin (p : Z) (Hp : 1 <= p) (i u : Z) :
  0 <= i -> i mod p = 0 -> i <= u < i + p -> i = u / p * p.
Proof.
  intros Hi Hm Hu.
  pose proof (Z.div_mod i p ltac:(lia)) as Hdi. rewrite Hm in Hdi.
  pose proof (Z.div_mod u p ltac:(lia)) as Hdu.
  pose proof (Z.mod_pos_bound u p ltac:(lia)) as Hmu.
  assert (i / p = u / p) by nia. nia.
Qed.

Lemma tile_step_mod (p : Z) (Hp : 1 <= p) (i : Z) : i mod p = 0 -> (i + p) mod p = 0.
Proof.
  intros Hm. rewrite <- (Z.mul_1_l p) at 1. rewrite Z.mod_add by lia. done.
Qed.

Section TileLoops.
Variables (image : ImageData) (p : Z) (fuel : nat).
Hypothesis Hwf : well_formed image.
Hypothesis Hp : 1 <= p.
Hypothesis Hfw : width image < Z.of_nat fuel.
Hypothesis Hfh : height image < Z.of_nat fuel.
Variables (x' y' c : Z).
Hypothesis Hx' : 0 <= x' < width image.
Hypothesis Hy' : 0 <= y' < height image.
Hypothesis Hc : 0 <= c < 4.

(** One row of tiles: the inner loop at the tile row that starts at [y]. *)
Lemma pixelate_tile_row (y : Z) (s : list Z) :
  0 <= y -> Z.of_nat (length s) = width image * height image * 4 ->
  exists s',
    forLoop fuel 0 (width image) p
      (fun x out => Some (Legacy.pixelateTile image p x y out)) s = Some s' /\
    length s' = length s /\
    rd s' ((y' * width image + x') * 4 + c) =
      if (y <=? y') && (y' <? y + p)
      then toUint8Clamp (chan c (tileMeans image p (x' / p * p) y))
      else rd s ((y' * width image + x') * 4 + c).
Proof.
  intros Hy Hlen.
  pose proof (pixel_index_range _ _ _ _ _ Hx' Hy' Hc) as Hidx.
  pose (J := fun (x : Z) (t : list Z) =>
    (0 <= x /\ x mod p = 0) /\ length t = length s /\
    rd t ((y' * width image + x') * 4 + c) =
      if (y <=? y') && (y' <? y + p) && (x' <? x)
      then toUint8Clamp (chan c (tileMeans image p (x' / p * p) y))
      else rd s ((y' * width image + x') * 4 + c)).
  destruct (forLoop_inv J
              (fun x out => Some (Legacy.pixelateTile image p x y out))
              (width image) p ltac:(lia) fuel 0 s)
    as (i' & s' & E & ((_ & _) & Hl & Hrd) & Hi' & _).
  - repeat split; try done. zcases; simpl; rewrite ?andb_false_r; done.
  - intros x t Hx0 Hxw ((Hxn & Hxm) & Hlt & Hrd).
    eexists. split; [reflexivity|]. split; [|split].
    + split; [lia|apply tile_step_mod; done].
    + rewrite pixelateTile_raster, length_raster. done.
    + rewrite pixelateTile_raster. rewrite rd_raster by lia.
      rewrite Hrd. unfold inRect. rewrite andb_true_r.
      destruct (Z.leb_spec x x'); destruct (Z.ltb_spec x' (Z.min (x + p) (width image)));
        destruct (Z.leb_spec y y'); destruct (Z.ltb_spec y' (Z.min (y + p) (height image)));
        destruct (Z.ltb_spec y' (y + p)); destruct (Z.ltb_spec x' x);
        destruct (Z.ltb_spec x' (x + p)); simpl; try lia; try done.
      rewrite <- (tile_origin p Hp x x') by lia. done.
  - nia.
  - lia.
  - exists s'. split; [exact E|]. split; [done|].
    rewrite Hrd. destruct (Z.ltb_spec x' i'); [|lia]. rewrite andb_true_r. done.
Qed.

(** All the rows of tiles: the two loops of [pixelateData]. *)
Lemma pixelate_tiles :
  exists out,
    Legacy.pixelateData fuel image {| pixelSize := p |} = Some out /\
    width out = width image /\ height out = height image /\
    length (data out) = length (data image) /\
    rd (data out) ((y' * width image + x') * 4 + c) =
      toUint8Clamp (chan c (tileMeans image p (x' / p * p) (y' / p * p))).
Proof.
  pose proof Hwf as (Hw & Hh & Hlen & _).
  pose proof (pixel_index_range _ _ _ _ _ Hx' Hy' Hc) as Hidx.
  pose proof (length_createImageData _ _ Hw Hh) as Hlen0.
  set (init := data (createImageData (width image) (height image))) in *.
  pose (K := fun (y : Z) (t : list Z) =>
    (0 <= y /\ y mod p = 0) /\ length t = length init /\
    rd t ((y' * width image + x') * 4 + c) =
      if y' <? y
      then toUint8Clamp (chan c (tileMeans image p (x' / p * p) (y' / p * p)))
      else rd init ((y' * width image + x') * 4 + c)).
  destruct (forLoop_inv K
              (fun y out =>
                 forLoop fuel 0 (width image) p
                   (fun x out => Some (Legacy.pixelateTile image p x y out)) out)
              (height image) p ltac:(lia) fuel 0 init)
    as (i' & s' & E & ((_ & _) & Hl & Hrd) & Hi' & _).
  - repeat split; try done. zcases; done.
  - intros y t Hy0 Hyh ((Hyn & Hym) & Hlt & Hrd).
    destruct (pixelate_tile_row y t Hyn ltac:(lia)) as (t' & Et & Hlt' & Hrd').
    exists t'. split; [exact Et|]. split; [|split].
    + split; [lia|apply tile_step_mod; done].
    + lia.
    + rewrite Hrd', Hrd.
      destruct (Z.leb_spec y y'); destruct (Z.ltb_spec y' (y + p));
        destruct (Z.ltb_spec y' y); simpl; try lia; try done.
      rewrite <- (tile_origin p Hp y y') by lia. done.
  - nia.
  - lia.
  - unfold Legacy.pixelateData. cbn [pixelSize]. fold init. rewrite E.
    eexists. split; [reflexivity|]. cbn [width height data].
    repeat split; try done; [lia|].
    rewrite Hrd. destruct (Z.ltb_spec y' i'); [done|lia].
Qed.
End TileLoops.

Lemma tileStep_sum (image : ImageData) (c : Z) (Hc : 0 <= c < 4) (py px : Z)
    (acc : Z * Z * Z * Z * Z) :
  tileSum c (tileStep image py px acc) =
    tileSum c acc + rd (data image) ((py * width image + px) * 4 + c) /\
  tileCount (tileStep image py px acc) = tileCount acc + 1.
Proof.
  destruct acc as [[[[r g] b] a] n]. unfold tileStep, tileSum, tileCount. simpl snd.
  split; [|done].
  assert (c = 0 \/ c = 1 \/ c = 2 \/ c = 3) as [-> | [-> | [-> | ->]]] by lia;
    simpl Z.eqb; cbv iota; rewrite ?Z.add_0_r; done.
Qed.

Section TileSums.
Variables (image : ImageData) (p x y c lo hi : Z).
Hypothesis Hp : 1 <= p.
Hypothesis Hx : 0 <= x < width image.
Hypothesis Hy : 0 <= y < height image.
Hypothesis Hc : 0 <= c < 4.
Hypothesis Hval : forall px py,
  x <= px < Z.min (x + p) (width image) -> y <= py < Z.min (y + p) (height image) ->
  lo <= rd (data image) ((py * width image + px) * 4 + c) <= hi.

Lemma tileSums_row (py : Z) (acc : Z * Z * Z * Z * Z) :
  y <= py < Z.min (y + p) (height image) ->
  let acc' := forRange x (Z.min (x + p) (width image)) (tileStep image py) acc in
  tileCount acc' = tileCount acc + (Z.min (x + p) (width image) - x) /\
  tileSum c acc + lo * (Z.min (x + p) (width image) - x) <= tileSum c acc' /\
  tileSum c acc' <= tileSum c acc + hi * (Z.min (x + p) (width image) - x).
Proof.
  intros Hpy. cbv zeta.
  apply (forRange_ind (fun i t =>
    tileCount t = tileCount acc + (i - x) /\
    tileSum c acc + lo * (i - x) <= tileSum c t /\
    tileSum c t <= tileSum c acc + hi * (i - x))); [lia|lia|].
  intros i t Hi (Hn & Hlo & Hhi).
  destruct (tileStep_sum image c Hc py i t) as [Es En]. rewrite Es, En.
  pose proof (Hval i py Hi Hpy). nia.
Qed.

(** The sums of a tile: their count is the area of the tile, cut at the
    edges of the image, and each sum lies between the count times the
    bounds of the values. *)
Lemma tileSums_bounds :
  let sums := Legacy.tileSums image p x y in
  tileCount sums =
    (Z.min (x + p) (width image) - x) * (Z.min (y + p) (height image) - y) /\
  1 <= tileCount sums /\
  lo * tileCount sums <= tileSum c sums <= hi * tileCount sums.
Proof.
  cbv zeta.
  assert (Esums : Legacy.tileSums image p x y =
            forRange y (Z.min (y + p) (height image))
              (fun py acc => forRange x (Z.min (x + p) (width image)) (tileStep image py) acc)
              (0, 0, 0, 0, 0)) by reflexivity.
  rewrite Esums. clear Esums.
  set (wd := Z.min (x + p) (width image) - x).
  assert (Hwd : 1 <= wd) by (unfold wd; lia).
  assert (HI :
    (fun i t => tileCount t = wd * (i - y) /\
                lo * (wd * (i - y)) <= tileSum c t <= hi * (wd * (i - y)))
      (Z.min (y + p) (height image))
      (forRange y (Z.min (y + p) (height image))
         (fun py acc => forRange x (Z.min (x + p) (width image)) (tileStep image py) acc)
         (0, 0, 0, 0, 0))).
  { apply forRange_ind; [lia| |].
    - unfold tileCount, tileSum. simpl snd.
      assert (c = 0 \/ c = 1 \/ c = 2 \/ c = 3) as [-> | [-> | [-> | ->]]] by lia;
        simpl Z.eqb; cbv iota; lia.
    - intros i t Hi (Hn & Hs).
      destruct (tileSums_row i t Hi) as (En & Hlo & Hhi). fold wd in En, Hlo, Hhi.
      rewrite En. split; [nia|]. nia. }
  cbv beta in HI. destruct HI as (En & Hs).
  rewrite En. split; [ring|]. split; [nia|]. lia.
Qed.
End TileSums.

Lemma tile_origin_range (p u n : Z) :
  1 <= p -> 0 <= u < n -> 0 <= u / p * p < n /\ u / p * p <= u < u / p * p + p /\
  (u / p * p) mod p = 0.
Proof.
  intros Hp Hu.
  pose proof (Z.div_mod u p ltac:(lia)) as Hd.
  pose proof (Z.mod_pos_bound u p ltac:(lia)) as Hm.
  assert (0 <= u / p) by (apply Z.div_pos; lia).
  split; [nia|]. split; [nia|]. apply Z.mod_mul. lia.
Qed.

Lemma Math_round_mean_byte (s n : Z) :
  1 <= n -> 0 * n <= s <= 255 * n -> is_byte (Math_round (inject_Z s / inject_Z n)).
Proof.
  intros Hn Hs. rewrite Math_round_div by lia. unfold is_byte. split.
  - apply Z.div_pos; lia.
  - assert ((2 * s + n) / (2 * n) < 256); [|lia].
    apply Z.div_lt_upper_bound; lia.
Qed.

Lemma Math_round_exact_mean (m n : Z) :
  1 <= n -> Math_round (inject_Z (m * n) / inject_Z n) = m.
Proof.
  intros Hn. rewrite (Math_round_comp _ (inject_Z m)); [apply Math_round_inject|].
  assert (Hq : (0 < inject_Z n)%Q)
    by (change 0%Q with (inject_Z 0); rewrite <- Zlt_Qlt; lia).
  rewrite inject_Z_mult. field. lra.
Qed.

Lemma chan_tileMeans (image : ImageData) (p x y c : Z) :
  0 <= c < 4 ->
  chan c (tileMeans image p x y) =
  inject_Z (Math_round (inject_Z (tileSum c (Legacy.tileSums image p x y))
                        / inject_Z (tileCount (Legacy.tileSums image p x y)))).
Proof.
  intros Hc. unfold tileMeans, tileSum, tileCount, chan.
  destruct (Legacy.tileSums image p x y) as [[[[r g] b] a] n]. simpl snd.
  assert (c = 0 \/ c = 1 \/ c = 2 \/ c = 3) as [-> | [-> | [-> | ->]]] by lia;
    simpl Z.eqb; cbv iota; done.
Qed.

(** The averaging Pixelate ends once the fuel exceeds the width and the
    height, on every image and for every tile size of at least 1. *)
Lemma pixelateData_ends (image : ImageData) (p : Z) (fuel : nat) :
  well_formed image -> 1 <= p ->
  width image < Z.of_nat fuel -> height image < Z.of_nat fuel ->
  exists out,
    Legacy.pixelateData fuel image {| pixelSize := p |} = Some out /\
    width out = width image /\ height out = height image /\
    length (data out) = length (data image).
Proof.
  intros Hwf Hp Hfw Hfh. pose proof Hwf as (Hw & Hh & Hlen & _).
  pose proof (length_createImageData _ _ Hw Hh) as Hlen0.
  set (init := data (createImageData (width image) (height image))) in *.
  destruct (forLoop_inv (fun _ t => length t = length init)
              (fun y out =>
                 forLoop fuel 0 (width image) p
                   (fun x out => Some (Legacy.pixelateTile image p x y out)) out)
              (height image) p ltac:(lia) fuel 0 init)
    as (i' & s' & E & Hl & _).
  - done.
  - intros y t _ _ Ht.
    destruct (forLoop_inv (fun _ u => length u = length init)
                (fun x out => Some (Legacy.pixelateTile image p x y out))
                (width image) p ltac:(lia) fuel 0 t)
      as (j' & t' & Et & Hlt & _); [done| |nia|lia|eauto].
    intros x u _ _ Hu. eexists. split; [reflexivity|].
    rewrite pixelateTile_raster, length_raster. done.
  - nia.
  - lia.
  - unfold Legacy.pixelateData. cbn [pixelSize]. fold init. rewrite E.
    eexists. split; [reflexivity|]. cbn [width height data].
    repeat split; try done. lia.
Qed.

Lemma sumZ_nil (lo hi : Z) (f : Z -> Z) : hi <= lo -> sumZ lo hi f = 0.
Proof. intros H. unfold sumZ. rewrite seqZ_nil by lia. done. Qed.

Lemma sumZ_snoc (lo hi : Z) (f : Z -> Z) :
  lo <= hi -> sumZ lo (hi + 1) f = sumZ lo hi f + f hi.
Proof.
  intros H. unfold sumZ.
  replace (hi + 1 - lo) with ((hi - lo) + 1) by lia.
  rewrite seqZ_app by lia. rewrite fmap_app, foldr_app.
  rewrite (seqZ_cons _ 1) by lia. rewrite (seqZ_nil _ (Z.pred 1)) by lia.
  replace (lo + (hi - lo)) with hi by lia. simpl.
  generalize (f <$> seqZ lo (hi - lo)). intros l.
  induction l as [|a l IH]; simpl; lia.
Qed.

(** The summing loops of the averaging Pixelate compute, in every channel,
    the sum over the rectangle they walk. *)
Lemma tileSums_total (image : ImageData) (p x y c : Z) :
  1 <= p -> 0 <= x < width image -> 0 <= y < height image -> 0 <= c < 4 ->
  tileSum c (Legacy.tileSums image p x y) =
  tileTotal image c x (Z.min (x + p) (width image)) y (Z.min (y + p) (height image)).
Proof.
  intros Hp Hx Hy Hc.
  assert (Esums : Legacy.tileSums image p x y =
            forRange y (Z.min (y + p) (height image))
              (fun py acc => forRange x (Z.min (x + p) (width image)) (tileStep image py) acc)
              (0, 0, 0, 0, 0)) by reflexivity.
  rewrite Esums. clear Esums. unfold tileTotal.
  set (x1 := Z.min (x + p) (width image)).
  set (f := fun py px => rd (data image) ((py * width image + px) * 4 + c)).
  assert (Hrow : forall py acc,
    tileSum c (forRange x x1 (tileStep image py) acc) = tileSum c acc + sumZ x x1 (f py)).
  { intros py acc.
    apply (forRange_ind (fun i t => tileSum c t = tileSum c acc + sumZ x i (f py)));
      [unfold x1; lia | rewrite sumZ_nil by lia; lia |].
    intros i t Hi Ht.
    destruct (tileStep_sum image c Hc py i t) as [Es _].
    rewrite Es, Ht, sumZ_snoc by lia. unfold f. lia. }
  apply (forRange_ind (fun i t => tileSum c t = sumZ y i (fun py => sumZ x x1 (f py))));
    [lia | | ].
  - rewrite sumZ_nil by lia. unfold tileSum.
    assert (c = 0 \/ c = 1 \/ c = 2 \/ c = 3) as [-> | [-> | [-> | ->]]] by lia; done.
  - intros i t Hi Ht. rewrite Hrow, Ht, sumZ_snoc by lia. done.
Qed.

(** X13. The averaging Pixelate, for every image and every tile size of at
    least 1: it ends once the fuel exceeds the width and the height, it
    keeps the size of the buffer, and every byte of the output, alpha
    included, is the mean of its channel over the tile that holds the
    pixel, rounded half up; a tile is cut at the right and bottom edges of
    the image and its mean is taken over the pixels it keeps. *)
Theorem pixelate_writes_tile_means (image : ImageData) (params : PixelateParams)
    (fuel : nat) (x y c : Z) :
  well_formed image -> 1 <= pixelSize params ->
  width image < Z.of_nat fuel -> height image < Z.of_nat fuel ->
  0 <= x < width image -> 0 <= y < height image -> 0 <= c < 4 ->
  exists out,
    Legacy.applyPixelateEffect fuel image params = Some [PutImageData out] /\
    width out = width image /\ height out = height image /\
    length (data out) = length (data image) /\
    rd (data out) ((y * width image + x) * 4 + c) = tileMean image (pixelSize params) x y c.
Proof.
  destruct params as [p]. cbn [pixelSize].
  intros Hwf Hp Hfw Hfh Hx Hy Hc.
  destruct (pixelate_tiles image p fuel Hwf Hp Hfw Hfh x y c Hx Hy Hc)
    as (out & E & Hw & Hh & Hl & Hrd).
  destruct (tile_origin_range p x (width image) Hp Hx) as (Hx0 & _ & _).
  destruct (tile_origin_range p y (height image) Hp Hy) as (Hy0 & _ & _).
  destruct (tileSums_bounds image p (x / p * p) (y / p * p) c 0 255 Hp Hx0 Hy0 Hc)
    as (Hn & Hn1 & Hs).
  { intros px py _ _. apply rd_byte. apply Hwf. }
  exists out. unfold Legacy.applyPixelateEffect. rewrite E.
  split; [done|]. repeat split; try done.
  rewrite Hrd, chan_tileMeans by done.
  rewrite toUint8Clamp_inject by (apply Math_round_mean_byte; lia).
  unfold tileMean, tileEnd, tileStart. cbv zeta.
  rewrite <- (tileSums_total image p (x / p * p) (y / p * p) c Hp Hx0 Hy0 Hc).
  rewrite Hn. done.
Qed.

Lemma rd_lookup (d : list Z) (i : nat) (v : Z) : d !! i = Some v -> rd d (Z.of_nat i) = v.
Proof.
  intros E. unfold rd. destruct (Z.ltb_spec (Z.of_nat i) 0); [lia|].
  rewrite Nat2Z.id, E. done.
Qed.

Lemma Forall_rd (P : Z -> Prop) (d : list Z) :
  (forall j, 0 <= j < Z.of_nat (length d) -> P (rd d j)) -> Forall P d.
Proof.
  intros H. apply Forall_lookup. intros i v E.
  rewrite <- (rd_lookup d i v E). apply H.
  apply lookup_lt_Some in E. lia.
Qed.

Lemma imageData_eq (a b : ImageData) :
  width a = width b -> height a = height b -> data a = data b -> a = b.
Proof. destruct a, b. simpl. intros -> -> ->. done. Qed.

Section PixelateTwice.
Variables (image : ImageData) (p : Z) (fuel : nat).
Hypothesis Hwf : well_formed image.
Hypothesis Hp : 1 <= p.
Hypothesis Hfw : width image < Z.of_nat fuel.
Hypothesis Hfh : height image < Z.of_nat fuel.

(** The output of one pass, with what it holds at every pixel. *)
Lemma pixelate_pass :
  exists out,
    Legacy.pixelateData fuel image {| pixelSize := p |} = Some out /\
    width out = width image /\ height out = height image /\
    well_formed out /\
    forall x y c, 0 <= x < width image -> 0 <= y < height image -> 0 <= c < 4 ->
      rd (data out) ((y * width image + x) * 4 + c) =
      toUint8Clamp (chan c (tileMeans image p (x / p * p) (y / p * p))).
Proof.
  destruct (pixelateData_ends image p fuel Hwf Hp Hfw Hfh) as (out & E & Hw & Hh & Hl).
  pose proof Hwf as (Hw0 & Hh0 & Hlen & _).
  assert (Hrd : forall x y c, 0 <= x < width image -> 0 <= y < height image -> 0 <= c < 4 ->
      rd (data out) ((y * width image + x) * 4 + c) =
      toUint8Clamp (chan c (tileMeans image p (x / p * p) (y / p * p)))).
  { intros x y c Hx Hy Hc.
    destruct (pixelate_tiles image p fuel Hwf Hp Hfw Hfh x y c Hx Hy Hc)
      as (out' & E' & _ & _ & _ & Hrd).
    rewrite E in E'. injection E' as <-. exact Hrd. }
  exists out. repeat split; try done; try lia.
  apply Forall_rd. intros j Hj. rewrite Hl, Hlen in Hj.
  destruct (index_decompose _ _ j Hw0 Hh0 Hj) as (x & y & c & Hx & Hy & Hc & ->).
  rewrite Hrd by done. apply toUint8Clamp_byte.
Qed.
End PixelateTwice.

(** X14. With tiles of one pixel the averaging Pixelate gives the image back. *)
Theorem pixelate_size_one_is_identity (image : ImageData) (fuel : nat) :
  well_formed image ->
  width image < Z.of_nat fuel -> height image < Z.of_nat fuel ->
  Legacy.applyPixelateEffect fuel image {| pixelSize := 1 |} = Some [PutImageData image].
Proof.
  intros Hwf Hfw Hfh.
  destruct (pixelate_pass image 1 fuel Hwf ltac:(lia) Hfw Hfh)
    as (out & E & Hw & Hh & Hwfo & Hrd).
  unfold Legacy.applyPixelateEffect. rewrite E. simpl. do 3 f_equal.
  pose proof Hwf as (Hw0 & Hh0 & Hlen & Hbytes).
  pose proof Hwfo as (_ & _ & Hleno & _). rewrite Hw, Hh in Hleno.
  apply imageData_eq; [done|done|].
  apply rd_ext; [lia|].
  intros j Hj. rewrite Hleno in Hj.
  destruct (index_decompose _ _ j Hw0 Hh0 Hj) as (x & y & c & Hx & Hy & Hc & ->).
  rewrite Hrd by done. rewrite !Z.div_1_r, !Z.mul_1_r.
  rewrite chan_tileMeans by done.
  destruct (tileSums_bounds image 1 x y c
              (rd (data image) ((y * width image + x) * 4 + c))
              (rd (data image) ((y * width image + x) * 4 + c))
              ltac:(lia) Hx Hy Hc) as (Hn & _ & Hs).
  { intros px py Hpx Hpy. assert (px = x) as -> by lia. assert (py = y) as -> by lia. lia. }
  assert (Hn1 : tileCount (Legacy.tileSums image 1 x y) = 1) by (rewrite Hn, !Z.min_l by lia; lia).
  rewrite Hn1 in *.
  assert (Es : tileSum c (Legacy.tileSums image 1 x y) =
               rd (data image) ((y * width image + x) * 4 + c) * 1) by lia.
  rewrite Es, Math_round_exact_mean by lia.
  apply toUint8Clamp_inject. apply rd_byte. done.
Qed.

Lemma pixelate_size_one_is_identity_witness :
  well_formed sampleSquare /\
  Legacy.applyPixelateEffect 3 sampleSquare {| pixelSize := 1 |} =
    Some [PutImageData sampleSquare].
Proof.
  assert (Hwf : well_formed sampleSquare).
  { unfold well_formed. simpl. repeat split; try lia.
    repeat constructor; unfold is_byte; lia. }
  split; [exact Hwf|].
  exact (pixelate_size_one_is_identity sampleSquare 3 Hwf ltac:(simpl; lia) ltac:(simpl; lia)).
Defined.

(** X15. Pixelating a pixelated image with the same tile size changes nothing:
    every tile of the output is uniform, so its mean is its value. *)
Theorem pixelate_is_idempotent (image : ImageData) (params : PixelateParams)
    (fuel : nat) :
  well_formed image -> 1 <= pixelSize params ->
  width image < Z.of_nat fuel -> height image < Z.of_nat fuel ->
  exists out,
    Legacy.applyPixelateEffect fuel image params = Some [PutImageData out] /\
    Legacy.applyPixelateEffect fuel out params = Some [PutImageData out].
Proof.
  destruct params as [p]. cbn [pixelSize]. intros Hwf Hp Hfw Hfh.
  destruct (pixelate_pass image p fuel Hwf Hp Hfw Hfh)
    as (out & E & Hw & Hh & Hwfo & Hrd).
  destruct (pixelate_pass out p fuel Hwfo Hp ltac:(lia) ltac:(lia))
    as (out2 & E2 & Hw2 & Hh2 & Hwfo2 & Hrd2).
  exists out. unfold Legacy.applyPixelateEffect. rewrite E, E2. simpl.
  split; [done|]. do 3 f_equal.
  pose proof Hwfo as (Hw0 & Hh0 & Hleno & _).
  pose proof Hwfo2 as (_ & _ & Hleno2 & _). rewrite Hw2, Hh2 in Hleno2.
  apply imageData_eq; [done|done|].
  apply rd_ext; [lia|].
  intros j Hj. rewrite Hleno2 in Hj.
  destruct (index_decompose _ _ j Hw0 Hh0 Hj) as (x & y & c & Hx & Hy & Hc & ->).
  rewrite Hrd2 by done. rewrite chan_tileMeans by done.
  destruct (tile_origin_range p x (width out) Hp Hx) as (Hx0 & Hxin & Hxm).
  destruct (tile_origin_range p y (height out) Hp Hy) as (Hy0 & Hyin & Hym).
  set (m := rd (data out) ((y * width out + x) * 4 + c)).
  destruct (tileSums_bounds out p (x / p * p) (y / p * p) c m m Hp Hx0 Hy0 Hc)
    as (Hn & Hn1 & Hs).
  { intros px py Hpx Hpy. unfold m.
    rewrite Hw in *. rewrite Hh in *.
    rewrite (Hrd px py c) by lia. rewrite (Hrd x y c) by lia.
    rewrite <- (tile_origin p Hp (x / p * p) px) by lia.
    rewrite <- (tile_origin p Hp (y / p * p) py) by lia.
    lia. }
  assert (Es : tileSum c (Legacy.tileSums out p (x / p * p) (y / p * p)) =
               m * tileCount (Legacy.tileSums out p (x / p * p) (y / p * p))) by lia.
  rewrite Es, Math_round_exact_mean by lia.
  apply toUint8Clamp_inject. unfold m. apply rd_byte. apply Hwfo.
Qed.

Lemma pixelate_is_idempotent_witness :
  well_formed sampleSquare /\
  exists out,
    Legacy.applyPixelateEffect 3 sampleSquare {| pixelSize := 2 |} = Some [PutImageData out] /\
    Legacy.applyPixelateEffect 3 out {| pixelSize := 2 |} = Some [PutImageData out].
Proof.
  assert (Hwf : well_formed sampleSquare).
  { unfold well_formed. simpl. repeat split; try lia.
    repeat constructor; unfold is_byte; lia. }
  split; [exact Hwf|].
  exact (pixelate_is_idempotent sampleSquare {| pixelSize := 2 |} 3 Hwf
           ltac:(simpl; lia) ltac:(simpl; lia) ltac:(simpl; lia)).
Defined.

Lemma pixelate_writes_tile_means_witness :
  well_formed sampleSquare /\
  exists out,
    Legacy.applyPixelateEffect 3 sampleSquare {| pixelSize := 2 |} = Some [PutImageData out] /\
    rd (data out) ((1 * 2 + 1) * 4 + 3) = 4.
Proof.
  assert (Hwf : well_formed sampleSquare).
  { unfold well_formed. simpl. repeat split; try lia.
    repeat constructor; unfold is_byte; lia. }
  split; [exact Hwf|].
  destruct (pixelate_writes_tile_means sampleSquare {| pixelSize := 2 |} 3 1 1 3 Hwf
              ltac:(simpl; lia) ltac:(simpl; lia) ltac:(simpl; lia)
              ltac:(simpl; lia) ltac:(simpl; lia) ltac:(lia))
    as (out & E & _ & _ & _ & Hrd).
  exists out. split; [exact E|]. exact Hrd.
Defined.

(** ** Vintage *)

Lemma pixel_div (k c : Z) : 0 <= c < 4 -> (4 * k + c) / 4 = k.
Proof. intros Hc. symmetry. apply (Z.div_unique _ 4 k c); lia. Qed.

Lemma pixel_mod (k c : Z) : 0 <= c < 4 -> (4 * k + c) mod 4 = c.
Proof. intros Hc. symmetry. apply (Z.mod_unique _ 4 k c); lia. Qed.

Lemma length_vintageBody `{JSMath} params i d : length (vintageBody params i d) = length d.
Proof. unfold vintageBody. rewrite !length_store. done. Qed.

Lemma rd_vintageBody `{JSMath} (params : VintageParams) (k : Z) (d : list Z) (j : Z) :
  0 <= k -> 4 * k + 3 < Z.of_nat (length d) -> 0 <= j < Z.of_nat (length d) ->
  rd (vintageBody params (0 + k * 4) d) j =
  if (4 * k <=? j) && (j <? 4 * (k + 1)) then vintageResult params d j else rd d j.
Proof.
  intros Hk Hin Hj.
  assert (Hcases : j < 4 * k \/ 4 * (k + 1) <= j \/
                   exists c, 0 <= c < 4 /\ j = 4 * k + c).
  { destruct (Z.ltb_spec j (4 * k)); [lia|].
    destruct (Z.leb_spec (4 * (k + 1)) j); [lia|].
    right. right. exists (j - 4 * k). lia. }
  replace (0 + k * 4) with (4 * k) by lia.
  unfold vintageBody, vintageResult, grainAt.
  rewrite !rd_store_full, !length_store.
  destruct Hcases as [Hlt | [Hge | (c & Hc & ->)]].
  - zcases; simpl; done.
  - zcases; simpl; done.
  - rewrite pixel_div, pixel_mod by done.
    replace (4 * k / 4) with k by (rewrite Z.mul_comm, Z.div_mul; lia).
    assert (Hc4 : c = 0 \/ c = 1 \/ c = 2 \/ c = 3) by lia.
    unfold sepiaTone.
    destruct Hc4 as [-> | [-> | [-> | ->]]]; zcases; simpl; try done;
      repeat f_equal; lia.
Qed.

Lemma vintageResult_ext `{JSMath} (params : VintageParams) (s d : list Z) (j : Z) :
  (forall c, 0 <= c < 4 -> rd s (4 * (j / 4) + c) = rd d (4 * (j / 4) + c)) ->
  vintageResult params s j = vintageResult params d j.
Proof.
  intros Hsame. unfold vintageResult.
  pose proof (Z.div_mod j 4 ltac:(lia)) as Hd.
  pose proof (Z.mod_pos_bound j 4 ltac:(lia)) as Hm.
  assert (Ej : rd s j = rd d j).
  { pose proof (Hsame (j mod 4) Hm) as E. rewrite <- Hd in E. exact E. }
  rewrite Ej.
  pose proof (Hsame 0 ltac:(lia)) as E0. rewrite Z.add_0_r in E0.
  rewrite E0, (Hsame 1), (Hsame 2) by lia. done.
Qed.

(** The in-place loop of Vintage rewrites the three colour bytes of every
    pixel from the three old ones and leaves every fourth byte alone. *)
Lemma vintageData_rd `{JSMath} (image : ImageData) (params : VintageParams) :
  Z.of_nat (length (data image)) mod 4 = 0 ->
  length (data (vintageData image params)) = length (data image) /\
  forall j, 0 <= j < Z.of_nat (length (data image)) ->
    rd (data (vintageData image params)) j = vintageResult params (data image) j.
Proof.
  intros Hmod. unfold vintageData. simpl.
  set (d := data image) in *.
  set (len := Z.of_nat (length d)) in *.
  unfold forStride.
  set (n := (len - 0 + 4 - 1) / 4).
  assert (Hlen4 : len = 4 * n).
  { unfold n. pose proof (Z.div_mod len 4 ltac:(lia)) as Hd. rewrite Hmod in Hd.
    replace (len - 0 + 4 - 1) with (4 * (len / 4) + 3) by lia.
    rewrite pixel_div by lia. lia. }
  assert (Hn : 0 <= n) by lia.
  pose (I := fun (k : Z) (s : list Z) =>
    length s = length d /\
    forall j, 0 <= j < len ->
      rd s j = if j <? 4 * k then vintageResult params d j else rd d j).
  assert (HI : I n (forRange 0 n (fun k => vintageBody params (0 + k * 4)) d)).
  { apply forRange_ind; [done| |].
    - split; [done|]. intros j Hj. destruct (Z.ltb_spec j (4 * 0)); [lia|done].
    - intros k s Hk [Hl Hrd]. split.
      + rewrite length_vintageBody. done.
      + intros j Hj. rewrite rd_vintageBody by (rewrite ?Hl; fold len; lia).
        destruct (Z.leb_spec (4 * k) j); destruct (Z.ltb_spec j (4 * (k + 1)));
          destruct (Z.ltb_spec j (4 * k)); simpl; try lia;
          try (rewrite (Hrd j Hj); destruct (Z.ltb_spec j (4 * k)); [lia || done | lia || done]).
        apply vintageResult_ext. intros c Hc.
        assert (Ejk : j / 4 = k).
        { symmetry. apply (Z.div_unique _ 4 k (j - 4 * k)); lia. }
        rewrite Ejk. rewrite Hrd by lia.
        destruct (Z.ltb_spec (4 * k + c) (4 * k)); [lia|done]. }
  destruct HI as [Hl Hrd]. split; [done|].
  intros j Hj. rewrite (Hrd j Hj). destruct (Z.ltb_spec j (4 * n)); [done|lia].
Qed.

Lemma well_formed_mod4 (image : ImageData) :
  well_formed image -> Z.of_nat (length (data image)) mod 4 = 0.
Proof.
  intros (_ & _ & Hlen & _). rewrite Hlen.
  replace (4 * width image * height image) with (width image * height image * 4) by lia.
  apply Z.mod_mul. lia.
Qed.

Lemma applyVintageEffect_puts `{JSMath} (image : ImageData) (params : VintageParams) :
  applyVintageEffect image params !! 1%nat = Some (PutImageData (vintageData image params)).
Proof. reflexivity. Qed.

Lemma toUint8Clamp_exact (x : Q) (v : Z) :
  is_byte v -> (x == inject_Z v)%Q -> toUint8Clamp x = v.
Proof.
  intros Hv Hx.
  pose proof (toUint8Clamp_between x v v Hv Hv) as Hb.
  assert (inject_Z v <= x <= inject_Z v)%Q by (split; lra).
  specialize (Hb H). lia.
Qed.

(** Storing is monotone: rounding to nearest, ties to even, never swaps two
    numbers. *)
Lemma toUint8Clamp_mono (x y : Q) : (x <= y)%Q -> toUint8Clamp x <= toUint8Clamp y.
Proof.
  intros Hxy.
  pose proof (toUint8Clamp_byte x) as Hbx. pose proof (toUint8Clamp_byte y) as Hby.
  unfold is_byte in *. revert Hbx Hby. unfold toUint8Clamp.
  destruct (Qle_bool x 0) eqn:Ex0; [lia|].
  destruct (Qle_bool y 0) eqn:Ey0.
  { apply Qle_bool_true in Ey0. apply Qle_bool_false in Ex0. lra. }
  destruct (Qle_bool 255 y) eqn:Ey1; [lia|].
  destruct (Qle_bool 255 x) eqn:Ex1.
  { apply Qle_bool_true in Ex1. apply Qle_bool_false in Ey1. lra. }
  pose proof (Qfloor_resp_le x y Hxy) as Hf.
  pose proof (Qfloor_le x) as Hx1. pose proof (Qlt_floor x) as Hx2.
  pose proof (Qfloor_le y) as Hy1. pose proof (Qlt_floor y) as Hy2.
  rewrite inject_Z_succ in Hx2, Hy2.
  destruct (Z.eq_dec (Qfloor x) (Qfloor y)) as [Ef | Hne].
  - rewrite Ef in *.
    destruct (Qltb (inject_Z (Qfloor y) + (1 # 2)) x) eqn:E1;
      destruct (Qltb (inject_Z (Qfloor y) + (1 # 2)) y) eqn:E2;
      destruct (Qltb x (inject_Z (Qfloor y) + (1 # 2))) eqn:E3;
      destruct (Qltb y (inject_Z (Qfloor y) + (1 # 2))) eqn:E4;
      try (apply Qltb_true in E1); try (apply Qltb_false in E1);
      try (apply Qltb_true in E2); try (apply Qltb_false in E2);
      try (apply Qltb_true in E3); try (apply Qltb_false in E3);
      try (apply Qltb_true in E4); try (apply Qltb_false in E4);
      try lra; destruct (Z.even (Qfloor y)); lia.
  - assert (Qfloor x + 1 <= Qfloor y) by lia.
    repeat match goal with |- context [if ?b then _ else _] => destruct b end; lia.
Qed.

Lemma samplePixel_well_formed : well_formed samplePixel.
Proof.
  unfold well_formed. simpl. repeat split; try lia.
  repeat constructor; unfold is_byte; lia.
Defined.

Lemma pixel_channel_index (w h x y c : Z) :
  0 <= x < w -> 0 <= y < h -> 0 <= c < 4 ->
  ((y * w + x) * 4 + c) / 4 = y * w + x /\ ((y * w + x) * 4 + c) mod 4 = c /\
  0 <= (y * w + x) * 4 + c < 4 * w * h.
Proof.
  intros Hx Hy Hc.
  replace ((y * w + x) * 4 + c) with (4 * (y * w + x) + c) by lia.
  rewrite pixel_div, pixel_mod by done. repeat split; nia.
Qed.

(** X16. The alpha bytes pass through Vintage, and what it puts back is again an
    image buffer of the same size. *)
Theorem vintage_keeps_alpha `{JSMath} (image : ImageData) (params : VintageParams) :
  well_formed image ->
  exists toned,
    applyVintageEffect image params !! 1%nat = Some (PutImageData toned) /\
    well_formed toned /\
    width toned = width image /\ height toned = height image /\
    forall x y, 0 <= x < width image -> 0 <= y < height image ->
      rd (data toned) ((y * width image + x) * 4 + 3) =
      rd (data image) ((y * width image + x) * 4 + 3).
Proof.
  intros Hwf. exists (vintageData image params).
  destruct (vintageData_rd image params (well_formed_mod4 image Hwf)) as [Hl Hrd].
  pose proof Hwf as (Hw0 & Hh0 & Hlen & Hbytes).
  split; [reflexivity|]. split; [|split; [done|split; [done|]]].
  - unfold well_formed. change (width (vintageData image params)) with (width image).
    change (height (vintageData image params)) with (height image).
    rewrite Hl. repeat split; try done.
    apply Forall_rd. intros j Hj. rewrite Hl in Hj. rewrite Hrd by done.
    unfold vintageResult. destruct (j mod 4 =? 3).
    + apply rd_byte. done.
    + apply toUint8Clamp_byte.
  - intros x y Hx Hy.
    destruct (pixel_channel_index (width image) (height image) x y 3 Hx Hy ltac:(lia))
      as (_ & Em & Hin).
    rewrite Hrd by lia. unfold vintageResult. rewrite Em. done.
Qed.

Lemma vintage_keeps_alpha_witness :
  well_formed samplePixel /\
  exists toned,
    @applyVintageEffect (sampleMath (7 # 8)) samplePixel
      {| sepia := 80; grain := 20; vignette := 50 |} !! 1%nat = Some (PutImageData toned) /\
    rd (data toned) 3 = 77.
Proof.
  split; [exact samplePixel_well_formed|].
  destruct (@vintage_keeps_alpha (sampleMath (7 # 8)) samplePixel
              {| sepia := 80; grain := 20; vignette := 50 |} samplePixel_well_formed)
    as (toned & E & _ & _ & _ & Ha).
  exists toned. split; [exact E|].
  exact (Ha 0 0 ltac:(simpl; lia) ltac:(simpl; lia)).
Defined.

Lemma sepiaTone_plain (params : VintageParams) (r g b c : Z) :
  (sepia params == 0)%Q -> is_byte r -> is_byte g -> is_byte b ->
  toUint8Clamp (sepiaTone params r g b c) =
  if c =? 0 then r else if c =? 1 then g else b.
Proof.
  intros Hs Hr Hg Hb.
  pose proof (inject_Z_byte r Hr). pose proof (inject_Z_byte g Hg).
  pose proof (inject_Z_byte b Hb).
  assert (Hs' : (sepia params / 100 == 0)%Q) by (rewrite Hs; reflexivity).
  unfold sepiaTone. set (s := (sepia params / 100)%Q) in *.
  destruct (c =? 0); [|destruct (c =? 1)];
    (apply toUint8Clamp_exact; [done|]); unfold Math_min; qcases; nra.
Qed.

Lemma grain_none (v : Z) (g : Q) :
  is_byte v -> (g == 0)%Q ->
  toUint8Clamp (Math_max 0 (Math_min 255 (inject_Z v + g))) = v.
Proof.
  intros Hv Hg. pose proof (inject_Z_byte v Hv).
  apply toUint8Clamp_exact; [done|]. unfold Math_max, Math_min. qcases; lra.
Qed.

(** X17. With no sepia and no grain the buffer that Vintage puts back is the
    image, whatever the host draws. *)
Theorem vintage_plain_is_identity `{JSMath} (image : ImageData) (params : VintageParams) :
  well_formed image -> (sepia params == 0)%Q -> (grain params == 0)%Q ->
  applyVintageEffect image params !! 1%nat = Some (PutImageData image).
Proof.
  intros Hwf Hs Hg. rewrite applyVintageEffect_puts. do 2 f_equal.
  destruct (vintageData_rd image params (well_formed_mod4 image Hwf)) as [Hl Hrd].
  pose proof Hwf as (Hw0 & Hh0 & Hlen & Hbytes).
  apply imageData_eq; [done|done|].
  apply rd_ext; [done|].
  intros j Hj. rewrite Hl in Hj. rewrite Hrd by done.
  unfold vintageResult.
  destruct (Z.eqb_spec (j mod 4) 3) as [|Hne]; [done|].
  cbv zeta.
  rewrite sepiaTone_plain by (try done; apply rd_byte; done).
  pose proof (Z.div_mod j 4 ltac:(lia)) as Hd.
  pose proof (Z.mod_pos_bound j 4 ltac:(lia)) as Hm.
  assert (Eg : (grainAt params (4 * (j / 4)) == 0)%Q).
  { unfold grainAt. rewrite Hg. ring. }
  assert (Ev : (if j mod 4 =? 0 then rd (data image) (4 * (j / 4))
                else if j mod 4 =? 1 then rd (data image) (4 * (j / 4) + 1)
                else rd (data image) (4 * (j / 4) + 2)) = rd (data image) j).
  { zcases; f_equal; lia. }
  rewrite Ev. apply grain_none; [apply rd_byte; done|done].
Qed.

Lemma vintage_plain_is_identity_witness :
  well_formed samplePixel /\
  @applyVintageEffect (sampleMath (7 # 8)) samplePixel
    {| sepia := 0; grain := 0; vignette := 50 |} !! 1%nat = Some (PutImageData samplePixel).
Proof.
  split; [exact samplePixel_well_formed|].
  exact (@vintage_plain_is_identity (sampleMath (7 # 8)) samplePixel
           {| sepia := 0; grain := 0; vignette := 50 |} samplePixel_well_formed
           (Qeq_refl _) (Qeq_refl _)).
Defined.

Lemma sepiaTone_full_order (params : VintageParams) (r g b : Z) :
  (sepia params == 100)%Q -> is_byte r -> is_byte g -> is_byte b ->
  (sepiaTone params r g b 2 <= sepiaTone params r g b 1)%Q /\
  (sepiaTone params r g b 1 <= sepiaTone params r g b 0)%Q.
Proof.
  intros Hs Hr Hg Hb.
  pose proof (inject_Z_byte r Hr). pose proof (inject_Z_byte g Hg).
  pose proof (inject_Z_byte b Hb).
  assert (Hs' : (sepia params / 100 == 1)%Q) by (rewrite Hs; reflexivity).
  unfold sepiaTone. set (s := (sepia params / 100)%Q) in *.
  simpl Z.eqb. cbv iota.
  split; unfold Math_min; qcases; nra.
Qed.

Lemma grain_mono (u v : Z) (g : Q) :
  u <= v ->
  toUint8Clamp (Math_max 0 (Math_min 255 (inject_Z u + g))) <=
  toUint8Clamp (Math_max 0 (Math_min 255 (inject_Z v + g))).
Proof.
  intros Huv. apply toUint8Clamp_mono.
  rewrite Zle_Qle in Huv. unfold Math_max, Math_min. qcases; lra.
Qed.

(** X18. At full sepia every pixel comes out with blue <= green <= red, whatever
    the grain: the tone matrix orders the channels and the one grain value
    of a pixel is added to all three. *)
Theorem vintage_full_sepia_orders_channels `{JSMath} (image : ImageData)
    (params : VintageParams) (x y : Z) :
  well_formed image -> (sepia params == 100)%Q ->
  0 <= x < width image -> 0 <= y < height image ->
  exists toned,
    applyVintageEffect image params !! 1%nat = Some (PutImageData toned) /\
    rd (data toned) ((y * width image + x) * 4 + 2) <=
      rd (data toned) ((y * width image + x) * 4 + 1) /\
    rd (data toned) ((y * width image + x) * 4 + 1) <=
      rd (data toned) ((y * width image + x) * 4).
Proof.
  intros Hwf Hs Hx Hy. exists (vintageData image params).
  split; [reflexivity|].
  destruct (vintageData_rd image params (well_formed_mod4 image Hwf)) as [Hl Hrd].
  pose proof Hwf as (Hw0 & Hh0 & Hlen & Hbytes).
  destruct (pixel_channel_index (width image) (height image) x y 0 Hx Hy ltac:(lia))
    as (Ed0 & Em0 & Hin0).
  destruct (pixel_channel_index (width image) (height image) x y 1 Hx Hy ltac:(lia))
    as (Ed1 & Em1 & Hin1).
  destruct (pixel_channel_index (width image) (height image) x y 2 Hx Hy ltac:(lia))
    as (Ed2 & Em2 & Hin2).
  rewrite Z.add_0_r in Ed0, Em0, Hin0.
  rewrite !Hrd by lia. unfold vintageResult.
  rewrite Ed0, Ed1, Ed2, Em0, Em1, Em2. simpl Z.eqb. cbv iota zeta.
  set (i := 4 * (y * width image + x)).
  destruct (sepiaTone_full_order params (rd (data image) i) (rd (data image) (i + 1))
              (rd (data image) (i + 2)) Hs
              (rd_byte _ _ Hbytes) (rd_byte _ _ Hbytes) (rd_byte _ _ Hbytes)) as [H21 H10].
  split; apply grain_mono, toUint8Clamp_mono; done.
Qed.

Lemma vintage_full_sepia_orders_channels_witness :
  well_formed samplePixel /\
  exists toned,
    @applyVintageEffect (sampleMath (7 # 8)) samplePixel
      {| sepia := 100; grain := 20; vignette := 50 |} !! 1%nat = Some (PutImageData toned) /\
    rd (data toned) 2 <= rd (data toned) 1 /\ rd (data toned) 1 <= rd (data toned) 0.
Proof.
  split; [exact samplePixel_well_formed|].
  exact (@vintage_full_sepia_orders_channels (sampleMath (7 # 8)) samplePixel
           {| sepia := 100; grain := 20; vignette := 50 |} 0 0 samplePixel_well_formed
           (Qeq_refl _) ltac:(simpl; lia) ltac:(simpl; lia)).
Defined.

(** ** Glass refraction: where a colour byte comes from *)

Lemma glass_colour `{JSMath} (image : ImageData) (params : GlassRefractionParams)
    (x y c : Z) :
  0 <= c < 3 ->
  chan c (glassPx image params x y) =
  inject_Z (Z.max 0 (Z.min 255 (Math_round
    (inject_Z (rd (data image)
       ((snd (glassSource image params x y) * width image
         + glassTap image params x y c) * 4 + c))
     * brightnessFactor image params x y)))).
Proof.
  intros Hc. unfold glassPx, glassTap. cbv zeta.
  destruct (glassSource image params x y) as [cx cy]. cbn [fst snd].
  assert (Hc3 : c = 0 \/ c = 1 \/ c = 2) by lia.
  destruct (Qltb (3 # 10) (intensity params / 100)
            && (0 <? Math_floor (amplitude params * (intensity params / 100) * (5 # 10))));
    destruct Hc3 as [-> | [-> | ->]]; simpl; rewrite ?Z.add_0_r; reflexivity.
Qed.

Lemma glassTap_range `{JSMath} (image : ImageData) (params : GlassRefractionParams)
    (x y c : Z) :
  0 < width image -> 0 < height image ->
  0 <= glassTap image params x y c < width image.
Proof.
  intros Hw Hh. pose proof (glassSource_range image params x y Hw Hh) as [Hx _].
  unfold glassTap. cbv zeta.
  repeat match goal with |- context [if ?b then _ else _] => destruct b end; lia.
Qed.

(** X19. Each colour byte that GlassRefraction writes is a byte of the same
    channel of the input, read in the sampled row at a column inside the
    image, and brightened or darkened by at most a tenth (and the half unit
    of the rounding) when the intensity is between 0 and 100. *)
Theorem glass_colour_within_tenth `{JSMath} (image : ImageData)
    (params : GlassRefractionParams) (x y c : Z) :
  well_formed image ->
  (0 <= intensity params <= 100)%Q ->
  (-1 <= Math_sin (combinedWave image params x y * Math_PI) <= 1)%Q ->
  0 <= x < width image -> 0 <= y < height image -> 0 <= c < 3 ->
  exists sx sy,
    0 <= sx < width image /\ 0 <= sy < height image /\
    sy = snd (glassSource image params x y) /\
    10 * Z.abs (rd (data (glassData image params)) ((y * width image + x) * 4 + c)
                - rd (data image) ((sy * width image + sx) * 4 + c))
    <= rd (data image) ((sy * width image + sx) * 4 + c) + 5.
Proof.
  intros Hwf Hi Hsin Hx Hy Hc.
  pose proof Hwf as (Hw0 & Hh0 & Hlen & Hbytes).
  exists (glassTap image params x y c), (snd (glassSource image params x y)).
  split; [apply glassTap_range; lia|].
  split; [apply glassSource_range; lia|]. split; [done|].
  rewrite glassData_rd by (try done; lia).
  rewrite glass_colour by done.
  rewrite shade_byte.
  apply shade_within_tenth; [apply rd_byte; done|].
  unfold brightnessFactor. cbv zeta.
  set (s := Math_sin (combinedWave image params x y * Math_PI)) in *.
  assert (Hq : (0 <= intensity params / 100 <= 1)%Q).
  { split; [apply Qle_shift_div_l; lra | apply Qle_shift_div_r; lra]. }
  set (q := (intensity params / 100)%Q) in *.
  split; nra.
Qed.

Lemma sampleRow_well_formed : well_formed sampleRow.
Proof.
  unfold well_formed. simpl. repeat split; try lia.
  repeat constructor; unfold is_byte; lia.
Defined.

Lemma glass_colour_within_tenth_witness :
  well_formed sampleRow /\
  (0 <= intensity sampleGlass <= 100)%Q /\
  (-1 <= @Math_sin (sampleMath (1 # 2))
           (@combinedWave (sampleMath (1 # 2)) sampleRow sampleGlass 1 0 * Math_PI) <= 1)%Q /\
  exists sx sy,
    0 <= sx < 2 /\ 0 <= sy < 1 /\
    sy = snd (@glassSource (sampleMath (1 # 2)) sampleRow sampleGlass 1 0) /\
    10 * Z.abs (rd (data (@glassData (sampleMath (1 # 2)) sampleRow sampleGlass))
                   ((0 * 2 + 1) * 4 + 1)
                - rd (data sampleRow) ((sy * 2 + sx) * 4 + 1))
    <= rd (data sampleRow) ((sy * 2 + sx) * 4 + 1) + 5.
Proof.
  assert (Hi : (0 <= intensity sampleGlass <= 100)%Q) by (simpl; lra).
  assert (Hs : (-1 <= @Math_sin (sampleMath (1 # 2))
           (@combinedWave (sampleMath (1 # 2)) sampleRow sampleGlass 1 0 * Math_PI) <= 1)%Q).
  { split; apply Qle_bool_imp_le; vm_compute; reflexivity. }
  split; [exact sampleRow_well_formed|]. split; [exact Hi|]. split; [exact Hs|].
  exact (@glass_colour_within_tenth (sampleMath (1 # 2)) sampleRow sampleGlass 1 0 1
           sampleRow_well_formed Hi Hs ltac:(simpl; lia) ltac:(simpl; lia) ltac:(lia)).
Defined.

(** X20. GlassRefraction never lights a black image: whatever the parameters and
    the host's sines, every colour byte of the output is 0. *)
Theorem glass_keeps_black `{JSMath} (image : ImageData)
    (params : GlassRefractionParams) (x y c : Z) :
  well_formed image -> all_black image ->
  0 <= x < width image -> 0 <= y < height image -> 0 <= c < 3 ->
  rd (data (glassData image params)) ((y * width image + x) * 4 + c) = 0.
Proof.
  intros Hwf Hblack Hx Hy Hc.
  rewrite glassData_rd by (try done; lia).
  rewrite glass_colour by done. rewrite shade_byte.
  rewrite Hblack.
  - rewrite (Math_round_comp _ (inject_Z 0)) by (change (inject_Z 0) with 0%Q; ring).
    rewrite Math_round_inject. lia.
  - set (p := snd (glassSource image params x y) * width image + glassTap image params x y c).
    replace (p * 4 + c) with (4 * p + c) by lia.
    rewrite pixel_mod by lia. lia.
Qed.

Lemma sampleBlack_all_black : all_black sampleBlack.
Proof.
  intros j Hj. unfold sampleBlack, rd. simpl.
  destruct (Z.ltb_spec j 0); [done|].
  assert (Hcases : j = 0 \/ j = 1 \/ j = 2 \/ j = 4 \/ j = 5 \/ j = 6 \/ j = 8 \/ j = 9
                   \/ j = 10 \/ j = 12 \/ j = 13 \/ j = 14 \/ j = 3 \/ j = 7 \/ j = 11
                   \/ j = 15 \/ 16 <= j) by lia.
  repeat (destruct Hcases as [-> | Hcases]; [first [reflexivity | exfalso; apply Hj; reflexivity]|]).
  replace (Z.to_nat j) with (16 + (Z.to_nat j - 16))%nat by lia. reflexivity.
Defined.

Lemma sampleBlack_well_formed : well_formed sampleBlack.
Proof.
  unfold well_formed. simpl. repeat split; try lia.
  repeat constructor; unfold is_byte; lia.
Defined.

Lemma glass_keeps_black_witness :
  well_formed sampleBlack /\ all_black sampleBlack /\
  rd (data (@glassData (sampleMath (1 # 2)) sampleBlack sampleGlass)) ((1 * 2 + 1) * 4 + 2) = 0.
Proof.
  split; [exact sampleBlack_well_formed|]. split; [exact sampleBlack_all_black|].
  exact (@glass_keeps_black (sampleMath (1 # 2)) sampleBlack sampleGlass 1 1 2
           sampleBlack_well_formed sampleBlack_all_black
           ltac:(simpl; lia) ltac:(simpl; lia) ltac:(lia)).
Defined.

(** ** Noise: one delta for the three channels of a pixel *)

(** X21. Noise never swaps the order of two colour channels of a pixel
    (so a gray pixel stays gray): the three receive the same delta. *)
Theorem noise_keeps_channel_order `{JSMath} (image : ImageData) (params : NoiseParams)
    (x y c1 c2 : Z) :
  well_formed image ->
  0 <= x < width image -> 0 <= y < height image -> 0 <= c1 < 3 -> 0 <= c2 < 3 ->
  rd (data image) ((y * width image + x) * 4 + c1) <=
    rd (data image) ((y * width image + x) * 4 + c2) ->
  rd (data (noiseData image params)) ((y * width image + x) * 4 + c1) <=
    rd (data (noiseData image params)) ((y * width image + x) * 4 + c2).
Proof.
  intros Hwf Hx Hy Hc1 Hc2 Hle.
  pose proof Hwf as (Hw0 & Hh0 & Hlen & Hbytes).
  destruct (pixel_channel_index (width image) (height image) x y c1 Hx Hy ltac:(lia))
    as (Ed1 & Em1 & Hin1).
  destruct (pixel_channel_index (width image) (height image) x y c2 Hx Hy ltac:(lia))
    as (Ed2 & Em2 & Hin2).
  rewrite !noiseData_rd by lia.
  rewrite Ed1, Ed2, Em1, Em2.
  destruct (Z.eqb_spec c1 3); [lia|]. destruct (Z.eqb_spec c2 3); [lia|].
  apply grain_mono. done.
Qed.

Lemma noise_keeps_channel_order_witness :
  well_formed sampleRow /\
  rd (data sampleRow) ((0 * 2 + 1) * 4 + 1) <= rd (data sampleRow) ((0 * 2 + 1) * 4 + 0) /\
  rd (data (@noiseData (sampleMath (7 # 8)) sampleRow {| amount := 30 |})) ((0 * 2 + 1) * 4 + 1)
  <= rd (data (@noiseData (sampleMath (7 # 8)) sampleRow {| amount := 30 |})) ((0 * 2 + 1) * 4 + 0).
Proof.
  assert (Hle : rd (data sampleRow) ((0 * 2 + 1) * 4 + 1)
                <= rd (data sampleRow) ((0 * 2 + 1) * 4 + 0)) by (vm_compute; discriminate).
  split; [exact sampleRow_well_formed|]. split; [exact Hle|].
  exact (@noise_keeps_channel_order (sampleMath (7 # 8)) sampleRow {| amount := 30 |}
           1 0 1 0 sampleRow_well_formed ltac:(simpl; lia) ltac:(simpl; lia)
           ltac:(lia) ltac:(lia) Hle).
Defined.

(** ** Pixelate on the canvas: the size of the small canvas *)

Lemma Qceiling_cover (n p : Z) :
  1 <= p ->
  (Qceiling (inject_Z n / inject_Z p) - 1) * p < n <= Qceiling (inject_Z n / inject_Z p) * p.
Proof.
  intros Hp.
  assert (HpQ : (0 < inject_Z p)%Q).
  { change 0%Q with (inject_Z 0). rewrite <- Zlt_Qlt. lia. }
  set (q := (inject_Z n / inject_Z p)%Q).
  assert (Hq : (q * inject_Z p == inject_Z n)%Q) by (unfold q; field; lra).
  pose proof (Qle_ceiling q) as H1. pose proof (Qceiling_lt q) as H2.
  set (k := Qceiling q) in *.
  split.
  - assert (H : (inject_Z ((k - 1) * p) < inject_Z n)%Q).
    { rewrite inject_Z_mult. rewrite <- Hq. apply Qmult_lt_compat_r; done. }
    rewrite <- Zlt_Qlt in H. done.
  - assert (H : (inject_Z n <= inject_Z (k * p))%Q).
    { rewrite inject_Z_mult. rewrite <- Hq. apply Qmult_le_compat_r; lra. }
    rewrite <- Zle_Qle in H. done.
Qed.

(** X22. The small canvas of Pixelate has just enough cells of [pixelSize]
    pixels to cover the image in each direction, and it is scaled back to
    the size of the image. *)
Theorem pixelate_small_canvas_covers (image : ImageData) (params : PixelateParams) :
  1 <= pixelSize params ->
  exists smallW smallH,
    applyPixelateEffect image params =
      [DrawScaled image smallW smallH (width image) (height image)] /\
    (smallW - 1) * pixelSize params < width image <= smallW * pixelSize params /\
    (smallH - 1) * pixelSize params < height image <= smallH * pixelSize params.
Proof.
  intros Hp. unfold applyPixelateEffect, Math_ceil. cbv zeta.
  eexists _, _. split; [reflexivity|].
  split; apply Qceiling_cover; done.
Qed.

Lemma pixelate_small_canvas_covers_witness :
  1 <= pixelSize {| pixelSize := 4 |} /\
  exists smallW smallH,
    applyPixelateEffect sampleFlat {| pixelSize := 4 |} =
      [DrawScaled sampleFlat smallW smallH 3 3] /\
    (smallW - 1) * 4 < 3 <= smallW * 4 /\ (smallH - 1) * 4 < 3 <= smallH * 4.
Proof.
  split; [simpl; lia|].
  exact (pixelate_small_canvas_covers sampleFlat {| pixelSize := 4 |} ltac:(simpl; lia)).
Defined.

(** ** The size of the canvas *)

Lemma scale_order (a b : Z) :
  1 <= a -> 1 <= b ->
  (inject_Z MAX_DIMENSION / inject_Z a <= inject_Z MAX_DIMENSION / inject_Z b)%Q <-> b <= a.
Proof.
  intros Ha Hb.
  assert (HaQ : (0 < inject_Z a)%Q) by (change 0%Q with (inject_Z 0); rewrite <- Zlt_Qlt; lia).
  assert (HbQ : (0 < inject_Z b)%Q) by (change 0%Q with (inject_Z 0); rewrite <- Zlt_Qlt; lia).
  change (inject_Z MAX_DIMENSION) with 1200%Q.
  set (x := (1200 / inject_Z a)%Q). set (y := (1200 / inject_Z b)%Q).
  assert (Hx : (x * inject_Z a == 1200)%Q) by (unfold x; field; lra).
  assert (Hy : (y * inject_Z b == 1200)%Q) by (unfold y; field; lra).
  assert (Hy0 : (0 < y)%Q).
  { destruct (Qlt_le_dec 0 y) as [|Hneg]; [done|]. exfalso.
    assert (y * inject_Z b <= 0 * inject_Z b)%Q by (apply Qmult_le_compat_r; lra). lra. }
  rewrite (Zle_Qle b a).
  split; intros H.
  - destruct (Qlt_le_dec (inject_Z a) (inject_Z b)) as [Hlt|]; [|done].
    exfalso.
    assert (x * inject_Z a <= y * inject_Z a)%Q by (apply Qmult_le_compat_r; lra).
    assert (y * inject_Z a < y * inject_Z b)%Q by (apply Qmult_lt_l; done).
    lra.
  - destruct (Qlt_le_dec y x) as [Hlt|]; [|done].
    exfalso.
    assert (y * inject_Z b <= y * inject_Z a)%Q by (apply Qmult_le_l; lra).
    assert (y * inject_Z a < x * inject_Z a)%Q by (apply Qmult_lt_compat_r; done).
    lra.
Qed.

(** The longer side [b] goes to the limit and the shorter side [a] follows
    in proportion. *)
Lemma scaled_sides (a b : Z) :
  1 <= a <= b -> MAX_DIMENSION < b ->
  Math_round (inject_Z b * (inject_Z MAX_DIMENSION / inject_Z b)) = MAX_DIMENSION /\
  0 <= Math_round (inject_Z a * (inject_Z MAX_DIMENSION / inject_Z b)) <= Z.min a MAX_DIMENSION /\
  2 * Z.abs (Math_round (inject_Z a * (inject_Z MAX_DIMENSION / inject_Z b)) * b
             - MAX_DIMENSION * a) <= b.
Proof.
  unfold MAX_DIMENSION. intros Ha Hb.
  assert (HaQ : (1 <= inject_Z a)%Q) by (change 1%Q with (inject_Z 1); rewrite <- Zle_Qle; lia).
  assert (HabQ : (inject_Z a <= inject_Z b)%Q) by (rewrite <- Zle_Qle; lia).
  assert (HbQ : (1200 < inject_Z b)%Q)
    by (change 1200%Q with (inject_Z 1200); rewrite <- Zlt_Qlt; lia).
  change (inject_Z 1200) with 1200%Q.
  set (s := (1200 / inject_Z b)%Q).
  assert (Hs : (s * inject_Z b == 1200)%Q) by (unfold s; field; lra).
  assert (Hs0 : (0 < s)%Q) by nra.
  assert (Hs1 : (s < 1)%Q) by nra.
  split; [|split].
  - rewrite (Math_round_comp _ (inject_Z 1200)).
    + apply Math_round_inject.
    + change (inject_Z 1200) with 1200%Q. rewrite <- Hs. ring.
  - assert (Hlt : (inject_Z a * s <= inject_Z a)%Q) by nra.
    assert (Hlm : (inject_Z a * s <= 1200)%Q) by nra.
    pose proof (Math_round_between (inject_Z a * s) 0 (Z.min a 1200)) as Hb2.
    apply Hb2. split; [change (inject_Z 0) with 0%Q; nra|].
    destruct (Z.min_spec a 1200) as [[_ ->] | [_ ->]]; [done|].
    change (inject_Z 1200) with 1200%Q. done.
  - pose proof (Math_round_bounds (inject_Z a * s)) as [Hlo Hhi].
    set (m := Math_round (inject_Z a * s)) in *.
    assert (H1 : (inject_Z (2 * (m * b)) <= inject_Z (2 * (1200 * a) + b))%Q).
    { rewrite inject_Z_plus, !inject_Z_mult.
      change (inject_Z 2) with 2%Q. change (inject_Z 1200) with 1200%Q. nra. }
    assert (H2 : (inject_Z (2 * (1200 * a)) <= inject_Z (2 * (m * b) + b))%Q).
    { rewrite inject_Z_plus, !inject_Z_mult.
      change (inject_Z 2) with 2%Q. change (inject_Z 1200) with 1200%Q. nra. }
    rewrite <- Zle_Qle in H1, H2. lia.
Qed.

(** The three ways through the sizing of [applyEffect]. *)
Lemma applyEffect_size_cases (w h : Z) :
  1 <= w -> 1 <= h ->
  (w <= MAX_DIMENSION /\ h <= MAX_DIMENSION /\ applyEffect_size w h = Some (w, h)) \/
  (MAX_DIMENSION < w /\ h <= w /\
   applyEffect_size w h =
     Some (Math_round (inject_Z w * (inject_Z MAX_DIMENSION / inject_Z w)),
           Math_round (inject_Z h * (inject_Z MAX_DIMENSION / inject_Z w)))) \/
  (MAX_DIMENSION < h /\ w < h /\
   applyEffect_size w h =
     Some (Math_round (inject_Z w * (inject_Z MAX_DIMENSION / inject_Z h)),
           Math_round (inject_Z h * (inject_Z MAX_DIMENSION / inject_Z h)))).
Proof.
  intros Hw Hh. unfold applyEffect_size.
  destruct (Z.leb_spec w 0); [lia|]. destruct (Z.leb_spec h 0); [lia|]. cbn [orb]. cbv zeta.
  pose proof (scale_order w h Hw Hh) as Hord.
  destruct (Z.ltb_spec MAX_DIMENSION w) as [Hbw|Hsw];
    destruct (Z.ltb_spec MAX_DIMENSION h) as [Hbh|Hsh]; cbn [orb];
    try (left; repeat split; (done || lia));
    right; unfold Math_min;
    destruct (Qle_bool (inject_Z MAX_DIMENSION / inject_Z w)
                (inject_Z MAX_DIMENSION / inject_Z h)) eqn:E;
    [apply Qle_bool_true in E; apply Hord in E
    |apply Qle_bool_false in E;
     assert (w < h) by (destruct (Z.lt_ge_cases w h) as [|Hge]; [done|];
                        apply Hord in Hge; lra)
    |apply Qle_bool_true in E; apply Hord in E
    |apply Qle_bool_false in E;
     assert (w < h) by (destruct (Z.lt_ge_cases w h) as [|Hge]; [done|];
                        apply Hord in Hge; lra)
    |apply Qle_bool_true in E; apply Hord in E
    |apply Qle_bool_false in E;
     assert (w < h) by (destruct (Z.lt_ge_cases w h) as [|Hge]; [done|];
                        apply Hord in Hge; lra)];
    first [left; repeat split; (done || lia) | right; repeat split; (done || lia)].
Qed.

(** X23. The canvas never exceeds the limit nor the image in either direction,
    and an image that is scaled has its longer side at the limit
    exactly. *)
Theorem canvas_fits_limit (w h : Z) :
  1 <= w -> 1 <= h ->
  exists cw ch,
    applyEffect_size w h = Some (cw, ch) /\
    0 <= cw <= Z.min w MAX_DIMENSION /\ 0 <= ch <= Z.min h MAX_DIMENSION /\
    (MAX_DIMENSION < w \/ MAX_DIMENSION < h -> Z.max cw ch = MAX_DIMENSION) /\
    (w <= MAX_DIMENSION -> h <= MAX_DIMENSION -> cw = w /\ ch = h).
Proof.
  intros Hw Hh.
  destruct (applyEffect_size_cases w h Hw Hh)
    as [(Hsw & Hsh & ->) | [(Hbw & Hhw & ->) | (Hbh & Hwh & ->)]].
  - exists w, h. repeat split; lia.
  - destruct (scaled_sides h w ltac:(lia) Hbw) as (E & Hr & _).
    destruct (scaled_sides w w ltac:(lia) Hbw) as (_ & Hr' & _).
    eexists _, _. split; [reflexivity|]. rewrite E. repeat split; lia.
  - destruct (scaled_sides w h ltac:(lia) Hbh) as (E & Hr & _).
    destruct (scaled_sides h h ltac:(lia) Hbh) as (_ & Hr' & _).
    eexists _, _. split; [reflexivity|]. rewrite E. repeat split; lia.
Qed.

Lemma canvas_fits_limit_witness :
  1 <= 4000 /\ 1 <= 3000 /\
  exists cw ch,
    applyEffect_size 4000 3000 = Some (cw, ch) /\
    0 <= cw <= Z.min 4000 MAX_DIMENSION /\ 0 <= ch <= Z.min 3000 MAX_DIMENSION /\
    (MAX_DIMENSION < 4000 \/ MAX_DIMENSION < 3000 -> Z.max cw ch = MAX_DIMENSION) /\
    (4000 <= MAX_DIMENSION -> 3000 <= MAX_DIMENSION -> cw = 4000 /\ ch = 3000).
Proof.
  split; [lia|]. split; [lia|].
  exact (canvas_fits_limit 4000 3000 ltac:(lia) ltac:(lia)).
Defined.

(** X24. The scaling keeps the aspect ratio up to the rounding of the shorter
    side: the cross products of the canvas and the image differ by at most
    half the longer side of the image. *)
Theorem canvas_keeps_aspect_ratio (w h : Z) :
  1 <= w -> 1 <= h ->
  exists cw ch,
    applyEffect_size w h = Some (cw, ch) /\
    2 * Z.abs (cw * h - ch * w) <= Z.max w h.
Proof.
  intros Hw Hh.
  destruct (applyEffect_size_cases w h Hw Hh)
    as [(Hsw & Hsh & ->) | [(Hbw & Hhw & ->) | (Hbh & Hwh & ->)]].
  - exists w, h. split; [done|]. lia.
  - destruct (scaled_sides h w ltac:(lia) Hbw) as (E & _ & Hr).
    eexists _, _. split; [reflexivity|]. rewrite E. lia.
  - destruct (scaled_sides w h ltac:(lia) Hbh) as (E & _ & Hr).
    eexists _, _. split; [reflexivity|]. rewrite E. lia.
Qed.

Lemma canvas_keeps_aspect_ratio_witness :
  1 <= 4000 /\ 1 <= 3001 /\
  exists cw ch,
    applyEffect_size 4000 3001 = Some (cw, ch) /\
    2 * Z.abs (cw * 3001 - ch * 4000) <= Z.max 4000 3001.
Proof.
  split; [lia|]. split; [lia|].
  exact (canvas_keeps_aspect_ratio 4000 3001 ltac:(lia) ltac:(lia)).
Defined.

(** X25. The guard of [applyEffect] looks at the image only: an image more than
    2400 times taller than wide passes it and gets a canvas of width 0 and
    height 1200; a canvas of width 0 is given to no image less than 2400
    times taller than wide. *)
Theorem canvas_width_vanishes (w h : Z) :
  1 <= w -> 1 <= h ->
  (2 * MAX_DIMENSION * w < h -> applyEffect_size w h = Some (0, MAX_DIMENSION)) /\
  ((exists ch, applyEffect_size w h = Some (0, ch)) -> 2 * MAX_DIMENSION * w <= h).
Proof.
  intros Hw Hh.
  assert (HwQ : (1 <= inject_Z w)%Q) by (change 1%Q with (inject_Z 1); rewrite <- Zle_Qle; lia).
  assert (HhQ : (1 <= inject_Z h)%Q) by (change 1%Q with (inject_Z 1); rewrite <- Zle_Qle; lia).
  assert (Hs : (inject_Z MAX_DIMENSION / inject_Z h * inject_Z h == 1200)%Q)
    by (change (inject_Z MAX_DIMENSION) with 1200%Q; field; lra).
  set (s := (inject_Z MAX_DIMENSION / inject_Z h)%Q) in *.
  assert (Hmul : (inject_Z w * s * inject_Z h == 1200 * inject_Z w)%Q)
    by (rewrite <- Hs; ring).
  destruct (applyEffect_size_cases w h Hw Hh)
    as [(Hsw & Hsh & E) | [(Hbw & Hhw & E) | (Hbh & Hwh & E)]]; rewrite E.
  - unfold MAX_DIMENSION in *. split; [lia | intros [ch Hch]; injection Hch; lia].
  - destruct (scaled_sides w w ltac:(lia) Hbw) as (E1 & _ & _).
    rewrite E1. unfold MAX_DIMENSION in *.
    split; [lia | intros [ch Hch]; injection Hch; lia].
  - fold s. pose proof (Math_round_bounds (inject_Z w * s)) as [Hlo Hhi].
    destruct (scaled_sides h h ltac:(lia) Hbh) as (E1 & _ & _). fold s in E1. rewrite E1.
    unfold MAX_DIMENSION in Hbh |- *.
    split.
    + intros Hthin. do 2 f_equal.
      unfold Math_round. apply Qfloor_unique; change (inject_Z 0) with 0%Q.
      * assert (0 <= inject_Z w * s * inject_Z h)%Q by lra.
        destruct (Qlt_le_dec (inject_Z w * s) 0) as [Hneg|]; [|lra].
        assert (inject_Z w * s * inject_Z h < 0 * inject_Z h)%Q
          by (apply Qmult_lt_compat_r; lra).
        lra.
      * rewrite Zlt_Qlt in Hthin. rewrite !inject_Z_mult in Hthin.
        change (inject_Z 2) with 2%Q in Hthin. change (inject_Z 1200) with 1200%Q in Hthin.
        destruct (Qlt_le_dec (inject_Z w * s) (1 # 2)) as [|Hbig]; [lra|].
        assert ((1 # 2) * inject_Z h <= inject_Z w * s * inject_Z h)%Q
          by (apply Qmult_le_compat_r; lra).
        lra.
    + intros [ch Hch]. injection Hch as Hcw _. rewrite Hcw in Hlo.
      change (inject_Z 0) with 0%Q in Hlo.
      assert (Hlt : (inject_Z (2 * 1200 * w) < inject_Z h)%Q).
      { rewrite !inject_Z_mult. change (inject_Z 2) with 2%Q.
        change (inject_Z 1200) with 1200%Q.
        assert ((inject_Z w * s) * inject_Z h < (1 # 2) * inject_Z h)%Q
          by (apply Qmult_lt_compat_r; lra).
        lra. }
      rewrite <- Zlt_Qlt in Hlt. lia.
Qed.

Lemma canvas_width_vanishes_witness :
  1 <= 1 /\ 1 <= 5000 /\ 2 * MAX_DIMENSION * 1 < 5000 /\
  applyEffect_size 1 5000 = Some (0, MAX_DIMENSION).
Proof.
  assert (Hthin : 2 * MAX_DIMENSION * 1 < 5000) by (unfold MAX_DIMENSION; lia).
  split; [lia|]. split; [lia|]. split; [exact Hthin|].
  exact (proj1 (canvas_width_vanishes 1 5000 ltac:(lia) ltac:(lia)) Hthin).
Defined.
